(** * Floor caches, attribute indexing and the bid-event feed of the indexer

    A shallow embedding of
    - [src/models/collections/index.ts] (class [Collections] and the
      [metadata-index-write-queue] worker that shares the file), and
    - [src/api/endpoints/events/get-bid-events/v1.ts] (the bid-event feed),
    with the database tables as finite collections of rows and each SQL
    statement as one atomic function on the database state. *)

From Stdlib Require Import ZArith Lia Ascii.
From stdpp Require Import base option list sorting strings pretty gmap.

Open Scope string_scope.
Open Scope list_scope.
Open Scope Z_scope.

(** ** JavaScript values the code tests for truthiness *)

(** [if (s)] on a string: every string but the empty one is truthy. *)
Definition truthy_string (s : string) : bool :=
  match s with
  | EmptyString => false
  | String _ _ => true
  end.

(** [s || null] on an optional string parameter. *)
Definition or_null (s : option string) : option string :=
  match s with
  | Some x => if truthy_string x then Some x else None
  | None => None
  end.

(** What a rejected promise carries. *)
Inductive JsError :=
  | TypeError (msg : string)
  | Error (msg : string).

(** SQL [a IS DISTINCT FROM b]: NULL-safe inequality. *)
Definition is_distinct_from `{EqDecision A} (a b : option A) : bool :=
  negb (bool_decide (a = b)).

(** SQL [ORDER BY c ASC] on a nullable numeric column: NULLs sort last. *)
Definition le_nulls_last (a b : option Z) : Prop :=
  match a, b with
  | Some x, Some y => x <= y
  | Some _, None => True
  | None, Some _ => False
  | None, None => True
  end.

#[global] Instance le_nulls_last_dec a b : Decision (le_nulls_last a b).
Proof. destruct a, b; simpl; apply _. Defined.

(** ** [Collections]: floor cache and revalidation *)

Module Collections.

(** The columns of [orders] the queries read. *)
Record OrderRow := {
  o_id : string;
  o_token_set_id : string;
  o_side : string;
  o_fillability_status : string;
  o_approval_status : string;
  o_taker : option string;
  o_value : Z;
  o_fee_bps : Z;
  o_source_id_int : option Z;
  o_valid_between : option (Z * Z)
}.

Record TokenSetsTokensRow := {
  tst_token_set_id : string;
  tst_contract : string;
  tst_token_id : string
}.

Record TokenSetRow := {
  ts_id : string;
  ts_collection_id : option string;
  ts_attribute_id : option Z
}.

Record TokenRow := {
  t_contract : string;
  t_token_id : string;
  t_collection_id : option string;
  t_floor_sell_id : option string;
  t_floor_sell_value : option Z;
  t_floor_sell_maker : option string
}.

Record CollectionRow := {
  c_id : string;
  c_floor_sell_id : option string;
  c_floor_sell_value : option Z;
  c_floor_sell_maker : option string;
  c_floor_sell_source_id_int : option Z;
  c_floor_sell_valid_between : option (Z * Z);
  c_updated_at : Z
}.

Record DB := {
  orders : list OrderRow;
  token_sets_tokens : list TokenSetsTokensRow;
  token_sets : list TokenSetRow;
  tokens : list TokenRow;
  collections : list CollectionRow
}.

#[global] Instance CollectionRow_eq_dec : EqDecision CollectionRow.
Proof. solve_decision. Defined.

(** A job handed to [orderUpdatesById.addToQueue]. *)
Record RevalidationJob := {
  context : string;
  id : string;
  trigger_kind : string
}.

Definition zero_address : string :=
  "\x0000000000000000000000000000000000000000".

(** [(orders.taker = '\x00..00' OR orders.taker IS NULL)] *)
Definition open_taker (o : OrderRow) : bool :=
  match o_taker o with
  | None => true
  | Some t => bool_decide (t = zero_address)
  end.

(** The status part of both WHERE clauses. *)
Definition live_order (side : string) (o : OrderRow) : bool :=
  bool_decide (o_side o = side)
  && bool_decide (o_fillability_status o = "fillable")
  && bool_decide (o_approval_status o = "approved")
  && open_taker o.

(** [ORDER BY orders.value, orders.fee_bps] *)
Definition ask_order (a b : OrderRow) : Prop :=
  o_value a < o_value b \/ (o_value a = o_value b /\ o_fee_bps a <= o_fee_bps b).

(** [ORDER BY orders.value DESC] *)
Definition bid_order (a b : OrderRow) : Prop := o_value b <= o_value a.

#[global] Instance ask_order_dec a b : Decision (ask_order a b).
Proof. unfold ask_order. apply _. Defined.
#[global] Instance bid_order_dec a b : Decision (bid_order a b).
Proof. unfold bid_order. apply _. Defined.

(** The rows of
    [orders JOIN token_sets_tokens JOIN tokens WHERE ...] of
    [revalidateCollectionFloorAsk], one per joined triple. *)
Definition floor_ask_candidates (db : DB) (collection : string) : list OrderRow :=
  o ← orders db;
  tst ← token_sets_tokens db;
  t ← tokens db;
  if bool_decide (o_token_set_id o = tst_token_set_id tst)
     && bool_decide (tst_contract tst = t_contract t)
     && bool_decide (tst_token_id tst = t_token_id t)
     && bool_decide (t_collection_id t = Some collection)
     && live_order "sell" o
  then [o] else [].

(** The rows of [orders JOIN token_sets WHERE ...] of
    [revalidateCollectionTopBuy]. *)
Definition top_buy_candidates (db : DB) (collection : string) : list OrderRow :=
  o ← orders db;
  ts ← token_sets db;
  if bool_decide (o_token_set_id o = ts_id ts)
     && bool_decide (ts_collection_id ts = Some collection)
     && bool_decide (ts_attribute_id ts = None)
     && live_order "buy" o
  then [o] else [].

(** [redb.oneOrNone] of a [... ORDER BY ... LIMIT 1] query: the first row
    in the order, or [null] when no row qualifies. *)
Definition floorAskOrderResult (db : DB) (collection : string) : option OrderRow :=
  head (merge_sort ask_order (floor_ask_candidates db collection)).

Definition topBuyOrderResult (db : DB) (collection : string) : option OrderRow :=
  head (merge_sort bid_order (top_buy_candidates db collection)).

(** The body after the query: the property read [result.id] comes first,
    and on [null] it throws before either branch of the [if] is entered.
    The second component is the list of jobs passed to [addToQueue]. *)
Definition revalidate (prefix : string) (result : option OrderRow) (now : Z)
  : (JsError + unit) * list RevalidationJob :=
  match result with
  | None => (inl (TypeError "Cannot read properties of null (reading 'id')"), [])
  | Some r =>
      if truthy_string (o_id r)
      then (inr (), [ {| context := prefix +:+ o_id r +:+ "-" +:+ pretty now;
                        id := o_id r;
                        trigger_kind := "revalidation" |} ])
      else (inr (), [])
  end.

Definition revalidateCollectionFloorAsk (db : DB) (now : Z) (collection : string) :=
  revalidate "revalidate-collection-floor-sell-" (floorAskOrderResult db collection) now.

Definition revalidateCollectionTopBuy (db : DB) (now : Z) (collection : string) :=
  revalidate "revalidate-collection-top-buy-" (topBuyOrderResult db collection) now.

(** A row of the subquery [x] of [recalculateCollectionFloorSell]. *)
Record FloorRow := {
  x_floor_sell_id : option string;
  x_floor_sell_value : option Z;
  x_floor_sell_maker : option string;
  x_source_id_int : option Z;
  x_valid_between : option (Z * Z)
}.

(** [ORDER BY tokens.floor_sell_value] *)
Definition floor_value_order (a b : FloorRow) : Prop :=
  le_nulls_last (x_floor_sell_value a) (x_floor_sell_value b).

#[global] Instance floor_value_order_dec a b : Decision (floor_value_order a b).
Proof. unfold floor_value_order. apply _. Defined.

(** [tokens JOIN orders ON tokens.floor_sell_id = orders.id
     WHERE tokens.collection_id = $/collection/] *)
Definition floor_join (db : DB) (collection : string) : list FloorRow :=
  t ← tokens db;
  o ← orders db;
  if bool_decide (t_floor_sell_id t = Some (o_id o))
     && bool_decide (t_collection_id t = Some collection)
  then [ {| x_floor_sell_id := t_floor_sell_id t;
            x_floor_sell_value := t_floor_sell_value t;
            x_floor_sell_maker := t_floor_sell_maker t;
            x_source_id_int := o_source_id_int o;
            x_valid_between := o_valid_between o |} ]
  else [].

(** [... ORDER BY tokens.floor_sell_value LIMIT 1]: zero or one row. *)
Definition floor_subquery (db : DB) (collection : string) : list FloorRow :=
  take 1 (merge_sort floor_value_order (floor_join db collection)).

(** The WHERE clause of the UPDATE, on one [collections] row joined with
    one row of [x]. *)
Definition floor_changed (collection : string) (c : CollectionRow) (x : FloorRow) : bool :=
  bool_decide (c_id c = collection)
  && (is_distinct_from (c_floor_sell_id c) (x_floor_sell_id x)
      || is_distinct_from (c_floor_sell_value c) (x_floor_sell_value x)).

(** The SET list. *)
Definition write_floor (now : Z) (c : CollectionRow) (x : FloorRow) : CollectionRow :=
  {| c_id := c_id c;
     c_floor_sell_id := x_floor_sell_id x;
     c_floor_sell_value := x_floor_sell_value x;
     c_floor_sell_maker := x_floor_sell_maker x;
     c_floor_sell_source_id_int := x_source_id_int x;
     c_floor_sell_valid_between := x_valid_between x;
     c_updated_at := now |}.

(** [UPDATE collections SET ... FROM x WHERE ...]: a row is written when
    some row of [x] joins with it under the WHERE clause. *)
Definition update_from (collection : string) (now : Z) (xs : list FloorRow)
    (c : CollectionRow) : CollectionRow :=
  match List.find (floor_changed collection c) xs with
  | Some x => write_floor now c x
  | None => c
  end.

(** The number of rows the UPDATE writes. *)
Definition rows_written (collection : string) (xs : list FloorRow)
    (cs : list CollectionRow) : nat :=
  length
    (List.filter
       (fun c => bool_decide (is_Some (List.find (floor_changed collection c) xs)))
       cs).

Definition recalculateCollectionFloorSell (db : DB) (now : Z) (collection : string) : DB :=
  let xs := floor_subquery db collection in
  {| orders := orders db;
     token_sets_tokens := token_sets_tokens db;
     token_sets := token_sets db;
     tokens := tokens db;
     collections := map (update_from collection now xs) (collections db) |}.

Definition recalculate_writes (db : DB) (collection : string) : nat :=
  rows_written collection (floor_subquery db collection) (collections db).

End Collections.

(** ** The [metadata-index-write-queue] worker *)

Module MetadataIndex.

Inductive Kind := KString | KNumber | KDate | KRange.

#[global] Instance Kind_eq_dec : EqDecision Kind.
Proof. solve_decision. Defined.

(** One element of [TokenMetadataInfo.attributes]. *)
Record Attribute := {
  key : string;
  value : string;
  kind : Kind;
  rank : option Z
}.

Record TokenMetadataInfo := {
  collection : string;
  contract : string;
  tokenId : string;
  name : option string;
  description : option string;
  imageUrl : option string;
  mediaUrl : option string;
  attributes : list Attribute
}.

(** *** Tables

    The rows below carry the columns the statements of the worker read or
    write. *)

Record TokenRow := {
  t_name : option string;
  t_description : option string;
  t_image : option string;
  t_media : option string;
  t_attributes : option (gmap string (option string));
  t_metadata_indexed : option bool;
  t_updated_at : Z
}.

(** [info] is NULL or the object [{min_range, max_range}], whose members
    may themselves be JSON null. *)
(** A bound of the range kept in the [info] column (jsonb): the insert
    writes a JSON number, [Number(value)]; the update writes, through
    [jsonb_object] of a text array, a JSON string that holds the text of
    a numeric. A bound that is not there ([None] below) is a JSON null. *)
Inductive Bound :=
  | JNumber (n : Z)
  | JString (n : Z).

#[global] Instance Bound_eq_dec : EqDecision Bound.
Proof. solve_decision. Defined.

(** [(info->>'min_range')::numeric] on a bound that is there: the text of
    the JSON value, read back as a numeric. *)
Definition bound_numeric (b : Bound) : Z :=
  match b with
  | JNumber n | JString n => n
  end.

Record AttributeKeyRow := {
  ak_id : positive;
  ak_kind : Kind;
  ak_rank : option Z;
  ak_info : option (option Bound * option Bound);
  ak_attribute_count : Z
}.

Record AttributeRow := {
  a_id : positive;
  a_sell_updated_at : Z;
  a_buy_updated_at : Z;
  a_collection_id : string;
  a_kind : Kind;
  a_key : string;
  a_token_count : Z;
  a_sample_images : option (list string)
}.

Record TokenAttributeRow := {
  ta_collection_id : string;
  ta_key : string;
  ta_value : string
}.

#[global] Instance TokenRow_eq_dec : EqDecision TokenRow.
Proof. solve_decision. Defined.
#[global] Instance AttributeKeyRow_eq_dec : EqDecision AttributeKeyRow.
Proof. solve_decision. Defined.
#[global] Instance AttributeRow_eq_dec : EqDecision AttributeRow.
Proof. solve_decision. Defined.
#[global] Instance TokenAttributeRow_eq_dec : EqDecision TokenAttributeRow.
Proof. solve_decision. Defined.

(** Modelled from the spec: the schema (unique constraints, defaults) is not
    among the sources. Each table is a finite map from the columns that
    identify a row in the data model to the remaining columns: a token by
    (contract, token_id), an attribute key by (collection_id, key), an
    attribute by (attribute_key_id, value), a link by
    (contract, token_id, attribute_id); these are the constraints
    [ON CONFLICT DO NOTHING] answers to. The serial [id] columns are
    ordinary columns filled from the two sequences; counters start at 0 and
    [sample_images] at NULL. *)
Record DB := {
  tokens : gmap (string * string) TokenRow;
  attribute_keys : gmap (string * string) AttributeKeyRow;
  attributes_table : gmap (positive * string) AttributeRow;
  token_attributes : gmap (string * string * positive) TokenAttributeRow;
  attribute_keys_id_seq : positive;
  attributes_id_seq : positive
}.

(** *** The statements, each one atomic on the database *)

(** [HSTORE(ARRAY[[k0, NULL], [k1, NULL], ...])] with
    [ki = `${key},${value}`], or NULL for an empty attribute list. *)
Definition attrs_hstore (l : list Attribute) : option (gmap string (option string)) :=
  match l with
  | [] => None
  | _ => Some (list_to_map (map (fun a => (key a +:+ "," +:+ value a, None)) l))
  end.

(** [UPDATE tokens SET name = ..., updated_at = now() WHERE contract, token_id
     RETURNING 1] *)
Definition update_token (job : TokenMetadataInfo) (now : Z) (db : DB) : option unit * DB :=
  match tokens db !! (contract job, tokenId job) with
  | None => (None, db)
  | Some t =>
      (Some (),
       {| tokens := <[(contract job, tokenId job) :=
                        {| t_name := or_null (name job);
                           t_description := or_null (description job);
                           t_image := or_null (imageUrl job);
                           t_media := or_null (mediaUrl job);
                           t_attributes := attrs_hstore (attributes job);
                           t_metadata_indexed := t_metadata_indexed t;
                           t_updated_at := now |}]> (tokens db);
          attribute_keys := attribute_keys db;
          attributes_table := attributes_table db;
          token_attributes := token_attributes db;
          attribute_keys_id_seq := attribute_keys_id_seq db;
          attributes_id_seq := attributes_id_seq db |})
  end.

Definition of_token (c t : string) (k : string * string * positive) : Prop :=
  k.1.1 = c /\ k.1.2 = t.

#[global] Instance of_token_dec c t k : Decision (of_token c t k).
Proof. unfold of_token. apply _. Defined.

(** [DELETE FROM token_attributes WHERE contract, token_id
     RETURNING key, value] *)
Definition delete_token_attributes (c t : string) (db : DB)
  : list (string * string) * DB :=
  (map (fun kv => (ta_key kv.2, ta_value kv.2))
       (map_to_list (filter (fun kv => of_token c t kv.1) (token_attributes db))),
   {| tokens := tokens db;
      attribute_keys := attribute_keys db;
      attributes_table := attributes_table db;
      token_attributes := filter (fun kv => ~ of_token c t kv.1) (token_attributes db);
      attribute_keys_id_seq := attribute_keys_id_seq db;
      attributes_id_seq := attributes_id_seq db |}).

(** [CASE WHEN (info->>'min_range')::numeric > v THEN v
          ELSE (info->>'min_range')::numeric END]; a NULL bound makes the
    comparison NULL, so the ELSE arm keeps it. Either arm is a numeric,
    which the array cast to [text[]] turns into its text and
    [jsonb_object] into a JSON string. *)
Definition widen_min (v : Z) (lo : option Bound) : option Bound :=
  match lo with
  | Some b => if bound_numeric b >? v then Some (JString v) else Some (JString (bound_numeric b))
  | None => None
  end.

Definition widen_max (v : Z) (hi : option Bound) : option Bound :=
  match hi with
  | Some b => if bound_numeric b <? v then Some (JString v) else Some (JString (bound_numeric b))
  | None => None
  end.

(** [info || jsonb_object(array['min_range','max_range'], array[..])];
    NULL [||] anything is NULL. *)
Definition widen (v : Z) (info : option (option Bound * option Bound))
  : option (option Bound * option Bound) :=
  match info with
  | Some (lo, hi) => Some (widen_min v lo, widen_max v hi)
  | None => None
  end.

Definition set_info (r : AttributeKeyRow) (info : option (option Bound * option Bound)) :=
  {| ak_id := ak_id r; ak_kind := ak_kind r; ak_rank := ak_rank r;
     ak_info := info; ak_attribute_count := ak_attribute_count r |}.

Definition add_attribute_count (n : Z) (r : AttributeKeyRow) :=
  {| ak_id := ak_id r; ak_kind := ak_kind r; ak_rank := ak_rank r;
     ak_info := ak_info r; ak_attribute_count := ak_attribute_count r + n |}.

(** A string between double quotes, as the error messages show a key or a
    value. *)
Definition quoted (s : string) : string :=
  String "034"%char s +:+ String "034"%char EmptyString.

Definition with_attribute_keys (db : DB) (m : gmap (string * string) AttributeKeyRow) : DB :=
  {| tokens := tokens db;
     attribute_keys := m;
     attributes_table := attributes_table db;
     token_attributes := token_attributes db;
     attribute_keys_id_seq := attribute_keys_id_seq db;
     attributes_id_seq := attributes_id_seq db |}.

(** The error of a failed cast, with the message of PostgreSQL. *)
Definition invalid_numeric (v : string) : JsError :=
  Error ("invalid input syntax for type numeric: " +:+ quoted v).

Section Statements.

(** The reading of a string as a number by PostgreSQL's [::numeric]
    cast ([None]: the cast raises) and by JavaScript's [Number]
    ([None]: NaN, which JSON-serialises to null). Numbers are read on a
    fixed scale, as integers. *)
Context (pg_numeric js_number : string -> option Z).

(** [UPDATE attribute_keys SET info = CASE WHEN kind = 'number' THEN ...
     END WHERE collection_id, key RETURNING id]. The value stands in the
    statement as a literal under the cast, ['<value>'::numeric], which
    PostgreSQL converts when it analyses the statement: a value that is
    no numeric makes the statement raise whatever the rows, also when no
    row has the key. A CASE without ELSE yields NULL for the rows whose
    kind is not number. *)
Definition update_attribute_key (c k v : string) (db : DB)
  : (JsError + option positive) * DB :=
  match pg_numeric v with
  | None => (inl (invalid_numeric v), db)
  | Some n =>
      match attribute_keys db !! (c, k) with
      | None => (inr None, db)
      | Some r =>
          match ak_kind r with
          | KNumber =>
              (inr (Some (ak_id r)),
               with_attribute_keys db
                 (<[(c, k) := set_info r (widen n (ak_info r))]> (attribute_keys db)))
          | _ =>
              (inr (Some (ak_id r)),
               with_attribute_keys db (<[(c, k) := set_info r None]> (attribute_keys db)))
          end
      end
  end.

(** [info = { min_range: Number(value), max_range: Number(value) }]
    for kind number, [null] otherwise; the object goes into the column as
    JSON, its two numbers as JSON numbers, a NaN as null. *)
Definition new_key_info (a : Attribute) : option (option Bound * option Bound) :=
  match kind a with
  | KNumber => Some (JNumber <$> js_number (value a), JNumber <$> js_number (value a))
  | _ => None
  end.

(** [rank || null] *)
Definition rank_or_null (r : option Z) : option Z :=
  match r with
  | Some 0 => None
  | _ => r
  end.

(** [INSERT INTO attribute_keys (...) VALUES (...) ON CONFLICT DO NOTHING
     RETURNING id]; the id is drawn from the sequence before the
    conflict is detected. *)
Definition insert_attribute_key (c : string) (a : Attribute) (db : DB)
  : option positive * DB :=
  let id := attribute_keys_id_seq db in
  match attribute_keys db !! (c, key a) with
  | Some _ =>
      (None,
       {| tokens := tokens db;
          attribute_keys := attribute_keys db;
          attributes_table := attributes_table db;
          token_attributes := token_attributes db;
          attribute_keys_id_seq := Pos.succ id;
          attributes_id_seq := attributes_id_seq db |})
  | None =>
      (Some id,
       {| tokens := tokens db;
          attribute_keys :=
            <[(c, key a) := {| ak_id := id; ak_kind := kind a;
                               ak_rank := rank_or_null (rank a);
                               ak_info := new_key_info a;
                               ak_attribute_count := 0 |}]> (attribute_keys db);
          attributes_table := attributes_table db;
          token_attributes := token_attributes db;
          attribute_keys_id_seq := Pos.succ id;
          attributes_id_seq := attributes_id_seq db |})
  end.

End Statements.

(** [SELECT id FROM attributes WHERE attribute_key_id, value] *)
Definition select_attribute (kid : positive) (v : string) (db : DB) : option positive :=
  a_id <$> attributes_table db !! (kid, v).

Definition has_key_id (kid : positive) (m : gmap (string * string) AttributeKeyRow) : Prop :=
  map_Exists (fun _ r => ak_id r = kid) m.

#[global] Instance has_key_id_dec kid m : Decision (has_key_id kid m).
Proof. unfold has_key_id. apply _. Defined.

(** [WITH x AS (INSERT INTO attributes ... ON CONFLICT DO NOTHING
     RETURNING id)
     UPDATE attribute_keys SET attribute_count = attribute_count
       + (SELECT COUNT( * ) FROM x) WHERE id = $/attributeKeyId/
     RETURNING (SELECT x.id FROM x), attribute_count].
    The result is the returned row's first column; there is no returned
    row when no key row has the id. *)
Definition insert_attribute (kid : positive) (c : string) (a : Attribute) (now : Z)
    (db : DB) : option positive * DB :=
  let id := attributes_id_seq db in
  let x : option positive :=
    match attributes_table db !! (kid, value a) with
    | Some _ => None
    | None => Some id
    end in
  let count : Z := match x with Some _ => 1 | None => 0 end in
  (if bool_decide (has_key_id kid (attribute_keys db)) then x else None,
   {| tokens := tokens db;
      attribute_keys :=
        (fun r => if bool_decide (ak_id r = kid) then add_attribute_count count r else r)
          <$> attribute_keys db;
      attributes_table :=
        match x with
        | Some _ =>
            <[(kid, value a) := {| a_id := id;
                                   a_sell_updated_at := now;
                                   a_buy_updated_at := now;
                                   a_collection_id := c;
                                   a_kind := kind a;
                                   a_key := key a;
                                   a_token_count := 0;
                                   a_sample_images := None |}]> (attributes_table db)
        | None => attributes_table db
        end;
      token_attributes := token_attributes db;
      attribute_keys_id_seq := attribute_keys_id_seq db;
      attributes_id_seq := Pos.succ id |}).

(** *** Sample images, with SQL's three-valued conditions *)

(** [array_length(a, 1)]: NULL for NULL and for the empty array. *)
Definition array_length (s : option (list string)) : option nat :=
  match s with
  | None | Some [] => None
  | Some l => Some (length l)
  end.

(** [array_position(a, x) IS NULL] *)
Definition array_position_is_null (x : string) (s : option (list string)) : bool :=
  match s with
  | None => true
  | Some l => bool_decide (x ∉ l)
  end.

(** [array_prepend(x, a)] *)
Definition array_prepend (x : string) (s : option (list string)) : option (list string) :=
  Some (x :: default [] s).

(** [array_remove(a, a[4])]: every element equal to the fourth one goes. *)
Definition remove_fourth (s : option (list string)) : option (list string) :=
  match s with
  | None => None
  | Some l =>
      match l !! 3%nat with
      | Some y => Some (filter (fun z => z ≠ y) l)
      | None => Some l
      end
  end.

Definition sql_or (a b : option bool) : option bool :=
  match a, b with
  | Some true, _ | _, Some true => Some true
  | Some false, Some false => Some false
  | _, _ => None
  end.

Definition sql_and (a b : option bool) : option bool :=
  match a, b with
  | Some false, _ | _, Some false => Some false
  | Some true, Some true => Some true
  | _, _ => None
  end.

(** The [CASE] of [sampleImageUpdate]; a WHEN arm is taken when its
    condition is true, not when it is NULL. *)
Definition sample_images_update (image : string) (s : option (list string))
  : option (list string) :=
  let absent := Some (array_position_is_null image s) in
  let len := array_length s in
  match sql_and (sql_or (Some (bool_decide (s = None)))
                        ((fun n => bool_decide (n < 4)%nat) <$> len)) absent with
  | Some true => array_prepend image s
  | _ =>
      match sql_and ((fun n => bool_decide (4 <= n)%nat) <$> len) absent with
      | Some true => array_prepend image (remove_fourth s)
      | _ => s
      end
  end.

(** The SET list of the UPDATE of [attributes]; the sample images are
    touched only when [imageUrl] is truthy. *)
Definition link_attribute (count : Z) (image : option string) (r : AttributeRow)
  : AttributeRow :=
  {| a_id := a_id r;
     a_sell_updated_at := a_sell_updated_at r;
     a_buy_updated_at := a_buy_updated_at r;
     a_collection_id := a_collection_id r;
     a_kind := a_kind r;
     a_key := a_key r;
     a_token_count := a_token_count r + count;
     a_sample_images :=
       match or_null image with
       | Some i => sample_images_update i (a_sample_images r)
       | None => a_sample_images r
       end |}.

(** [WITH x AS (INSERT INTO token_attributes ... ON CONFLICT DO NOTHING
     RETURNING 1)
     UPDATE attributes SET token_count = token_count
       + (SELECT COUNT( * ) FROM x) ${sampleImageUpdate}
     WHERE id = $/attributeId/] *)
Definition insert_token_attribute (job : TokenMetadataInfo) (aid : positive)
    (a : Attribute) (db : DB) : unit * DB :=
  let k := (contract job, tokenId job, aid) in
  let inserted := bool_decide (token_attributes db !! k = None) in
  let count : Z := if inserted then 1 else 0 in
  ((),
   {| tokens := tokens db;
      attribute_keys := attribute_keys db;
      attributes_table :=
        (fun r => if bool_decide (a_id r = aid)
                  then link_attribute count (imageUrl job) r else r)
          <$> attributes_table db;
      token_attributes :=
        if inserted
        then <[k := {| ta_collection_id := collection job;
                       ta_key := key a;
                       ta_value := value a |}]> (token_attributes db)
        else token_attributes db;
      attribute_keys_id_seq := attribute_keys_id_seq db;
      attributes_id_seq := attributes_id_seq db |}).

(** [UPDATE tokens SET metadata_indexed = TRUE WHERE contract, token_id
     AND metadata_indexed IS DISTINCT FROM TRUE] *)
Definition mark_indexed (job : TokenMetadataInfo) (db : DB) : unit * DB :=
  ((),
   {| tokens :=
        match tokens db !! (contract job, tokenId job) with
        | Some t =>
            if is_distinct_from (t_metadata_indexed t) (Some true)
            then <[(contract job, tokenId job) :=
                     {| t_name := t_name t;
                        t_description := t_description t;
                        t_image := t_image t;
                        t_media := t_media t;
                        t_attributes := t_attributes t;
                        t_metadata_indexed := Some true;
                        t_updated_at := t_updated_at t |}]> (tokens db)
            else tokens db
        | None => tokens db
        end;
      attribute_keys := attribute_keys db;
      attributes_table := attributes_table db;
      token_attributes := token_attributes db;
      attribute_keys_id_seq := attribute_keys_id_seq db;
      attributes_id_seq := attributes_id_seq db |}).

(** *** The worker

    The job awaits one statement after the other; between two of them
    the other workers of the pool may run statements of their own. A world
    holds the database, the statements of the others that are still to
    land (one batch before each statement of this job), the statements
    this job has issued, and the recount jobs it has scheduled. *)

Inductive Stmt :=
  | UpdateToken
  | DeleteTokenAttributes
  | UpdateAttributeKey
  | InsertAttributeKey
  | SelectAttribute
  | InsertAttribute
  | InsertTokenAttribute
  | MarkIndexed.

#[global] Instance Stmt_eq_dec : EqDecision Stmt.
Proof. solve_decision. Defined.

(** What [resyncAttributeKeyCounts] and [resyncAttributeValueCounts]
    are asked to recount. *)
Inductive Recount :=
  | KeyCount (c k : string)
  | ValueCount (c k v : string).

Record World := {
  db : DB;
  concurrent : list (DB -> DB);
  trace : list Stmt;
  recounts : list Recount
}.

(** An async function body: a result or a thrown error, and the world
    it leaves. Nothing is rolled back when it throws. *)
Definition M (A : Type) : Type := World -> (JsError + A) * World.

#[global] Instance M_ret : MRet M := fun A x w => (inr x, w).

#[global] Instance M_bind : MBind M := fun A B f m w =>
  match m w with
  | (inr x, w') => f x w'
  | (inl e, w') => (inl e, w')
  end.

Definition throw {A} (e : JsError) : M A := fun w => (inl e, w).

(** The database a statement meets: the others' pending batch has landed. *)
Definition arrive (w : World) : DB :=
  match concurrent w with
  | g :: _ => g (db w)
  | [] => db w
  end.

(** [await idb.oneOrNone(...)] and the like, for a statement that may
    raise. *)
Definition exec {A} (s : Stmt) (f : DB -> (JsError + A) * DB) : M A := fun w =>
  ((f (arrive w)).1,
   {| db := (f (arrive w)).2;
      concurrent := tail (concurrent w);
      trace := trace w ++ [s];
      recounts := recounts w |}).

Definition query {A} (s : Stmt) (f : DB -> A * DB) : M A :=
  exec s (fun d => (inr (f d).1, (f d).2)).

(** [_.forEach(attributesToRefresh, ...)] *)
Definition schedule (c : string) (removed : list (string * string)) : M unit := fun w =>
  (inr (),
   {| db := db w;
      concurrent := concurrent w;
      trace := trace w;
      recounts := recounts w
        ++ mjoin (map (fun kv => [KeyCount c kv.1; ValueCount c kv.1 kv.2]) removed) |}).

Fixpoint for_each {A} (f : A -> M unit) (l : list A) : M unit :=
  match l with
  | [] => mret ()
  | x :: l' => f x ;; for_each f l'
  end.

Section Worker.

Context (pg_numeric js_number : string -> option Z).

(** The conditional update, then the conflict-ignoring insert when the
    update returned no id. *)
Definition resolve_attribute_key (job : TokenMetadataInfo) (a : Attribute)
  : M (option positive) :=
  attributeKeyResult ←
    exec UpdateAttributeKey
      (update_attribute_key pg_numeric (collection job) (key a) (value a));
  match attributeKeyResult with
  | Some i => mret (Some i)
  | None =>
      query InsertAttributeKey (insert_attribute_key js_number (collection job) a)
  end.

(** The select, then the conflict-ignoring insert when it found nothing. *)
Definition resolve_attribute (job : TokenMetadataInfo) (now : Z) (kid : positive)
    (a : Attribute) : M (option positive) :=
  attributeResult ←
    query SelectAttribute (fun d => (select_attribute kid (value a) d, d));
  match attributeResult with
  | Some i => mret (Some i)
  | None => query InsertAttribute (insert_attribute kid (collection job) a now)
  end.

(** The body of [for (const { key, value, kind, rank } of attributes)]. *)
Definition index_attribute (job : TokenMetadataInfo) (now : Z) (a : Attribute)
  : M unit :=
  attributeKeyResult ← resolve_attribute_key job a;
  match attributeKeyResult with
  | None => throw (Error ("Could not fetch/save attribute key " +:+ quoted (key a)))
  | Some kid =>
      attributeResult ← resolve_attribute job now kid a;
      match attributeResult with
      | None => throw (Error ("Could not fetch/save attribute " +:+ quoted (value a)))
      | Some aid => query InsertTokenAttribute (insert_token_attribute job aid a)
      end
  end.

(** The job handler. The [catch] logs and rethrows, so an error leaves
    as it was thrown. *)
Definition worker (job : TokenMetadataInfo) (now : Z) : M unit :=
  result ← query UpdateToken (update_token job now);
  match result with
  | None => mret ()
  | Some _ =>
      attributesToRefresh ←
        query DeleteTokenAttributes
          (delete_token_attributes (contract job) (tokenId job));
      schedule (collection job) attributesToRefresh;;
      for_each (index_attribute job now) (attributes job);;
      query MarkIndexed (mark_indexed job)
  end.

End Worker.

(** The insert of an attribute by another worker of the queue. The
    statement carries the id that worker has read from the key row
    before. No statement removes a key row or gives it another id, so
    when the statement lands the id it carries is the one of the row that
    is there: the statement is given by the row's key. *)
Definition their_insert_attribute (c : string) (a : Attribute) (now : Z) (d : DB) : DB :=
  match attribute_keys d !! (c, key a) with
  | Some kr => (insert_attribute (ak_id kr) c a now d).2
  | None => d
  end.

(** A world in which this job runs alone. *)
Definition alone (d : DB) : World :=
  {| db := d; concurrent := []; trace := []; recounts := [] |}.

End MetadataIndex.

(** ** The bid-event feed, [getBidEventsV1Options.handler] *)

Module BidEvents.

Inductive SortDirection := asc | desc.

#[global] Instance SortDirection_eq_dec : EqDecision SortDirection.
Proof. solve_decision. Defined.

(** A row of [bid_events]. Timestamps are epoch seconds on a fixed decimal
    scale (microseconds), so that they are integers. *)
Record BidEventRow := {
  id : Z;
  kind : string;
  status : string;
  contract : string;
  token_set_id : string;
  order_id : string;
  created_at : Z
}.

#[global] Instance BidEventRow_eq_dec : EqDecision BidEventRow.
Proof. solve_decision. Defined.

(** [request.query] after validation. *)
Record Query := {
  q_contract : option string;
  startTimestamp : option Z;
  endTimestamp : option Z;
  sortDirection : SortDirection;
  continuation : option string;
  limit : nat
}.

Definition with_continuation (q : Query) (c : option string) : Query :=
  {| q_contract := q_contract q;
     startTimestamp := startTimestamp q;
     endTimestamp := endTimestamp q;
     sortDirection := sortDirection q;
     continuation := c;
     limit := limit q |}.

(** [if (!query.startTimestamp) query.startTimestamp = 0] and the same for
    the end with 9999999999 seconds; a zero is falsy as well. *)
Definition start_of (q : Query) : Z :=
  match startTimestamp q with
  | Some t => t
  | None => 0
  end.

Definition end_of (q : Query) : Z :=
  match endTimestamp q with
  | Some 0 | None => 9999999999000000
  | Some t => t
  end.

(** The two time conditions and the optional contract condition. *)
Definition filters (q : Query) (e : BidEventRow) : bool :=
  bool_decide (start_of q <= created_at e)
  && bool_decide (created_at e <= end_of q)
  && match q_contract q with
     | Some c => if truthy_string c then bool_decide (contract e = c) else true
     | None => true
     end.

(** SQL row comparison [(a1, a2) < (b1, b2)]. *)
Definition row_lt (a b : Z * Z) : Prop :=
  a.1 < b.1 \/ (a.1 = b.1 /\ a.2 < b.2).

#[global] Instance row_lt_dec a b : Decision (row_lt a b).
Proof. unfold row_lt. apply _. Defined.

Definition sort_key (e : BidEventRow) : Z * Z := (created_at e, id e).

(** [(bid_events.created_at, bid_events.id) > (cursor)] for asc,
    [<] for desc. *)
Definition after_cursor (d : SortDirection) (cursor : Z * Z) (e : BidEventRow) : bool :=
  match d with
  | asc => bool_decide (row_lt cursor (sort_key e))
  | desc => bool_decide (row_lt (sort_key e) cursor)
  end.

(** [ORDER BY created_at d, id d] *)
Definition sorted_before (d : SortDirection) (a b : BidEventRow) : Prop :=
  match d with
  | asc => ~ row_lt (sort_key b) (sort_key a)
  | desc => ~ row_lt (sort_key a) (sort_key b)
  end.

#[global] Instance sorted_before_dec d a b : Decision (sorted_before d a b).
Proof. destruct d; simpl; apply _. Defined.

Record Response := {
  events : list BidEventRow;
  r_continuation : option string
}.

Section Handler.

(** The continuation codec of [@/common/utils]:
    [buildContinuation(created_at + "_" + id)] on the way out,
    [splitContinuation] and the reading of its two parts by the query,
    [to_timestamp($/createdAt/)] and [$/id/], on the way in. Neither the
    handler nor the query guards the parts: a token that does not split
    into a timestamp and an id makes the split or the query raise, and
    the reading is then the error raised. *)
Context (buildContinuation : Z -> Z -> string)
        (splitContinuation : string -> JsError + Z * Z).

(** What makes the request fail before any row comes back: a
    continuation that is there and cannot be read. *)
Definition cursor_error (q : Query) : option JsError :=
  match continuation q with
  | Some c =>
      if truthy_string c
      then match splitContinuation c with
           | inl e => Some e
           | inr _ => None
           end
      else None
  | None => None
  end.

(** The whole WHERE clause; with a continuation that cannot be read the
    query returns no row. *)
Definition conditions (q : Query) (e : BidEventRow) : bool :=
  filters q e
  && match continuation q with
     | Some c =>
         if truthy_string c
         then match splitContinuation c with
              | inr cursor => after_cursor (sortDirection q) cursor e
              | inl _ => false
              end
         else true
     | None => true
     end.

(** [redb.manyOrNone(baseQuery, query)] *)
Definition rawResult (log : list BidEventRow) (q : Query) : list BidEventRow :=
  take (limit q)
    (merge_sort (sorted_before (sortDirection q)) (filter (fun e => conditions q e) log)).

(** The handler; the response rows are the raw rows, mapped one to one.
    Reading the last row of an empty full page throws; the [catch] logs
    and rethrows, so an error leaves as it was raised. *)
Definition handler (log : list BidEventRow) (q : Query) : JsError + Response :=
  match cursor_error q with
  | Some e => inl e
  | None =>
      let rows := rawResult log q in
      if bool_decide (length rows = limit q)
      then match last rows with
           | Some r =>
               inr {| events := rows;
                      r_continuation := Some (buildContinuation (created_at r) (id r)) |}
           | None =>
               inl (TypeError "Cannot read properties of undefined (reading 'created_at')")
           end
      else inr {| events := rows; r_continuation := None |}
  end.

(** A reader of the feed: request a page, then follow the continuation
    it carries until a page carries none. [None] when the fuel runs out
    or a request fails. *)
Fixpoint follow (fuel : nat) (log : list BidEventRow) (q : Query)
    (c : option string) : option (list Response) :=
  match fuel with
  | O => None
  | S n =>
      match handler log (with_continuation q c) with
      | inl _ => None
      | inr r =>
          match r_continuation r with
          | None => Some [r]
          | Some c' => (fun rest => r :: rest) <$> follow n log q (Some c')
          end
      end
  end.

End Handler.

End BidEvents.

(** ** [Collections]: the contract-wide recalculations and the listings *)

Module ContractRevalidation.

Import Collections.

(** A job of [recalculateContractFloorSell] and [recalculateContractTopBuy]
    handed to [orderUpdatesById.addToQueue]. *)
Record TokenSetJob := {
  job_context : string;
  tokenSetId : string;
  side : string;
  job_trigger_kind : string
}.

Definition token_cap : nat := Pos.to_nat 10000.

Section Contract.

(** [toBuffer] of [@/common/utils] is not among the sources: it turns the
    hex text of an address into the bytes the [bytea] column
    [tokens.contract] holds, so that two spellings of one address (in
    upper or lower case) select the same rows. *)
Context (toBuffer : string -> string).

(** [SELECT tokens.token_id FROM tokens WHERE tokens.contract = $/contract/
     LIMIT 10000], with [contract: toBuffer(contract)]. *)
Definition contract_token_ids (db : DB) (contract : string) : list string :=
  take token_cap
    (t_token_id <$> filter (fun t => t_contract t = toBuffer contract) (tokens db)).

(** [result.map(({ token_id }) => ...)]; [manyOrNone] resolves to an array,
    which is truthy also when it is empty. The token set id is built from
    the argument as it was given, not from the bytes. *)
Definition token_jobs (side_ : string) (contract : string) (currentTime : Z)
    (result : list string) : list TokenSetJob :=
  (fun token_id =>
     {| job_context :=
          "revalidate-" +:+ side_ +:+ "-"
            +:+ ("token:" +:+ contract +:+ ":" +:+ token_id)
            +:+ "-" +:+ pretty currentTime;
        tokenSetId := "token:" +:+ contract +:+ ":" +:+ token_id;
        side := side_;
        job_trigger_kind := "revalidation" |}) <$> result.

Definition recalculateContractFloorSell (db : DB) (now : Z) (contract : string)
  : list TokenSetJob :=
  token_jobs "sell" contract now (contract_token_ids db contract).

Definition recalculateContractTopBuy (db : DB) (now : Z) (contract : string)
  : list TokenSetJob :=
  token_jobs "buy" contract now (contract_token_ids db contract).

End Contract.

End ContractRevalidation.

Module CollectionListings.

(** The columns of [collections] the two listings filter and order by; the
    rows are returned as they are read, one entity per row. *)
Record CollectionsEntityParams := {
  id : string;
  minted_timestamp : option Z;
  day1_volume : option Z
}.

#[global] Instance CollectionsEntityParams_eq_dec : EqDecision CollectionsEntityParams.
Proof. solve_decision. Defined.

(** [minted_timestamp > from AND minted_timestamp < to]; a NULL timestamp
    satisfies neither. *)
Definition minted_between (from to : Z) (c : CollectionsEntityParams) : bool :=
  match minted_timestamp c with
  | Some t => bool_decide (from < t) && bool_decide (t < to)
  | None => false
  end.

(** [ORDER BY minted_timestamp ASC] *)
Definition minted_order (a b : CollectionsEntityParams) : Prop :=
  le_nulls_last (minted_timestamp a) (minted_timestamp b).

(** [ORDER BY day1_volume DESC]: the reverse of ascending, so NULLs come
    first. *)
Definition volume_order (a b : CollectionsEntityParams) : Prop :=
  le_nulls_last (day1_volume b) (day1_volume a).

#[global] Instance minted_order_dec a b : Decision (minted_order a b).
Proof. unfold minted_order. apply _. Defined.
#[global] Instance volume_order_dec a b : Decision (volume_order a b).
Proof. unfold volume_order. apply _. Defined.

Definition getCollectionsMintedBetween (collections : list CollectionsEntityParams)
    (from to : Z) (limit : nat) : list CollectionsEntityParams :=
  take limit (merge_sort minted_order (filter (fun c => minted_between from to c) collections)).

Definition getTopCollectionsByVolume (collections : list CollectionsEntityParams)
    (limit : nat) : list CollectionsEntityParams :=
  take limit (merge_sort volume_order collections).

End CollectionListings.

(** * Concrete databases and jobs used by the examples *)

Module CollectionsFixtures.

Import Collections.

(** A collection with one token and one sell order on it that is filled,
    so no order qualifies. *)
Definition filled_order : OrderRow :=
  {| o_id := "0xa1"; o_token_set_id := "token:0xc0:1"; o_side := "sell";
     o_fillability_status := "filled"; o_approval_status := "approved";
     o_taker := None; o_value := 5; o_fee_bps := 0;
     o_source_id_int := None; o_valid_between := None |}.

Definition quiet_db : DB :=
  {| orders := [filled_order];
     token_sets_tokens :=
       [ {| tst_token_set_id := "token:0xc0:1"; tst_contract := "0xc0";
            tst_token_id := "1" |} ];
     token_sets :=
       [ {| ts_id := "token:0xc0:1"; ts_collection_id := Some "0xc0";
            ts_attribute_id := None |} ];
     tokens :=
       [ {| t_contract := "0xc0"; t_token_id := "1"; t_collection_id := Some "0xc0";
            t_floor_sell_id := None; t_floor_sell_value := None;
            t_floor_sell_maker := None |} ];
     collections :=
       [ {| c_id := "0xc0"; c_floor_sell_id := Some "0xa0";
            c_floor_sell_value := Some 3; c_floor_sell_maker := Some "0xm";
            c_floor_sell_source_id_int := Some 1;
            c_floor_sell_valid_between := Some (0, 10); c_updated_at := 100 |} ] |}.

(** The collection's only token is listed by order 0xa0 at 3, and the
    collection row caches that very floor. *)
Definition steady_db : DB :=
  {| orders :=
       [ {| o_id := "0xa0"; o_token_set_id := "token:0xc0:1"; o_side := "sell";
            o_fillability_status := "fillable"; o_approval_status := "approved";
            o_taker := None; o_value := 3; o_fee_bps := 0;
            o_source_id_int := Some 1; o_valid_between := Some (0, 10) |} ];
     token_sets_tokens := [];
     token_sets := [];
     tokens :=
       [ {| t_contract := "0xc0"; t_token_id := "1"; t_collection_id := Some "0xc0";
            t_floor_sell_id := Some "0xa0"; t_floor_sell_value := Some 3;
            t_floor_sell_maker := Some "0xm" |} ];
     collections :=
       [ {| c_id := "0xc0"; c_floor_sell_id := Some "0xa0";
            c_floor_sell_value := Some 3; c_floor_sell_maker := Some "0xm";
            c_floor_sell_source_id_int := Some 1;
            c_floor_sell_valid_between := Some (0, 10); c_updated_at := 100 |} ] |}.

Definition steady_floor : FloorRow :=
  {| x_floor_sell_id := Some "0xa0"; x_floor_sell_value := Some 3;
     x_floor_sell_maker := Some "0xm"; x_source_id_int := Some 1;
     x_valid_between := Some (0, 10) |}.

End CollectionsFixtures.

Module Decimal.

(** A reading of unsigned decimal integers, as the continuation codec
    reads its two parts. *)
Fixpoint digits (s : string) (acc : Z) : option Z :=
  match s with
  | EmptyString => Some acc
  | String ch s' =>
      let n := Z.of_nat (nat_of_ascii ch) in
      if bool_decide (48 <= n <= 57) then digits s' (10 * acc + (n - 48)) else None
  end.

Definition decimal (s : string) : option Z :=
  match s with
  | EmptyString => None
  | _ => digits s 0
  end.

(** The [::numeric] cast on an optionally signed decimal integer; any
    other string is taken for one the cast raises on. *)
Definition numeric (s : string) : option Z :=
  match s with
  | String "-"%char s' => Z.opp <$> decimal s'
  | _ => decimal s
  end.

(** The integer an IEEE double holds for [n]: [n] itself up to 53 bits,
    beyond that the nearest multiple of the unit in the last place, ties
    to the even one. *)
Definition to_double (n : Z) : Z :=
  let a := Z.abs n in
  let k := Z.log2 a - 52 in
  if k <=? 0 then n
  else
    let q := Z.shiftr a k in
    let r := a - Z.shiftl q k in
    let half := Z.shiftl 1 (k - 1) in
    let q' := if (half <? r) || ((r =? half) && Z.odd q) then q + 1 else q in
    Z.sgn n * Z.shiftl q' k.

(** JavaScript's [Number] on the same strings: the double nearest to the
    integer written. *)
Definition number (s : string) : option Z := to_double <$> numeric s.

End Decimal.

Module IndexFixtures.

Import MetadataIndex Decimal.

Definition level (v : string) : Attribute :=
  {| key := "Level"; value := v; kind := KNumber; rank := None |}.

Definition level_job (v : string) : TokenMetadataInfo :=
  {| collection := "0xc0"; contract := "0xc0"; tokenId := "1";
     name := Some "One"; description := None;
     imageUrl := Some "ipfs://one"; mediaUrl := None;
     attributes := [level v] |}.

Definition blank_token : TokenRow :=
  {| t_name := None; t_description := None; t_image := None; t_media := None;
     t_attributes := None; t_metadata_indexed := None; t_updated_at := 0 |}.

Definition empty_db : DB :=
  {| tokens := ∅; attribute_keys := ∅; attributes_table := ∅;
     token_attributes := ∅; attribute_keys_id_seq := 1; attributes_id_seq := 1 |}.

(** Token 1 of the collection is known, nothing is indexed yet. *)
Definition one_token_db : DB :=
  {| tokens := {[ ("0xc0", "1") := blank_token ]};
     attribute_keys := ∅; attributes_table := ∅;
     token_attributes := ∅; attribute_keys_id_seq := 1; attributes_id_seq := 1 |}.

(** The job for token 1 is about to resolve the key Level while the job of
    another token of the collection, which sights Level as well, gets its
    insert in between this job's update and this job's insert. *)
Definition race_world : World :=
  {| db := one_token_db;
     concurrent := [ (fun d => d);
                     (fun d => (insert_attribute_key number "0xc0" (level "9") d).2) ];
     trace := [];
     recounts := [] |}.

(** The same race met by the whole job: the other insert lands before this
    job's fourth statement. *)
Definition race_world_job : World :=
  {| db := one_token_db;
     concurrent := [ (fun d => d); (fun d => d); (fun d => d);
                     (fun d => (insert_attribute_key number "0xc0" (level "9") d).2) ];
     trace := [];
     recounts := [] |}.

(** Two jobs first-sight the value 7 of Level: the other job's attribute
    insert lands between this job's select and this job's insert. *)
Definition attribute_race_world : World :=
  {| db := one_token_db;
     concurrent := [ (fun d => d); (fun d => d); (fun d => d);
                     their_insert_attribute "0xc0" (level "7") 5 ];
     trace := [];
     recounts := [] |}.

Definition blank_attribute : AttributeRow :=
  {| a_id := 1; a_sell_updated_at := 0; a_buy_updated_at := 0;
     a_collection_id := "0xc0"; a_kind := KNumber; a_key := "Level";
     a_token_count := 0; a_sample_images := None |}.

End IndexFixtures.

Module FeedFixtures.

Import BidEvents Decimal.

(** The text before and after the first underscore. *)
Fixpoint cut (s : string) : string * string :=
  match s with
  | EmptyString => (EmptyString, EmptyString)
  | String ch s' =>
      if bool_decide (ch = "_"%char) then (EmptyString, s')
      else (String ch (cut s').1, (cut s').2)
  end.

(** A continuation codec: the two numbers in decimal around an
    underscore. *)
Definition plain_build (c i : Z) : string := pretty c +:+ "_" +:+ pretty i.

Definition plain_split (s : string) : JsError + Z * Z :=
  match decimal (cut s).1, decimal (cut s).2 with
  | Some c, Some i => inr (c, i)
  | _, _ => inl (Error "Invalid continuation string used")
  end.

Definition bid (i t : Z) (c : string) : BidEventRow :=
  {| id := i; kind := "new-order"; status := "active"; contract := c;
     token_set_id := "token:0xc0:1"; order_id := "0xa0"; created_at := t |}.

(** Five events, three of them at the same instant. *)
Definition small_log : list BidEventRow :=
  [bid 4 200 "0xc0"; bid 2 100 "0xc0"; bid 1 100 "0xd0"; bid 5 200 "0xc0";
   bid 3 100 "0xc0"].

Definition by_two (d : SortDirection) : Query :=
  {| q_contract := None; startTimestamp := None; endTimestamp := None;
     sortDirection := d; continuation := None; limit := 2 |}.

End FeedFixtures.


(** * More concrete databases *)

Module MarketFixtures.

Import Collections.

Definition order (i set side_ : string) (v fee : Z) : OrderRow :=
  {| o_id := i; o_token_set_id := set; o_side := side_;
     o_fillability_status := "fillable"; o_approval_status := "approved";
     o_taker := None; o_value := v; o_fee_bps := fee;
     o_source_id_int := Some 1; o_valid_between := Some (0, 10) |}.

(** Two tokens of the collection, each listed once, the cheaper listing
    second in the table; two collection-wide bids. The collection row
    caches a floor that is no longer the lowest. *)
Definition open_db : DB :=
  {| orders :=
       [ order "0xa1" "token:0xc0:1" "sell" 5 0;
         order "0xa2" "token:0xc0:2" "sell" 3 250;
         order "0xb1" "contract:0xc0" "buy" 2 0;
         order "0xb2" "contract:0xc0" "buy" 4 0 ];
     token_sets_tokens :=
       [ {| tst_token_set_id := "token:0xc0:1"; tst_contract := "0xc0";
            tst_token_id := "1" |};
         {| tst_token_set_id := "token:0xc0:2"; tst_contract := "0xc0";
            tst_token_id := "2" |} ];
     token_sets :=
       [ {| ts_id := "contract:0xc0"; ts_collection_id := Some "0xc0";
            ts_attribute_id := None |} ];
     tokens :=
       [ {| t_contract := "0xc0"; t_token_id := "1"; t_collection_id := Some "0xc0";
            t_floor_sell_id := Some "0xa1"; t_floor_sell_value := Some 5;
            t_floor_sell_maker := Some "0xm" |};
         {| t_contract := "0xc0"; t_token_id := "2"; t_collection_id := Some "0xc0";
            t_floor_sell_id := Some "0xa2"; t_floor_sell_value := Some 3;
            t_floor_sell_maker := Some "0xn" |} ];
     collections :=
       [ {| c_id := "0xc0"; c_floor_sell_id := Some "0xa1";
            c_floor_sell_value := Some 5; c_floor_sell_maker := Some "0xm";
            c_floor_sell_source_id_int := Some 1;
            c_floor_sell_valid_between := Some (0, 10); c_updated_at := 100 |} ] |}.

(** Bytes are written here as lower-case hex text, so [toBuffer] turns
    every hex digit to lower case. *)
Definition lower (ch : ascii) : ascii :=
  let n := nat_of_ascii ch in
  if bool_decide (65 <= n <= 70)%nat then ascii_of_nat (n + 32) else ch.

Fixpoint hex_bytes (s : string) : string :=
  match s with
  | EmptyString => EmptyString
  | String ch s' => String (lower ch) (hex_bytes s')
  end.

End MarketFixtures.

Module MoreFeedFixtures.

Import BidEvents.

(** A request whose page holds the whole small log. *)
Definition whole : Query :=
  {| q_contract := None; startTimestamp := None; endTimestamp := None;
     sortDirection := desc; continuation := None; limit := 10 |}.

End MoreFeedFixtures.

Module MoreIndexFixtures.

Import MetadataIndex Decimal IndexFixtures.

(** The database once token 1 has been indexed with Level 7: the key Level
    is there, of kind number. *)
Definition leveled_db : DB :=
  db (worker numeric number (level_job "7") 5 (alone one_token_db)).2.

(** Tokens 1 and 2 of the collection are known, and token 1 has been
    indexed with Level 7. *)
Definition two_token_db : DB :=
  {| tokens := {[ ("0xc0", "1") := blank_token; ("0xc0", "2") := blank_token ]};
     attribute_keys := ∅; attributes_table := ∅;
     token_attributes := ∅; attribute_keys_id_seq := 1; attributes_id_seq := 1 |}.

Definition leveled_two_db : DB :=
  db (worker numeric number (level_job "7") 5 (alone two_token_db)).2.

End MoreIndexFixtures.
(** * The worker when it runs alone, and what a finished job leaves *)

Module IndexReplay.

Import MetadataIndex.

(** The row of [token_attributes] the link statement inserts, unless the
    token has the link already. *)
Definition link_insert (job : TokenMetadataInfo) (aid : positive) (a : Attribute)
    (m : gmap (string * string * positive) TokenAttributeRow)
  : gmap (string * string * positive) TokenAttributeRow :=
  if bool_decide (m !! (contract job, tokenId job, aid) = None)
  then <[(contract job, tokenId job, aid) :=
           {| ta_collection_id := collection job;
              ta_key := key a;
              ta_value := value a |}]> m
  else m.

(** A bound as the update writes it back, and a range and a key row with
    their bounds so written: what is left of [info] when only the numbers
    count. *)
Definition text_bound (b : Bound) : Bound := JString (bound_numeric b).

Definition texted (info : option (option Bound * option Bound))
  : option (option Bound * option Bound) :=
  match info with
  | Some (lo, hi) => Some (text_bound <$> lo, text_bound <$> hi)
  | None => None
  end.

Definition as_text (r : AttributeKeyRow) : AttributeKeyRow :=
  set_info r (texted (ak_info r)).

(** The row the update of [attribute_keys] writes back for a value the
    cast reads as [n]. *)
Definition updated_key (n : Z) (r : AttributeKeyRow) : AttributeKeyRow :=
  set_info r match ak_kind r with
             | KNumber => widen n (ak_info r)
             | _ => None
             end.

(** A key row without its [info]. *)
Definition erase_info (r : AttributeKeyRow) : AttributeKeyRow := set_info r None.

(** An attribute row without its token count. *)
Definition erase_count (r : AttributeRow) : AttributeRow :=
  {| a_id := a_id r;
     a_sell_updated_at := a_sell_updated_at r;
     a_buy_updated_at := a_buy_updated_at r;
     a_collection_id := a_collection_id r;
     a_kind := a_kind r;
     a_key := a_key r;
     a_token_count := 0;
     a_sample_images := a_sample_images r |}.

(** A computation started in [w] yields [r] and leaves database [d], with
    no statement of another worker pending. *)
Definition steps_to {A} (m : M A) (w : World) (r : JsError + A) (d : DB) : Prop :=
  exists w', m w = (r, w') /\ db w' = d /\ concurrent w' = [].

Section Alone.

Context (pg_numeric js_number : string -> option Z).

(** [index_attribute] from the select on, as a function of the database. *)
Definition attach (job : TokenMetadataInfo) (now : Z) (kid : positive) (a : Attribute)
    (d : DB) : (JsError + unit) * DB :=
  match select_attribute kid (value a) d with
  | Some aid => (inr (), (insert_token_attribute job aid a d).2)
  | None =>
      match (insert_attribute kid (collection job) a now d).1 with
      | Some aid =>
          (inr (),
           (insert_token_attribute job aid a
              (insert_attribute kid (collection job) a now d).2).2)
      | None =>
          (inl (Error ("Could not fetch/save attribute " +:+ quoted (value a))),
           (insert_attribute kid (collection job) a now d).2)
      end
  end.

(** [index_attribute] with no statement of another worker in between. *)
Definition index_attribute_alone (job : TokenMetadataInfo) (now : Z) (a : Attribute)
    (d : DB) : (JsError + unit) * DB :=
  match update_attribute_key pg_numeric (collection job) (key a) (value a) d with
  | (inl e, d1) => (inl e, d1)
  | (inr (Some kid), d1) => attach job now kid a d1
  | (inr None, d1) =>
      match (insert_attribute_key js_number (collection job) a d1).1 with
      | Some kid =>
          attach job now kid a (insert_attribute_key js_number (collection job) a d1).2
      | None =>
          (inl (Error ("Could not fetch/save attribute key " +:+ quoted (key a))),
           (insert_attribute_key js_number (collection job) a d1).2)
      end
  end.

Fixpoint index_all_alone (job : TokenMetadataInfo) (now : Z) (l : list Attribute)
    (d : DB) : (JsError + unit) * DB :=
  match l with
  | [] => (inr (), d)
  | a :: l' =>
      match index_attribute_alone job now a d with
      | (inr _, d') => index_all_alone job now l' d'
      | (inl e, d') => (inl e, d')
      end
  end.

(** The job handler with no statement of another worker in between. *)
Definition worker_alone (job : TokenMetadataInfo) (now : Z) (d : DB)
  : (JsError + unit) * DB :=
  match (update_token job now d).1 with
  | None => (inr (), (update_token job now d).2)
  | Some _ =>
      match index_all_alone job now (attributes job)
              (delete_token_attributes (contract job) (tokenId job)
                 (update_token job now d).2).2 with
      | (inr _, d') => (inr (), (mark_indexed job d').2)
      | (inl e, d') => (inl e, d')
      end
  end.

(** The numeric [n] lies within the bounds of [info] that are there. *)
Definition covers (n : Z) (info : option (option Bound * option Bound)) : Prop :=
  match info with
  | Some (lo, hi) =>
      match lo with Some b => bound_numeric b <= n | None => True end
      /\ match hi with Some b => n <= bound_numeric b | None => True end
  | None => True
  end.

(** The key row of attribute [a], if it is there, holds what an update by
    the value of [a] leaves but for the writing of the bounds: a range
    around the value as the cast reads it for a key of kind number, no
    [info] for another kind. *)
Definition covered (job : TokenMetadataInfo) (d : DB) (a : Attribute) : Prop :=
  forall kr,
    attribute_keys d !! (collection job, key a) = Some kr ->
    match ak_kind kr with
    | KNumber => forall n, pg_numeric (value a) = Some n -> covers n (ak_info kr)
    | _ => ak_info kr = None
    end.

(** Linking with the job's image would leave the sample images of [r] as
    they are. *)
Definition image_absorbed (job : TokenMetadataInfo) (r : AttributeRow) : Prop :=
  a_sample_images (link_attribute 0 (imageUrl job) r) = a_sample_images r.

(** Attribute [a] of the job has its key row [kid] and attribute row
    [aid]. *)
Definition resolved (job : TokenMetadataInfo) (d : DB) (a : Attribute)
    (kid aid : positive) : Prop :=
  exists kr ar,
    attribute_keys d !! (collection job, key a) = Some kr
    /\ ak_id kr = kid
    /\ attributes_table d !! (kid, value a) = Some ar
    /\ a_id ar = aid.

(** Every attribute row with id [aid] has absorbed the job's image. *)
Definition images_ok (job : TokenMetadataInfo)
    (m : gmap (positive * string) AttributeRow) (aid : positive) : Prop :=
  forall k r, m !! k = Some r -> a_id r = aid -> image_absorbed job r.

Definition settled (job : TokenMetadataInfo) (d : DB) (a : Attribute)
    (kid aid : positive) : Prop :=
  resolved job d a kid aid /\ images_ok job (attributes_table d) aid.

(** The id of the attribute row of [a], looked up through its key row. *)
Definition attribute_id_of (job : TokenMetadataInfo) (d : DB) (a : Attribute)
  : option positive :=
  kr ← attribute_keys d !! (collection job, key a);
  a_id <$> attributes_table d !! (ak_id kr, value a).

(** The links of the job's attributes, inserted in order. *)
Definition links_of (job : TokenMetadataInfo) (d : DB) (l : list Attribute)
    (base : gmap (string * string * positive) TokenAttributeRow)
  : gmap (string * string * positive) TokenAttributeRow :=
  foldl (fun m a =>
           match attribute_id_of job d a with
           | Some aid => link_insert job aid a m
           | None => m
           end) base l.

(** The cast and [Number] read the values of kind number alike. *)
Definition numeric_values (job : TokenMetadataInfo) : Prop :=
  forall a, a ∈ attributes job -> kind a = KNumber ->
    exists n, pg_numeric (value a) = Some n /\ js_number (value a) = Some n.

End Alone.

End IndexReplay.

(** * The order of the feed, strictly *)

Module FeedOrder.

Import BidEvents.

(** [a] comes before [b] in direction [d], and not at the same place. *)
Definition strictly_before (d : SortDirection) (a b : BidEventRow) : Prop :=
  match d with
  | asc => row_lt (sort_key a) (sort_key b)
  | desc => row_lt (sort_key b) (sort_key a)
  end.

(** Every row the filters let through, in the order of the request. *)
Definition matching (log : list BidEventRow) (q : Query) : list BidEventRow :=
  merge_sort (sorted_before (sortDirection q)) (filter (fun e => filters q e) log).

Section Cursor.

Context (buildContinuation : Z -> Z -> string)
        (splitContinuation : string -> JsError + Z * Z).

(** The continuation built from a row of the log is a truthy string that
    splits back into the row's sort key. *)
Definition codec_round_trips (log : list BidEventRow) : Prop :=
  forall e, e ∈ log ->
    truthy_string (buildContinuation (created_at e) (id e)) = true
    /\ splitContinuation (buildContinuation (created_at e) (id e)) = inr (sort_key e).

(** The cursor condition of the WHERE clause for continuation [c]. *)
Definition cursor_condition (d : SortDirection) (c : option string)
    (e : BidEventRow) : bool :=
  match c with
  | Some s =>
      if truthy_string s
      then match splitContinuation s with
           | inr cursor => after_cursor d cursor e
           | inl _ => false
           end
      else true
  | None => true
  end.

(** The continuation a reader holds after the rows [pre]: none at the
    start, the one of the last row afterwards. *)
Definition cursor_after (pre : list BidEventRow) (c : option string) : Prop :=
  match last pre with
  | None => c = None
  | Some r => c = Some (buildContinuation (created_at r) (id r))
  end.

End Cursor.

End FeedOrder.

(** * What the tables of the attribute index keep true *)

Module IndexConsistency.

Import MetadataIndex.

(** The number of attribute rows of key [kid]. *)
Definition attributes_of (kid : positive)
    (m : gmap (positive * string) AttributeRow) : nat :=
  size (filter (fun kv => kv.1.1 = kid) m).

(** The number of links to attribute [aid]. *)
Definition links_to (aid : positive)
    (m : gmap (string * string * positive) TokenAttributeRow) : nat :=
  size (filter (fun kv => kv.1.2 = aid) m).

(** Every id in the tables came out of its sequence; a key's attribute
    count is the number of its attribute rows; an attribute's token count
    is at least the number of links to it; sample images are at most four
    and distinct; a numeric range has its bounds in order. *)
Record consistent (d : DB) : Prop := {
  key_ids_issued :
    forall k r, attribute_keys d !! k = Some r ->
      (ak_id r < attribute_keys_id_seq d)%positive;
  attribute_ids_issued :
    forall k r, attributes_table d !! k = Some r ->
      (k.1 < attribute_keys_id_seq d)%positive
      /\ (a_id r < attributes_id_seq d)%positive;
  link_ids_issued :
    forall k r, token_attributes d !! k = Some r ->
      (k.2 < attributes_id_seq d)%positive;
  attribute_counts_exact :
    forall k r, attribute_keys d !! k = Some r ->
      ak_attribute_count r = Z.of_nat (attributes_of (ak_id r) (attributes_table d));
  token_counts_cover :
    forall k r, attributes_table d !! k = Some r ->
      Z.of_nat (links_to (a_id r) (token_attributes d)) <= a_token_count r;
  sample_images_bounded :
    forall k r, attributes_table d !! k = Some r ->
      (length (default [] (a_sample_images r)) <= 4)%nat
      /\ NoDup (default [] (a_sample_images r));
  ranges_ordered :
    forall k r lo hi, attribute_keys d !! k = Some r ->
      ak_info r = Some (Some lo, Some hi) -> bound_numeric lo <= bound_numeric hi
}.

(** The sequences do not go back. *)
Definition advances (d d' : DB) : Prop :=
  (attribute_keys_id_seq d <= attribute_keys_id_seq d')%positive
  /\ (attributes_id_seq d <= attributes_id_seq d')%positive.

(** A statement that leaves consistent tables consistent and the sequences
    where they were or further; the statements of the other workers, given
    below, are such. *)
Definition well_behaved (g : DB -> DB) : Prop :=
  forall d, consistent d -> consistent (g d) /\ advances d (g d).

(** The link statement of another worker, like its insert of an attribute,
    carries the id of the row that is there when it lands. *)
Definition their_link (job : TokenMetadataInfo) (a : Attribute) (d : DB) : DB :=
  match IndexReplay.attribute_id_of job d a with
  | Some aid => (insert_token_attribute job aid a d).2
  | None => d
  end.

Section Theirs.

Context (pg_numeric js_number : string -> option Z).

(** The statements another worker of the queue may land between two of
    this one's: any of the eight statements, for any job, or nothing. *)
Inductive theirs : (DB -> DB) -> Prop :=
  | theirs_nothing : theirs (fun d => d)
  | theirs_update_token job now : theirs (fun d => (update_token job now d).2)
  | theirs_delete c t : theirs (fun d => (delete_token_attributes c t d).2)
  | theirs_update_key c k v :
      theirs (fun d => (update_attribute_key pg_numeric c k v d).2)
  | theirs_insert_key c a : theirs (fun d => (insert_attribute_key js_number c a d).2)
  | theirs_insert_attribute c a now : theirs (their_insert_attribute c a now)
  | theirs_link job a : theirs (their_link job a)
  | theirs_mark job : theirs (fun d => (mark_indexed job d).2).

End Theirs.

(** A consistent database, and only such statements to land. *)
Definition sound (w : World) : Prop :=
  consistent (db w) /\ Forall well_behaved (concurrent w).

(** A precondition on the database that the others cannot undo. *)
Definition lasting (P : DB -> Prop) : Prop :=
  forall d d', advances d d' -> P d -> P d'.

(** From a sound world in which [P] holds, [m] leaves a sound world whose
    sequences have not gone back and in which [Q] holds of its result. *)
Definition keeps {A} (P : DB -> Prop) (m : M A) (Q : JsError + A -> DB -> Prop) : Prop :=
  forall w, sound w -> P (db w) ->
    sound (m w).2 /\ advances (db w) (db (m w).2) /\ Q (m w).1 (db (m w).2).

End IndexConsistency.


(** * What one run of the worker issues and schedules *)

Module IndexRun.

Import MetadataIndex.

(** The statements of one attribute whose link statement was reached:
    update of the key, insert of the key if the update found none, select
    of the attribute, insert of the attribute if the select found none,
    then the link. *)
Definition linked_runs : list (list Stmt) :=
  [ [UpdateAttributeKey; SelectAttribute; InsertTokenAttribute];
    [UpdateAttributeKey; SelectAttribute; InsertAttribute; InsertTokenAttribute];
    [UpdateAttributeKey; InsertAttributeKey; SelectAttribute; InsertTokenAttribute];
    [UpdateAttributeKey; InsertAttributeKey; SelectAttribute; InsertAttribute;
     InsertTokenAttribute] ].

(** The statements of an attribute that made the job throw: at the update
    of the key, or after an insert that returned no id. *)
Definition failed_runs : list (list Stmt) :=
  [ [UpdateAttributeKey];
    [UpdateAttributeKey; InsertAttributeKey];
    [UpdateAttributeKey; SelectAttribute; InsertAttribute];
    [UpdateAttributeKey; InsertAttributeKey; SelectAttribute; InsertAttribute] ].

(** The statements of [n] attributes in turn: one linked run for each when
    the loop completes; when it throws, linked runs for fewer than [n] of
    them and then the run that failed. *)
Definition attribute_runs {A} (n : nat) (r : JsError + A) (ls : list Stmt) : Prop :=
  match r with
  | inr _ =>
      exists groups,
        length groups = n /\ Forall (.∈ linked_runs) groups /\ ls = mjoin groups
  | inl _ =>
      exists groups failed,
        (length groups < n)%nat /\ Forall (.∈ linked_runs) groups
        /\ failed ∈ failed_runs /\ ls = mjoin groups ++ failed
  end.

(** The statement that closes a completed run. *)
Definition closing {A} (r : JsError + A) : list Stmt :=
  match r with
  | inr _ => [MarkIndexed]
  | inl _ => []
  end.

(** [m] appends to the trace a list of statements that [P] holds of,
    together with the result. *)
Definition emits {A} (m : M A) (P : JsError + A -> list Stmt -> Prop) : Prop :=
  forall w, exists l, trace (m w).2 = trace w ++ l /\ P (m w).1 l.

(** [m] schedules no recount. *)
Definition quiet {A} (m : M A) : Prop :=
  forall w, recounts (m w).2 = recounts w.

(** The recounts asked for a removed link. *)
Definition recounts_of (c : string) (row : TokenAttributeRow) : list Recount :=
  [KeyCount c (ta_key row); ValueCount c (ta_key row) (ta_value row)].

(** The row [update_token] and [mark_indexed] leave for the job's token:
    the payload with empty strings as NULL, the flag as given. *)
Definition indexed_row (job : TokenMetadataInfo) (now : Z) (flag : option bool)
  : TokenRow :=
  {| t_name := or_null (name job);
     t_description := or_null (description job);
     t_image := or_null (imageUrl job);
     t_media := or_null (mediaUrl job);
     t_attributes := attrs_hstore (attributes job);
     t_metadata_indexed := flag;
     t_updated_at := now |}.

(** The first attribute of the list whose value the cast does not read. *)
Definition first_uncast (pg_numeric : string -> option Z) (l : list Attribute)
  : option Attribute :=
  List.find (fun a => bool_decide (pg_numeric (value a) = None)) l.

(** Attribute [a] of the job has key row [kid] and attribute row [aid]. *)
Definition located (job : TokenMetadataInfo) (d : DB) (a : Attribute)
    (kid aid : positive) : Prop :=
  exists kr ar,
    attribute_keys d !! (collection job, key a) = Some kr
    /\ ak_id kr = kid
    /\ attributes_table d !! (kid, value a) = Some ar
    /\ a_id ar = aid.

End IndexRun.

(** * Requests of the feed that differ in their direction *)

Module FeedShape.

Import BidEvents.

Definition with_direction (q : Query) (d : SortDirection) : Query :=
  {| q_contract := q_contract q;
     startTimestamp := startTimestamp q;
     endTimestamp := endTimestamp q;
     sortDirection := d;
     continuation := continuation q;
     limit := limit q |}.

End FeedShape.

(** * What the worker never takes back *)

Module IndexGrowth.

Import MetadataIndex.

(** A key row as it may become: same id, kind and rank, no fewer
    attributes, and a numeric range that has only widened. *)
Definition key_grown (r r' : AttributeKeyRow) : Prop :=
  ak_id r' = ak_id r
  /\ ak_kind r' = ak_kind r
  /\ ak_rank r' = ak_rank r
  /\ ak_attribute_count r <= ak_attribute_count r'
  /\ forall lo hi,
       ak_kind r = KNumber -> ak_info r = Some (Some lo, Some hi) ->
       exists lo' hi',
         ak_info r' = Some (Some lo', Some hi')
         /\ bound_numeric lo' <= bound_numeric lo
         /\ bound_numeric hi <= bound_numeric hi'.

(** An attribute row as it may become: same id, collection, kind, key and
    timestamps, no fewer tokens. *)
Definition attribute_grown (r r' : AttributeRow) : Prop :=
  a_id r' = a_id r
  /\ a_collection_id r' = a_collection_id r
  /\ a_kind r' = a_kind r
  /\ a_key r' = a_key r
  /\ a_sell_updated_at r' = a_sell_updated_at r
  /\ a_buy_updated_at r' = a_buy_updated_at r
  /\ a_token_count r <= a_token_count r'.

(** Every key row and every attribute row of [d] is still in [d'], grown. *)
Definition grows (d d' : DB) : Prop :=
  (forall k r, attribute_keys d !! k = Some r ->
     exists r', attribute_keys d' !! k = Some r' /\ key_grown r r')
  /\ (forall k r, attributes_table d !! k = Some r ->
        exists r', attributes_table d' !! k = Some r' /\ attribute_grown r r').

(** The statements of the others only grow the tables. *)
Definition growing (w : World) : Prop :=
  Forall (fun g => forall d, grows d (g d)) (concurrent w).

(** Among growing statements, [m] grows the tables. *)
Definition grower {A} (m : M A) : Prop :=
  forall w, growing w -> grows (db w) (db (m w).2) /\ growing (m w).2.

End IndexGrowth.

(** * A world with other workers at it *)

Module BusyFixtures.

Import MetadataIndex IndexConsistency Decimal IndexFixtures MoreIndexFixtures.

(** Another job of the same collection, for token 2. *)
Definition other_job : TokenMetadataInfo :=
  {| collection := "0xc0"; contract := "0xc0"; tokenId := "2";
     name := Some "Two"; description := None;
     imageUrl := Some "ipfs://two"; mediaUrl := None;
     attributes := [level "9"] |}.

(** Token 1 is indexed with Level 7; while it is indexed again, the job of
    token 2 gets its statements in, one before each of this job's. *)
Definition busy_world : World :=
  {| db := leveled_two_db;
     concurrent :=
       [ (fun d => (update_token other_job 6 d).2);
         (fun d => (delete_token_attributes "0xc0" "2" d).2);
         (fun d => (update_attribute_key numeric "0xc0" "Level" "9" d).2);
         their_insert_attribute "0xc0" (level "9") 6;
         their_link other_job (level "9") ];
     trace := [];
     recounts := [] |}.

End BusyFixtures.
(** * Properties *)

(** ** Floor cache and revalidation *)

Section CollectionsFacts.

Import Collections CollectionsFixtures.

Lemma is_distinct_from_refl `{EqDecision A} (a : option A) :
  is_distinct_from a a = false.
Proof. unfold is_distinct_from. by rewrite bool_decide_eq_true_2. Qed.

Lemma map_fixed {A} (f : A -> A) (l : list A) :
  (forall x, x ∈ l -> f x = x) -> map f l = l.
Proof.
  induction l as [|y l IH]; intros Hf; [done|].
  simpl. rewrite Hf by left. f_equal. apply IH. intros x Hx. apply Hf. by right.
Qed.

Lemma filter_none_length {A} (p : A -> bool) (l : list A) :
  (forall x, x ∈ l -> p x = false) -> length (List.filter p l) = 0%nat.
Proof.
  induction l as [|y l IH]; intros Hp; [done|].
  simpl. rewrite Hp by left. apply IH. intros x Hx. apply Hp. by right.
Qed.

(** The null result makes the property read throw, whatever the prefix. *)
Lemma revalidate_null prefix now :
  exists msg, revalidate prefix None now = (inl (TypeError msg), []).
Proof. by eexists. Qed.

Lemma no_candidate_floor_ask db collection :
  floor_ask_candidates db collection = [] -> floorAskOrderResult db collection = None.
Proof. unfold floorAskOrderResult. by intros ->. Qed.

Lemma no_candidate_top_buy db collection :
  top_buy_candidates db collection = [] -> topBuyOrderResult db collection = None.
Proof. unfold topBuyOrderResult. by intros ->. Qed.

(** C1 (the code departs from it): on a collection without a fillable,
    approved, open-taker order both revalidation functions enqueue no job,
    but they do not complete: reading [id] off the null query result
    throws a TypeError before the empty else-branch is reached. *)
Theorem revalidate_without_candidate_throws :
  floor_ask_candidates quiet_db "0xc0" = []
  /\ top_buy_candidates quiet_db "0xc0" = []
  /\ revalidateCollectionFloorAsk quiet_db 1700000000 "0xc0"
     = (inl (TypeError "Cannot read properties of null (reading 'id')"), [])
  /\ revalidateCollectionTopBuy quiet_db 1700000000 "0xc0"
     = (inl (TypeError "Cannot read properties of null (reading 'id')"), []).
Proof. by vm_compute. Qed.

(** The same on every database: no candidate, no job, and a throw. *)
Lemma revalidate_without_candidate db now collection :
  (floor_ask_candidates db collection = [] ->
   exists msg,
     revalidateCollectionFloorAsk db now collection = (inl (TypeError msg), []))
  /\ (top_buy_candidates db collection = [] ->
      exists msg,
        revalidateCollectionTopBuy db now collection = (inl (TypeError msg), [])).
Proof.
  split; intros H.
  - unfold revalidateCollectionFloorAsk. rewrite (no_candidate_floor_ask _ _ H).
    apply revalidate_null.
  - unfold revalidateCollectionTopBuy. rewrite (no_candidate_top_buy _ _ H).
    apply revalidate_null.
Qed.

Lemma update_from_unchanged collection now xs c :
  (forall x, x ∈ xs -> floor_changed collection c x = false) ->
  update_from collection now xs c = c
  /\ List.find (floor_changed collection c) xs = None.
Proof.
  intros H. unfold update_from.
  destruct (List.find _ xs) as [x|] eqn:E; [|done].
  apply find_some in E as [Hin E]. apply list_elem_of_In in Hin.
  rewrite H in E by done. done.
Qed.

Lemma recalculate_frame db now collection :
  (forall c x, c ∈ collections db -> x ∈ floor_subquery db collection ->
               floor_changed collection c x = false) ->
  recalculate_writes db collection = 0%nat
  /\ recalculateCollectionFloorSell db now collection = db.
Proof.
  intros H. split.
  - unfold recalculate_writes, rows_written. apply filter_none_length.
    intros c Hc. apply bool_decide_eq_false_2.
    destruct (update_from_unchanged collection now (floor_subquery db collection) c)
      as [_ ->]; [by eauto|]. by intros [? ?].
  - unfold recalculateCollectionFloorSell. destruct db as [o tst ts t cs]. simpl in *.
    f_equal. apply map_fixed. intros c Hc.
    apply update_from_unchanged. eauto.
Qed.

(** C4: when the floor listing the subquery computes carries the floor
    sell id and value already stored on the collection's row, the UPDATE
    writes no row, and the database, [updated_at] included, is as it
    was. *)
Theorem recalculate_same_floor_writes_nothing db now collection x :
  floor_subquery db collection = [x] ->
  (forall c, c ∈ collections db -> c_id c = collection ->
             c_floor_sell_id c = x_floor_sell_id x
             /\ c_floor_sell_value c = x_floor_sell_value x) ->
  recalculate_writes db collection = 0%nat
  /\ recalculateCollectionFloorSell db now collection = db.
Proof.
  intros Hx Hsame. apply recalculate_frame.
  intros c y Hc. rewrite Hx. intros ->%list_elem_of_singleton.
  unfold floor_changed. case_bool_decide as Hid; [|done]. simpl.
  destruct (Hsame c Hc Hid) as [-> ->].
  by rewrite !is_distinct_from_refl.
Qed.

(** C10: when no token of the collection carries a floor-sell order, the
    subquery is empty and the UPDATE writes no row: a floor cache stored
    earlier stays as it is, it is not reset to NULL. *)
Theorem recalculate_without_listing_writes_nothing db now collection :
  floor_join db collection = [] ->
  recalculate_writes db collection = 0%nat
  /\ recalculateCollectionFloorSell db now collection = db.
Proof.
  intros Hj. apply recalculate_frame.
  intros c x _. unfold floor_subquery. rewrite Hj. simpl.
  by intros ?%elem_of_nil.
Qed.

Lemma recalculate_same_floor_writes_nothing_witness :
  floor_subquery steady_db "0xc0" = [steady_floor]
  /\ recalculate_writes steady_db "0xc0" = 0%nat
  /\ recalculateCollectionFloorSell steady_db 200 "0xc0" = steady_db.
Proof.
  split; [reflexivity|].
  apply (recalculate_same_floor_writes_nothing steady_db 200 "0xc0" steady_floor).
  - reflexivity.
  - intros c Hc _. apply list_elem_of_singleton in Hc as ->. split; reflexivity.
Defined.

Lemma recalculate_without_listing_writes_nothing_witness :
  floor_join quiet_db "0xc0" = []
  /\ recalculate_writes quiet_db "0xc0" = 0%nat
  /\ recalculateCollectionFloorSell quiet_db 200 "0xc0" = quiet_db.
Proof.
  split; [reflexivity|].
  apply (recalculate_without_listing_writes_nothing quiet_db 200 "0xc0").
  reflexivity.
Defined.

End CollectionsFacts.

(** ** The attribute-indexing worker *)

Section IndexFacts.

Import MetadataIndex.

Context (pg_numeric js_number : string -> option Z).

(** *** Running statements *)

Lemma arrive_alone w : concurrent w = [] -> arrive w = db w.
Proof. unfold arrive. by intros ->. Qed.

Lemma bind_ok {A B} (m : M A) (f : A -> M B) w x w' :
  m w = (inr x, w') -> (m ≫= f) w = f x w'.
Proof. unfold mbind, M_bind. by intros ->. Qed.

Lemma bind_throw {A B} (m : M A) (f : A -> M B) w e w' :
  m w = (inl e, w') -> (m ≫= f) w = (inl e, w').
Proof. unfold mbind, M_bind. by intros ->. Qed.

(** C9: a job whose (contract, tokenId) matches no row of [tokens] returns
    normally after its first statement: nothing is thrown (so the queue
    does not retry), no recount is scheduled, and the database is the one
    the statement met, attribute keys, attributes and links included. *)
Theorem worker_without_token_is_noop job now w :
  tokens (arrive w) !! (contract job, tokenId job) = None ->
  worker pg_numeric js_number job now w
  = (inr (), {| db := arrive w;
                concurrent := tail (concurrent w);
                trace := trace w ++ [UpdateToken];
                recounts := recounts w |}).
Proof.
  intros Hnone. unfold worker.
  erewrite bind_ok; [|reflexivity].
  unfold update_token. rewrite Hnone. reflexivity.
Qed.

End IndexFacts.

Section SampleImageFacts.

Import MetadataIndex.

(** *** Sample images *)

Lemma sample_images_null img : sample_images_update img None = Some [img].
Proof. reflexivity. Qed.

Lemma sample_images_present img l :
  img ∈ l -> sample_images_update img (Some l) = Some l.
Proof.
  intros Hin. unfold sample_images_update. simpl.
  rewrite (bool_decide_eq_false_2 (img ∉ l)) by tauto.
  by destruct l as [|? [|? [|? [|? ?]]]].
Qed.

Lemma sample_images_short img l :
  l <> [] -> (length l < 4)%nat -> img ∉ l ->
  sample_images_update img (Some l) = Some (img :: l).
Proof.
  intros Hne Hlen Hout. unfold sample_images_update. simpl.
  rewrite (bool_decide_eq_true_2 (img ∉ l)) by done.
  destruct l as [|x1 [|x2 [|x3 [|x4 l]]]]; try done.
  simpl in Hlen. lia.
Qed.

Lemma sample_images_full img l y :
  l !! 3%nat = Some y -> img ∉ l ->
  sample_images_update img (Some l) = Some (img :: filter (fun z => z ≠ y) l).
Proof.
  intros Hy Hout. unfold sample_images_update. simpl.
  rewrite (bool_decide_eq_true_2 (img ∉ l)) by done.
  destruct l as [|x1 [|x2 [|x3 [|x4 l]]]]; try done.
  simpl in Hy. injection Hy as ->.
  reflexivity.
Qed.

(** The empty array, as opposed to NULL, has a NULL length: neither WHEN arm
    is taken and the column stays empty. *)
Lemma sample_images_empty_array img : sample_images_update img (Some []) = Some [].
Proof.
  unfold sample_images_update. simpl.
  by destruct (bool_decide (img ∉ [])).
Qed.

(** The four shapes of the outcome. *)
Lemma sample_images_cases img s :
  sample_images_update img s = s
  \/ (s = None /\ sample_images_update img s = Some [img])
  \/ (exists l, s = Some l /\ (length l < 4)%nat /\ (img ∉ l)
                /\ sample_images_update img s = Some (img :: l))
  \/ (exists l y, s = Some l /\ l !! 3%nat = Some y /\ (img ∉ l)
                  /\ sample_images_update img s = Some (img :: filter (fun z => z ≠ y) l)).
Proof.
  destruct s as [l|]; [|right; left; done].
  destruct (decide (img ∈ l)) as [Hin|Hout].
  { left. by apply sample_images_present. }
  destruct (decide (l = [])) as [->|Hne].
  { left. apply sample_images_empty_array. }
  destruct (l !! 3%nat) as [y|] eqn:Hy.
  - right; right; right. exists l, y. split_and!; try done.
    by apply sample_images_full.
  - apply lookup_ge_None in Hy.
    right; right; left. exists l. split_and!; try done; [lia|].
    apply sample_images_short; [done|lia|done].
Qed.

Lemma filter_ne_shorter (y : string) (l : list string) :
  y ∈ l -> (length (filter (fun z => z ≠ y) l) < length l)%nat.
Proof.
  induction l as [|x l IH]; [by intros ?%elem_of_nil|].
  intros Hin. rewrite filter_cons. case_decide as Hx; simpl.
  - apply elem_of_cons in Hin as [->|Hin]; [done|]. specialize (IH Hin). lia.
  - pose proof (length_filter (fun z => z ≠ y) l). lia.
Qed.

Lemma sample_images_bound img s :
  (length (default [] s) <= 4)%nat ->
  (length (default [] (sample_images_update img s)) <= 4)%nat.
Proof.
  intros Hlen.
  destruct (sample_images_cases img s)
    as [->|[[-> ->]|[(l & -> & Hl & _ & ->)|(l & y & -> & Hy & _ & ->)]]];
    simpl in *; try lia.
  pose proof (filter_ne_shorter y l (list_elem_of_lookup_2 _ _ _ Hy)). lia.
Qed.

Lemma sample_images_NoDup img s :
  NoDup (default [] s) -> NoDup (default [] (sample_images_update img s)).
Proof.
  intros Hnd.
  destruct (sample_images_cases img s)
    as [->|[[-> ->]|[(l & -> & Hl & Hout & ->)|(l & y & -> & Hy & Hout & ->)]]];
    simpl in *; try done.
  - apply NoDup_singleton.
  - by apply NoDup_cons.
  - apply NoDup_cons. split; [|by apply NoDup_filter].
    rewrite list_elem_of_filter. tauto.
Qed.

Lemma link_attribute_images n img r :
  truthy_string img = true ->
  a_sample_images (link_attribute n (Some img) r)
  = sample_images_update img (a_sample_images r).
Proof. intros Ht. unfold link_attribute. simpl. by rewrite Ht. Qed.

Lemma link_attribute_no_image n r :
  a_sample_images (link_attribute n None r) = a_sample_images r.
Proof. reflexivity. Qed.

Lemma link_attribute_images_cases n image r :
  a_sample_images (link_attribute n image r) = a_sample_images r
  \/ exists img, a_sample_images (link_attribute n image r)
                 = sample_images_update img (a_sample_images r).
Proof.
  unfold link_attribute. simpl. destruct (or_null image); eauto.
Qed.

(** C8: on an attribute row that has no sample images yet, linking tokens
    with the distinct images a, b, c, d, e in this order leaves
    [e; d; c; b]. Whatever the row: an image already in the list leaves the
    list as it is; a list of at most 4 entries stays so; a list without
    duplicates stays so; and an image that changes the list is its first
    entry afterwards, before the entries that were there. *)
Theorem sample_images_ring r (a b c d e : string) :
  a_sample_images r = None ->
  NoDup [a; b; c; d; e] ->
  Forall (fun i => truthy_string i = true) [a; b; c; d; e] ->
  a_sample_images (foldl (fun r i => link_attribute 1 (Some i) r) r [a; b; c; d; e])
  = Some [e; d; c; b]
  /\ (forall r' n i l, a_sample_images r' = Some l -> i ∈ l ->
        a_sample_images (link_attribute n (Some i) r') = Some l)
  /\ (forall r' n i, (length (default [] (a_sample_images r')) <= 4)%nat ->
        (length (default [] (a_sample_images (link_attribute n i r'))) <= 4)%nat)
  /\ (forall r' n i, NoDup (default [] (a_sample_images r')) ->
        NoDup (default [] (a_sample_images (link_attribute n i r'))))
  /\ (forall r' n i, a_sample_images (link_attribute n i r') <> a_sample_images r' ->
        exists img l, i = Some img
          /\ a_sample_images (link_attribute n i r') = Some (img :: l)
          /\ l ⊆ default [] (a_sample_images r')).
Proof.
  intros Hnull Hnd Ht. split_and!.
  - rewrite !Forall_cons in Ht. destruct Ht as (Ha & Hb & Hc & Hd & He & _).
    rewrite !NoDup_cons in Hnd. destruct Hnd as (Hna & Hnb & Hnc & Hnd & _).
    cbn [foldl]. rewrite !link_attribute_images by done. rewrite Hnull.
    rewrite sample_images_null.
    rewrite (sample_images_short b [a]); [|done|simpl; lia|set_solver].
    rewrite (sample_images_short c [b; a]); [|done|simpl; lia|set_solver].
    rewrite (sample_images_short d [c; b; a]); [|done|simpl; lia|set_solver].
    rewrite (sample_images_full e [d; c; b; a] a); [|done|set_solver].
    f_equal. f_equal.
    rewrite !filter_cons, filter_nil.
    repeat case_decide; try done; set_solver.
  - intros r' n i l Hl Hin. unfold link_attribute. simpl.
    destruct (truthy_string i); [|done].
    rewrite Hl. by apply sample_images_present.
  - intros r' n i Hlen.
    destruct (link_attribute_images_cases n i r') as [->|[img ->]]; [done|].
    by apply sample_images_bound.
  - intros r' n i Hnd'.
    destruct (link_attribute_images_cases n i r') as [->|[img ->]]; [done|].
    by apply sample_images_NoDup.
  - intros r' n i Hch. unfold link_attribute in *. simpl in *.
    destruct i as [img|]; simpl in *; [|done].
    destruct (truthy_string img); [|done].
    exists img.
    destruct (sample_images_cases img (a_sample_images r'))
      as [Hs|[[Hs ->]|[(l & Hs & Hl & Hout & ->)|(l & y & Hs & Hy & Hout & ->)]]].
    + done.
    + exists []. split_and!; [done|done|]. set_solver.
    + exists l. rewrite Hs. split_and!; [done|done|]. set_solver.
    + exists (filter (fun z => z ≠ y) l). rewrite Hs. split_and!; [done|done|].
      simpl. intros z. rewrite list_elem_of_filter. tauto.
Qed.

(** *** Counters move by the rows a statement created *)

Lemma insert_attribute_created kid c a now db :
  Z.of_nat (size (attributes_table (insert_attribute kid c a now db).2))
  - Z.of_nat (size (attributes_table db))
  = if decide (attributes_table db !! (kid, value a) = None) then 1 else 0.
Proof.
  unfold insert_attribute. simpl.
  destruct (attributes_table db !! (kid, value a)) as [r|] eqn:E.
  - rewrite decide_False by done. lia.
  - rewrite decide_True by done. rewrite map_size_insert_None by done. lia.
Qed.

Lemma insert_token_attribute_linked job aid a db :
  Z.of_nat (size (token_attributes (insert_token_attribute job aid a db).2))
  - Z.of_nat (size (token_attributes db))
  = if decide (token_attributes db !! (contract job, tokenId job, aid) = None)
    then 1 else 0.
Proof.
  unfold insert_token_attribute. simpl.
  case_bool_decide as E.
  - rewrite decide_True by done. rewrite map_size_insert_None by done. lia.
  - rewrite decide_False by done. lia.
Qed.

(** C6: the statement that inserts the attribute with conflict-ignore adds
    to [attribute_count] of the key row the number of rows it created in
    [attributes], which is 1 when no row for (attribute_key_id, value) was
    there and 0 when one was (whoever wrote it); the statement that inserts
    the link adds to [token_count] of the attribute row the number of rows
    it created in [token_attributes], again 0 or 1. Rows with another id
    keep their counter. *)
Theorem counters_add_rows_created db kid c a now job aid :
  let after_attribute := (insert_attribute kid c a now db).2 in
  let created :=
    Z.of_nat (size (attributes_table after_attribute))
    - Z.of_nat (size (attributes_table db)) in
  let after_link := (insert_token_attribute job aid a db).2 in
  let linked :=
    Z.of_nat (size (token_attributes after_link))
    - Z.of_nat (size (token_attributes db)) in
  created = (if decide (attributes_table db !! (kid, value a) = None) then 1 else 0)
  /\ (forall k r, attribute_keys db !! k = Some r ->
        exists r', attribute_keys after_attribute !! k = Some r'
          /\ ak_attribute_count r'
             = ak_attribute_count r + (if decide (ak_id r = kid) then created else 0))
  /\ linked
     = (if decide (token_attributes db !! (contract job, tokenId job, aid) = None)
        then 1 else 0)
  /\ (forall k r, attributes_table db !! k = Some r ->
        exists r', attributes_table after_link !! k = Some r'
          /\ a_token_count r'
             = a_token_count r + (if decide (a_id r = aid) then linked else 0)).
Proof.
  intros after_attribute created after_link linked.
  assert (Hc : created
               = if decide (attributes_table db !! (kid, value a) = None) then 1 else 0)
    by apply insert_attribute_created.
  assert (Hl : linked
               = if decide (token_attributes db !! (contract job, tokenId job, aid) = None)
                 then 1 else 0)
    by apply insert_token_attribute_linked.
  split_and!; [done| |done|].
  - intros k r Hk. subst after_attribute. unfold insert_attribute. simpl.
    rewrite lookup_fmap, Hk. simpl. eexists. split; [done|].
    rewrite Hc. clear.
    destruct (decide (ak_id r = kid)) as [Hid|Hid].
    + rewrite bool_decide_eq_true_2 by done. simpl.
      by destruct (attributes_table db !! (kid, value a)).
    + rewrite bool_decide_eq_false_2 by done. lia.
  - intros k r Hk. subst after_link. unfold insert_token_attribute. simpl.
    rewrite lookup_fmap, Hk. simpl. eexists. split; [done|].
    rewrite Hl. clear.
    destruct (decide (a_id r = aid)) as [Hid|Hid].
    + rewrite bool_decide_eq_true_2 by done. simpl.
      destruct (token_attributes db !! (contract job, tokenId job, aid)); simpl; done.
    + rewrite bool_decide_eq_false_2 by done. lia.
Qed.

End SampleImageFacts.

Section KeyFacts.

Import MetadataIndex.

Context (pg_numeric js_number : string -> option Z).

(** *** Numeric ranges *)

Lemma widen_min_max v lo hi :
  widen v (Some (Some lo, Some hi))
  = Some (Some (JString (Z.min (bound_numeric lo) v)),
          Some (JString (Z.max (bound_numeric hi) v))).
Proof.
  unfold widen, widen_min, widen_max.
  destruct (Z.gtb_spec (bound_numeric lo) v), (Z.ltb_spec (bound_numeric hi) v);
    repeat f_equal; lia.
Qed.

Lemma foldl_min_spec (vs : list Z) (lo : Z) :
  foldl Z.min lo vs ∈ lo :: vs /\ Forall (fun v => foldl Z.min lo vs <= v) (lo :: vs).
Proof.
  revert lo. induction vs as [|v vs IH]; intros lo; simpl.
  { split; [by left|]. by repeat constructor. }
  destruct (IH (Z.min lo v)) as [Hin Hall].
  apply Forall_cons in Hall as [Hhd Htl]. split.
  - apply elem_of_cons in Hin as [Hin|Hin]; [|by do 2 right].
    rewrite Hin. destruct (Z.min_spec lo v) as [[_ ->]|[_ ->]]; [left|right; left]; done.
  - constructor; [lia|]. constructor; [lia|done].
Qed.

Lemma foldl_max_spec (vs : list Z) (hi : Z) :
  foldl Z.max hi vs ∈ hi :: vs /\ Forall (fun v => v <= foldl Z.max hi vs) (hi :: vs).
Proof.
  revert hi. induction vs as [|v vs IH]; intros hi; simpl.
  { split; [by left|]. by repeat constructor. }
  destruct (IH (Z.max hi v)) as [Hin Hall].
  apply Forall_cons in Hall as [Hhd Htl]. split.
  - apply elem_of_cons in Hin as [Hin|Hin]; [|by do 2 right].
    rewrite Hin. destruct (Z.max_spec hi v) as [[_ ->]|[_ ->]]; [right; left|left]; done.
  - constructor; [lia|]. constructor; [lia|done].
Qed.

(** The first sighting: no row yet, the update finds nothing and the insert
    creates the row. *)
Lemma resolve_attribute_key_first job a w :
  concurrent w = [] ->
  attribute_keys (db w) !! (collection job, key a) = None ->
  is_Some (pg_numeric (value a)) ->
  exists w',
    resolve_attribute_key pg_numeric js_number job a w
    = (inr (Some (attribute_keys_id_seq (db w))), w')
    /\ concurrent w' = []
    /\ trace w' = trace w ++ [UpdateAttributeKey; InsertAttributeKey]
    /\ attribute_keys (db w')
       = <[(collection job, key a) :=
             {| ak_id := attribute_keys_id_seq (db w); ak_kind := kind a;
                ak_rank := rank_or_null (rank a);
                ak_info := new_key_info js_number a;
                ak_attribute_count := 0 |}]> (attribute_keys (db w)).
Proof.
  intros Hc Hnone [n Hn]. unfold resolve_attribute_key.
  erewrite bind_ok; last first.
  { unfold exec, update_attribute_key. rewrite (arrive_alone w Hc), Hn, Hnone.
    reflexivity. }
  unfold query, exec, arrive. simpl. rewrite Hc. simpl.
  unfold insert_attribute_key. rewrite Hnone. simpl.
  eexists. split_and!; try reflexivity. by rewrite <-app_assoc.
Qed.

(** A later sighting on a key of kind number: the update widens the row. *)
Lemma resolve_attribute_key_number job a w r n :
  concurrent w = [] ->
  attribute_keys (db w) !! (collection job, key a) = Some r ->
  ak_kind r = KNumber ->
  pg_numeric (value a) = Some n ->
  exists w',
    resolve_attribute_key pg_numeric js_number job a w = (inr (Some (ak_id r)), w')
    /\ concurrent w' = []
    /\ trace w' = trace w ++ [UpdateAttributeKey]
    /\ attribute_keys (db w')
       = <[(collection job, key a) := set_info r (widen n (ak_info r))]>
           (attribute_keys (db w)).
Proof.
  intros Hc Hr Hk Hn. unfold resolve_attribute_key.
  erewrite bind_ok; last first.
  { unfold exec, update_attribute_key.
    rewrite (arrive_alone w Hc), Hn, Hr, Hk. reflexivity. }
  simpl. rewrite Hc. eexists. split_and!; reflexivity.
Qed.

Lemma widen_all job k obs vs : forall w r lo hi,
  Forall2 (fun a v => key a = k /\ pg_numeric (value a) = Some v) obs vs ->
  concurrent w = [] ->
  attribute_keys (db w) !! (collection job, k) = Some r ->
  ak_kind r = KNumber ->
  ak_info r = Some (Some lo, Some hi) ->
  exists r' lo' hi',
    attribute_keys
      (db (foldl (fun w a => (resolve_attribute_key pg_numeric js_number job a w).2) w obs))
      !! (collection job, k) = Some r'
    /\ ak_kind r' = KNumber
    /\ ak_info r' = Some (Some lo', Some hi')
    /\ bound_numeric lo' = foldl Z.min (bound_numeric lo) vs
    /\ bound_numeric hi' = foldl Z.max (bound_numeric hi) vs.
Proof.
  revert vs. induction obs as [|a obs IH]; intros vs w r lo hi Hobs Hc Hr Hk Hi.
  { apply Forall2_nil_inv_l in Hobs as ->. simpl. eauto 10. }
  apply Forall2_cons_inv_l in Hobs as (v & vs' & (Hkey & Hpg) & Hobs & ->).
  subst k.
  destruct (resolve_attribute_key_number job a w r v Hc Hr Hk Hpg)
    as (w' & Hrun & Hc' & _ & Hkeys).
  cbn [foldl]. rewrite Hrun. simpl.
  eapply (IH vs' w' _ (JString (Z.min (bound_numeric lo) v))
            (JString (Z.max (bound_numeric hi) v))); [done|done| | |].
  - rewrite Hkeys. apply lookup_insert_eq.
  - done.
  - simpl. rewrite Hi. apply widen_min_max.
Qed.


(** *** Resolving the attribute key *)

Lemma resolve_attribute_key_unresolved job a w w' :
  resolve_attribute_key pg_numeric js_number job a w = (inr None, w') ->
  trace w' = trace w ++ [UpdateAttributeKey; InsertAttributeKey]
  /\ concurrent w' = tail (tail (concurrent w)).
Proof.
  unfold resolve_attribute_key, mbind, M_bind, exec. simpl.
  destruct (update_attribute_key pg_numeric (collection job) (key a) (value a) (arrive w))
    as [[e|[i|]] d1]; simpl; [done|done|].
  unfold query, exec. simpl. intros [= _ <-]. simpl.
  by rewrite <-app_assoc.
Qed.

(** C2 (as the code has it): when neither the conditional update nor the
    conflict-ignoring insert returns an id, the job throws at once. The two
    statements are all it has issued for the key: it does not select the
    key again. *)
Theorem unresolved_key_fails_without_reselect job now a w w' :
  resolve_attribute_key pg_numeric js_number job a w = (inr None, w') ->
  index_attribute pg_numeric js_number job now a w
  = (inl (Error ("Could not fetch/save attribute key " +:+ quoted (key a))), w')
  /\ trace w' = trace w ++ [UpdateAttributeKey; InsertAttributeKey].
Proof.
  intros H. split.
  - unfold index_attribute. by rewrite (bind_ok _ _ _ _ _ H).
  - by apply resolve_attribute_key_unresolved in H as [? _].
Qed.

End KeyFacts.

Section IndexExamples.

Import MetadataIndex Decimal IndexFixtures.

(** C2, as stated, fails: in the create-race the row is there once the
    insert has been ignored, so a reselect would resolve the key; the job
    has thrown all the same, after the update and the insert and nothing
    else. *)
Lemma key_race_fails_where_reselect_would_resolve :
  let r := index_attribute numeric number (level_job "7") 0 (level "7") race_world in
  let j := worker numeric number (level_job "7") 0 race_world_job in
  r.1 = inl (Error ("Could not fetch/save attribute key " +:+ quoted "Level"))
  /\ trace r.2 = [UpdateAttributeKey; InsertAttributeKey]
  /\ concurrent r.2 = []
  /\ ak_id <$> attribute_keys (db r.2) !! ("0xc0", "Level") = Some 1%positive
  /\ j.1 = inl (Error ("Could not fetch/save attribute key " +:+ quoted "Level"))
  /\ trace j.2
     = [UpdateToken; DeleteTokenAttributes; UpdateAttributeKey; InsertAttributeKey]
  /\ ak_id <$> attribute_keys (db j.2) !! ("0xc0", "Level") = Some 1%positive.
Proof. by vm_compute. Qed.

(** Two concurrent first sightings of one (key, value): the attribute is
    there once and the key's count has grown by one, not by two. *)
Example attribute_race_counts_once :
  let r := index_attribute numeric number (level_job "7") 0 (level "7")
             attribute_race_world in
  r.1 = inl (Error ("Could not fetch/save attribute " +:+ quoted "7"))
  /\ trace r.2 = [UpdateAttributeKey; InsertAttributeKey; SelectAttribute; InsertAttribute]
  /\ ak_attribute_count <$> attribute_keys (db r.2) !! ("0xc0", "Level") = Some 1
  /\ size (attributes_table (db r.2)) = 1%nat.
Proof. by vm_compute. Qed.

Lemma unresolved_key_fails_without_reselect_witness :
  exists w',
    resolve_attribute_key numeric number (level_job "7") (level "7") race_world
    = (inr None, w')
    /\ index_attribute numeric number (level_job "7") 0 (level "7") race_world
       = (inl (Error ("Could not fetch/save attribute key " +:+ quoted "Level")), w')
    /\ trace w' = trace race_world ++ [UpdateAttributeKey; InsertAttributeKey].
Proof.
  eexists. split; [reflexivity|].
  apply (unresolved_key_fails_without_reselect numeric number (level_job "7") 0
           (level "7") race_world).
  reflexivity.
Defined.

Lemma worker_without_token_is_noop_witness :
  tokens (arrive (alone empty_db)) !! (contract (level_job "7"), tokenId (level_job "7"))
  = None
  /\ worker numeric number (level_job "7") 10 (alone empty_db)
     = (inr (), {| db := empty_db; concurrent := []; trace := [UpdateToken];
                   recounts := [] |}).
Proof.
  split; [reflexivity|].
  apply (worker_without_token_is_noop numeric number (level_job "7") 10 (alone empty_db)).
  reflexivity.
Defined.

Lemma sample_images_ring_witness :
  a_sample_images
    (foldl (fun r i => link_attribute 1 (Some i) r) blank_attribute
       ["a"; "b"; "c"; "d"; "e"])
  = Some ["e"; "d"; "c"; "b"].
Proof.
  destruct (sample_images_ring blank_attribute "a" "b" "c" "d" "e") as [Hring _].
  - reflexivity.
  - apply (bool_decide_unpack _). by vm_compute.
  - by repeat constructor.
  - exact Hring.
Defined.



End IndexExamples.

(** ** Replaying a job *)

Section ReplayFacts.

Import MetadataIndex IndexReplay.

Context (pg_numeric js_number : string -> option Z).

#[local] Abbreviation index_attribute_alone := (index_attribute_alone pg_numeric js_number).
#[local] Abbreviation index_all_alone := (index_all_alone pg_numeric js_number).
#[local] Abbreviation covered := (covered pg_numeric).

#[local] Arguments update_attribute_key : simpl never.
#[local] Arguments insert_attribute_key : simpl never.
#[local] Arguments select_attribute : simpl never.
#[local] Arguments insert_attribute : simpl never.
#[local] Arguments insert_token_attribute : simpl never.
#[local] Arguments update_token : simpl never.
#[local] Arguments delete_token_attributes : simpl never.
#[local] Arguments mark_indexed : simpl never.
#[local] Arguments exec : simpl never.

(** *** The worker alone is the function on the database *)

Lemma steps_exec {A} s (f : DB -> (JsError + A) * DB) w :
  concurrent w = [] -> steps_to (exec s f) w (f (db w)).1 (f (db w)).2.
Proof.
  intros Hc. unfold steps_to, exec, arrive. rewrite Hc. eexists. split_and!; done.
Qed.

Lemma steps_query {A} s (f : DB -> A * DB) w :
  concurrent w = [] -> steps_to (query s f) w (inr (f (db w)).1) (f (db w)).2.
Proof.
  intros Hc. unfold query.
  apply (steps_exec s (fun d => (inr (f d).1, (f d).2)) w Hc).
Qed.

Lemma steps_ret {A} (x : A) w :
  concurrent w = [] -> steps_to (mret x) w (inr x) (db w).
Proof. intros Hc. exists w. by unfold mret, M_ret. Qed.

Lemma steps_throw {A} e w :
  concurrent w = [] -> steps_to (@throw A e) w (inl e) (db w).
Proof. intros Hc. exists w. by unfold throw. Qed.

Lemma steps_bind_ok {A B} (m : M A) (f : A -> M B) w x d r d' :
  steps_to m w (inr x) d ->
  (forall w', db w' = d -> concurrent w' = [] -> steps_to (f x) w' r d') ->
  steps_to (m ≫= f) w r d'.
Proof.
  intros (w1 & Hm & Hd & Hc) Hf.
  destruct (Hf w1 Hd Hc) as (w2 & Hf2 & Hd2 & Hc2).
  exists w2. by rewrite (bind_ok _ _ _ _ _ Hm).
Qed.

Lemma steps_bind_throw {A B} (m : M A) (f : A -> M B) w e d :
  steps_to m w (inl e) d -> steps_to (m ≫= f) w (inl e) d.
Proof.
  intros (w1 & Hm & Hd & Hc). exists w1. by rewrite (bind_throw _ _ _ _ _ Hm).
Qed.

Lemma steps_resolve_attribute_key job a w :
  concurrent w = [] ->
  steps_to (resolve_attribute_key pg_numeric js_number job a) w
    (match update_attribute_key pg_numeric (collection job) (key a) (value a) (db w) with
     | (inl e, _) => inl e
     | (inr (Some kid), _) => inr (Some kid)
     | (inr None, d1) => inr (insert_attribute_key js_number (collection job) a d1).1
     end)
    (match update_attribute_key pg_numeric (collection job) (key a) (value a) (db w) with
     | (inr None, d1) => (insert_attribute_key js_number (collection job) a d1).2
     | (_, d1) => d1
     end).
Proof.
  intros Hc. unfold resolve_attribute_key.
  pose proof (steps_exec UpdateAttributeKey
                (update_attribute_key pg_numeric (collection job) (key a) (value a))
                w Hc) as Hu.
  destruct (update_attribute_key pg_numeric (collection job) (key a) (value a) (db w))
    as [[e|[kid|]] d1]; cbn [fst snd] in Hu.
  - by apply steps_bind_throw.
  - eapply steps_bind_ok; [done|]. intros w' <- Hc'. by apply steps_ret.
  - eapply steps_bind_ok; [done|]. intros w' <- Hc'.
    apply (steps_query InsertAttributeKey _ w' Hc').
Qed.

Lemma steps_resolve_attribute job now kid a w :
  concurrent w = [] ->
  steps_to (resolve_attribute job now kid a) w
    (inr (match select_attribute kid (value a) (db w) with
          | Some aid => Some aid
          | None => (insert_attribute kid (collection job) a now (db w)).1
          end))
    (match select_attribute kid (value a) (db w) with
     | Some _ => db w
     | None => (insert_attribute kid (collection job) a now (db w)).2
     end).
Proof.
  intros Hc. unfold resolve_attribute.
  eapply steps_bind_ok.
  { apply (steps_query SelectAttribute
             (fun d => (select_attribute kid (value a) d, d)) w Hc). }
  cbn [fst snd]. intros w' Hd Hc'.
  destruct (select_attribute kid (value a) (db w)) as [aid|].
  - rewrite <-Hd. by apply steps_ret.
  - rewrite <-Hd. apply (steps_query InsertAttribute _ w' Hc').
Qed.

Lemma steps_attach job now kid a w :
  concurrent w = [] ->
  steps_to
    (attributeResult ← resolve_attribute job now kid a;
     match attributeResult with
     | None => throw (Error ("Could not fetch/save attribute " +:+ quoted (value a)))
     | Some aid => query InsertTokenAttribute (insert_token_attribute job aid a)
     end) w
    (attach job now kid a (db w)).1 (attach job now kid a (db w)).2.
Proof.
  intros Hc. eapply steps_bind_ok; [by apply steps_resolve_attribute|].
  intros w' Hd Hc'. unfold attach.
  destruct (select_attribute kid (value a) (db w)) as [aid|].
  - cbn [fst snd]. rewrite <-Hd.
    apply (steps_query InsertTokenAttribute (insert_token_attribute job aid a) w' Hc').
  - destruct (insert_attribute kid (collection job) a now (db w)).1 as [aid|];
      cbn [fst snd]; rewrite <-Hd.
    + apply (steps_query InsertTokenAttribute (insert_token_attribute job aid a) w' Hc').
    + by apply steps_throw.
Qed.

Lemma index_attribute_alone_spec job now a w :
  concurrent w = [] ->
  steps_to (index_attribute pg_numeric js_number job now a) w
    (index_attribute_alone job now a (db w)).1
    (index_attribute_alone job now a (db w)).2.
Proof.
  intros Hc. unfold index_attribute, index_attribute_alone.
  pose proof (steps_resolve_attribute_key job a w Hc) as Hk.
  destruct (update_attribute_key pg_numeric (collection job) (key a) (value a) (db w))
    as [[e|[kid|]] d1]; cbn [fst snd].
  - by apply steps_bind_throw.
  - eapply steps_bind_ok; [done|]. intros w' <- Hc'. by apply steps_attach.
  - destruct (insert_attribute_key js_number (collection job) a d1).1 as [kid|].
    + eapply steps_bind_ok; [done|]. intros w' <- Hc'. by apply steps_attach.
    + eapply steps_bind_ok; [done|]. intros w' <- Hc'. by apply steps_throw.
Qed.

Lemma for_each_alone_spec job now l : forall w,
  concurrent w = [] ->
  steps_to (for_each (index_attribute pg_numeric js_number job now) l) w
    (index_all_alone job now l (db w)).1
    (index_all_alone job now l (db w)).2.
Proof.
  induction l as [|a l IH]; intros w Hc; cbn [for_each index_all_alone IndexReplay.index_all_alone].
  { by apply steps_ret. }
  pose proof (index_attribute_alone_spec job now a w Hc) as Ha.
  destruct (index_attribute_alone job now a (db w)) as [[e|[]] d1]; cbn [fst snd] in *.
  - by apply steps_bind_throw.
  - eapply steps_bind_ok; [done|]. intros w' <- Hc'. by apply IH.
Qed.

(** *** Ranges around a value *)

Lemma widen_min_spec m lo :
  widen_min m lo = (fun b => JString (Z.min (bound_numeric b) m)) <$> lo.
Proof.
  destruct lo as [b|]; [|done]. simpl.
  destruct (Z.gtb_spec (bound_numeric b) m); do 2 f_equal; lia.
Qed.

Lemma widen_max_spec m hi :
  widen_max m hi = (fun b => JString (Z.max (bound_numeric b) m)) <$> hi.
Proof.
  destruct hi as [b|]; [|done]. simpl.
  destruct (Z.ltb_spec (bound_numeric b) m); do 2 f_equal; lia.
Qed.

Lemma covers_widen n m info : covers n info -> covers n (widen m info).
Proof.
  destruct info as [[lo hi]|]; [|done]. simpl.
  rewrite widen_min_spec, widen_max_spec.
  destruct lo, hi; simpl; lia.
Qed.

Lemma covers_widen_self n info : covers n (widen n info).
Proof.
  destruct info as [[lo hi]|]; [|done]. simpl.
  rewrite widen_min_spec, widen_max_spec.
  destruct lo, hi; simpl; lia.
Qed.

(** An update by a value within the range only rewrites the bounds. *)
Lemma widen_covered n info : covers n info -> widen n info = texted info.
Proof.
  destruct info as [[lo hi]|]; [|done]. simpl.
  rewrite widen_min_spec, widen_max_spec. unfold text_bound.
  destruct lo, hi; simpl; intros [Hlo Hhi]; repeat f_equal; lia.
Qed.

Lemma texted_widen n info : texted (widen n info) = widen n info.
Proof.
  destruct info as [[lo hi]|]; [|done]. simpl.
  rewrite widen_min_spec, widen_max_spec. by destruct lo, hi.
Qed.

Lemma set_info_same r : set_info r (ak_info r) = r.
Proof. by destruct r. Qed.

Lemma sample_images_update_idem img s :
  sample_images_update img (sample_images_update img s) = sample_images_update img s.
Proof.
  destruct (sample_images_cases img s)
    as [Hs|[[-> ->]|[(l & -> & _ & _ & ->)|(l & y & -> & _ & _ & ->)]]].
  - by rewrite !Hs.
  - apply sample_images_present. by left.
  - apply sample_images_present. by left.
  - apply sample_images_present. by left.
Qed.

Lemma image_absorbed_link job n r :
  image_absorbed job (link_attribute n (imageUrl job) r).
Proof.
  unfold image_absorbed, link_attribute. simpl.
  destruct (or_null (imageUrl job)); [|done].
  apply sample_images_update_idem.
Qed.

Lemma image_absorbed_erase job n r :
  image_absorbed job r ->
  erase_count (link_attribute n (imageUrl job) r) = erase_count r.
Proof.
  unfold image_absorbed, erase_count. simpl. by intros ->.
Qed.

(** *** What each statement does to a resolved attribute *)

Lemma update_attribute_key_inv c k v d res d1 :
  update_attribute_key pg_numeric c k v d = (inr res, d1) ->
  exists n,
    pg_numeric v = Some n
    /\ tokens d1 = tokens d
    /\ attributes_table d1 = attributes_table d
    /\ token_attributes d1 = token_attributes d
    /\ match attribute_keys d !! (c, k) with
       | None => res = None /\ d1 = d
       | Some r =>
           res = Some (ak_id r)
           /\ attribute_keys d1 = <[(c, k) := updated_key n r]> (attribute_keys d)
       end.
Proof.
  unfold update_attribute_key, updated_key.
  destruct (pg_numeric v) as [n|]; [|done].
  destruct (attribute_keys d !! (c, k)) as [r|] eqn:Hr.
  - destruct (ak_kind r); intros [= <- <-]; exists n; by simpl.
  - intros [= <- <-]. by exists n.
Qed.

Lemma updated_key_id n r : ak_id (updated_key n r) = ak_id r.
Proof. done. Qed.

Lemma updated_key_erase n r : erase_info (updated_key n r) = erase_info r.
Proof. done. Qed.

Lemma resolved_keys_insert job d d1 c k r' b kb ab :
  resolved job d b kb ab ->
  attribute_keys d1 = <[(c, k) := r']> (attribute_keys d) ->
  attributes_table d1 = attributes_table d ->
  (forall r, attribute_keys d !! (c, k) = Some r -> ak_id r' = ak_id r) ->
  resolved job d1 b kb ab.
Proof.
  intros (kr & ar & Hkr & Hid & Har & Haid) Hkeys Hattrs Hsame.
  destruct (decide ((c, k) = (collection job, key b))) as [Heq|Hne].
  - rewrite Heq in *. pose proof (Hsame kr Hkr) as Hid'.
    exists r', ar. rewrite Hkeys, Hattrs, lookup_insert_eq.
    split_and!; try done. congruence.
  - exists kr, ar. rewrite Hkeys, Hattrs, lookup_insert_ne by done. done.
Qed.

Lemma insert_attribute_key_new c a d :
  attribute_keys d !! (c, key a) = None ->
  (insert_attribute_key js_number c a d).1 = Some (attribute_keys_id_seq d)
  /\ tokens (insert_attribute_key js_number c a d).2 = tokens d
  /\ attributes_table (insert_attribute_key js_number c a d).2 = attributes_table d
  /\ token_attributes (insert_attribute_key js_number c a d).2 = token_attributes d
  /\ exists r', attribute_keys (insert_attribute_key js_number c a d).2
               = <[(c, key a) := r']> (attribute_keys d)
       /\ ak_id r' = attribute_keys_id_seq d
       /\ ak_kind r' = kind a
       /\ ak_info r' = new_key_info js_number a.
Proof.
  intros Hnone. unfold insert_attribute_key. rewrite Hnone. simpl.
  split_and!; try done. eexists. split_and!; done.
Qed.

Lemma images_ok_link job aid n T ab :
  (forall k r, T !! k = Some r -> a_id r <> aid -> a_id r = ab -> image_absorbed job r) ->
  images_ok job
    ((fun r => if bool_decide (a_id r = aid)
               then link_attribute n (imageUrl job) r else r) <$> T) ab.
Proof.
  intros HT k r'. rewrite lookup_fmap.
  destruct (T !! k) as [r|] eqn:Hr; [|done]. simpl. intros [= <-].
  case_bool_decide as Hid.
  - intros _. apply image_absorbed_link.
  - intros Hab. by apply (HT k).
Qed.

Lemma link_settles job aid a d b kb ab :
  resolved job d b kb ab ->
  (forall k r, attributes_table d !! k = Some r -> a_id r <> aid -> a_id r = ab ->
               image_absorbed job r) ->
  settled job (insert_token_attribute job aid a d).2 b kb ab.
Proof.
  intros (kr & ar & Hkr & Hid & Har & Haid) Himg. split.
  - unfold insert_token_attribute, IndexReplay.resolved.
    cbn [snd attribute_keys attributes_table].
    eexists kr, _. rewrite lookup_fmap, Har. simpl.
    split_and!; try done. by case_bool_decide.
  - unfold insert_token_attribute. cbn [snd attributes_table].
    by apply images_ok_link.
Qed.

Lemma insert_token_attribute_links job aid a d :
  token_attributes (insert_token_attribute job aid a d).2
  = link_insert job aid a (token_attributes d)
  /\ tokens (insert_token_attribute job aid a d).2 = tokens d
  /\ attribute_keys (insert_token_attribute job aid a d).2 = attribute_keys d.
Proof. done. Qed.

Lemma insert_attribute_resolved job kid a now d b kb ab :
  attributes_table d !! (kid, value a) = None ->
  resolved job d b kb ab ->
  resolved job (insert_attribute kid (collection job) a now d).2 b kb ab.
Proof.
  intros Hnone (kr & ar & Hkr & Hid & Har & Haid).
  unfold insert_attribute. rewrite Hnone.
  unfold IndexReplay.resolved. cbn [snd attribute_keys attributes_table].
  eexists _, ar. rewrite lookup_fmap, Hkr. simpl.
  rewrite lookup_insert_ne by congruence.
  split_and!; try done; by case_bool_decide.
Qed.

Lemma insert_attribute_new job kid a now d kr aid :
  attributes_table d !! (kid, value a) = None ->
  attribute_keys d !! (collection job, key a) = Some kr ->
  ak_id kr = kid ->
  (insert_attribute kid (collection job) a now d).1 = Some aid ->
  aid = attributes_id_seq d
  /\ resolved job (insert_attribute kid (collection job) a now d).2 a kid aid.
Proof.
  intros Hnone Hkr Hid. unfold insert_attribute. rewrite Hnone. cbn [fst].
  destruct (bool_decide _); [|done]. intros [= <-]. split; [done|].
  unfold IndexReplay.resolved. cbn [snd attribute_keys attributes_table].
  eexists _, _. rewrite lookup_fmap, Hkr, lookup_insert_eq. simpl.
  split_and!; try done; by case_bool_decide.
Qed.

Lemma insert_attribute_frame kid c a now d :
  tokens (insert_attribute kid c a now d).2 = tokens d
  /\ token_attributes (insert_attribute kid c a now d).2 = token_attributes d.
Proof. done. Qed.

(** The statements from the select on leave the [info] of every key row
    as it is. *)
Lemma attach_infos job now kid a d :
  (ak_info <$> attribute_keys (attach job now kid a d).2) = (ak_info <$> attribute_keys d)
  /\ (ak_kind <$> attribute_keys (attach job now kid a d).2) = (ak_kind <$> attribute_keys d).
Proof.
  assert (forall n,
            (ak_info <$> ((fun r => if bool_decide (ak_id r = kid)
                                    then add_attribute_count n r else r)
                            <$> attribute_keys d)) = (ak_info <$> attribute_keys d)
            /\ (ak_kind <$> ((fun r => if bool_decide (ak_id r = kid)
                                       then add_attribute_count n r else r)
                               <$> attribute_keys d)) = (ak_kind <$> attribute_keys d))
    as Hcount.
  { intros n. rewrite <-!map_fmap_compose.
    split; apply map_fmap_ext; intros k r _; simpl; by case_bool_decide. }
  unfold attach. destruct (select_attribute kid (value a) d); [done|].
  unfold insert_attribute.
  destruct (attributes_table d !! (kid, value a)); cbn [fst snd];
    destruct (bool_decide _); cbn [fst snd insert_token_attribute attribute_keys];
    apply Hcount.
Qed.

(** From the select on: the attribute ends settled, the link is inserted,
    and what was settled stays settled. *)
Lemma attach_settles job now kid a d d' kr :
  attribute_keys d !! (collection job, key a) = Some kr ->
  ak_id kr = kid ->
  attach job now kid a d = (inr (), d') ->
  exists aid,
    settled job d' a kid aid
    /\ token_attributes d' = link_insert job aid a (token_attributes d)
    /\ tokens d' = tokens d
    /\ (forall b kb ab, settled job d b kb ab -> settled job d' b kb ab).
Proof.
  intros Hkr Hid. unfold attach, select_attribute.
  destruct (attributes_table d !! (kid, value a)) as [ar|] eqn:Har;
    cbn [fmap option_fmap option_map].
  - intros Heq.
    assert (d' = (insert_token_attribute job (a_id ar) a d).2) as -> by congruence.
    clear Heq. exists (a_id ar). split_and!; try done.
    + apply link_settles; [by exists kr, ar|]. congruence.
    + intros b kb ab [Hres Himg]. apply link_settles; [done|].
      intros k r Hr _ Hab. by apply (Himg k r).
  - destruct (insert_attribute kid (collection job) a now d).1 as [aid|] eqn:Hins;
      [|done].
    destruct (insert_attribute_new job kid a now d kr aid Har Hkr Hid Hins)
      as [-> Hres].
    intros Heq.
    assert (d' = (insert_token_attribute job (attributes_id_seq d) a
                    (insert_attribute kid (collection job) a now d).2).2) as ->
      by congruence.
    clear Heq. exists (attributes_id_seq d). split_and!; try done.
    + apply link_settles; [done|]. congruence.
    + intros b kb ab [Hresb Himg]. apply link_settles.
      { by apply insert_attribute_resolved. }
      intros k r. unfold insert_attribute. rewrite Har.
      cbn [snd attributes_table].
      destruct (decide (k = (kid, value a))) as [->|Hne].
      * rewrite lookup_insert_eq. intros [= <-]. done.
      * rewrite lookup_insert_ne by done. intros Hr _ Hab. by apply (Himg k r).
Qed.

Lemma steps_schedule c l w :
  concurrent w = [] -> steps_to (schedule c l) w (inr ()) (db w).
Proof. intros Hc. by eexists. Qed.

Lemma worker_alone_spec job now w :
  concurrent w = [] ->
  steps_to (worker pg_numeric js_number job now) w
    (worker_alone pg_numeric js_number job now (db w)).1
    (worker_alone pg_numeric js_number job now (db w)).2.
Proof.
  intros Hc. unfold worker, worker_alone.
  eapply steps_bind_ok; [by apply steps_query|].
  intros w1 Hd1 Hc1.
  destruct (update_token job now (db w)).1 as [[]|].
  2:{ rewrite <-Hd1. by apply steps_ret. }
  eapply steps_bind_ok; [by apply steps_query|].
  intros w2 Hd2 Hc2.
  eapply steps_bind_ok; [by apply steps_schedule|].
  intros w3 Hd3 Hc3.
  pose proof (for_each_alone_spec job now (attributes job) w3 Hc3) as Hall.
  rewrite Hd3, Hd2, Hd1 in Hall.
  destruct (index_all_alone job now (attributes job) _) as [[e|[]] d'];
    cbn [fst snd] in *.
  - by apply steps_bind_throw.
  - eapply steps_bind_ok; [done|]. intros w4 <- Hc4.
    by apply steps_query.
Qed.

(** *** One attribute, then all of them *)

Lemma settled_attribute_id job d a kid aid :
  settled job d a kid aid -> attribute_id_of job d a = Some aid.
Proof.
  intros [(kr & ar & Hkr & Hid & Har & Haid) _].
  unfold attribute_id_of. rewrite Hkr. simpl. rewrite Hid, Har. simpl. by rewrite Haid.
Qed.

Lemma settled_same_tables job d d' a kid aid :
  attribute_keys d' = attribute_keys d ->
  attributes_table d' = attributes_table d ->
  settled job d a kid aid -> settled job d' a kid aid.
Proof.
  unfold IndexReplay.settled, IndexReplay.resolved. by intros -> ->.
Qed.

Lemma covered_same_keys job d d' a :
  attribute_keys d' = attribute_keys d -> covered job d a -> covered job d' a.
Proof. unfold IndexReplay.covered. by intros ->. Qed.

Lemma covered_infos job d d' a :
  (ak_info <$> attribute_keys d') = (ak_info <$> attribute_keys d) ->
  (ak_kind <$> attribute_keys d') = (ak_kind <$> attribute_keys d) ->
  covered job d a -> covered job d' a.
Proof.
  intros Hinfo Hkind Hcov kr' Hkr'.
  pose proof (f_equal (fun m => m !! (collection job, key a)) Hinfo) as Hi.
  pose proof (f_equal (fun m => m !! (collection job, key a)) Hkind) as Hk.
  cbv beta in Hi, Hk. rewrite !lookup_fmap, Hkr' in Hi. rewrite !lookup_fmap, Hkr' in Hk.
  destruct (attribute_keys d !! (collection job, key a)) as [kr|] eqn:Hkr; [|done].
  simpl in Hi, Hk. injection Hi as Hi. injection Hk as Hk.
  specialize (Hcov kr Hkr). by rewrite Hi, Hk.
Qed.

Lemma covered_update job d d1 c k n r b :
  attribute_keys d !! (c, k) = Some r ->
  attribute_keys d1 = <[(c, k) := updated_key n r]> (attribute_keys d) ->
  covered job d b ->
  covered job d1 b.
Proof.
  intros Hr Hkeys Hcov kr. unfold IndexReplay.covered in Hcov.
  rewrite Hkeys.
  destruct (decide ((c, k) = (collection job, key b))) as [Heq|Hne].
  - rewrite <-Heq, lookup_insert_eq. intros [= <-].
    rewrite <-Heq in Hcov. specialize (Hcov r Hr).
    unfold updated_key. cbn [set_info ak_kind ak_info].
    destruct (ak_kind r); try done.
    intros m Hm. by apply covers_widen, Hcov.
  - rewrite lookup_insert_ne by done. apply Hcov.
Qed.

Lemma covered_update_self job d d1 n r a :
  pg_numeric (value a) = Some n ->
  attribute_keys d1 = <[(collection job, key a) := updated_key n r]> (attribute_keys d) ->
  covered job d1 a.
Proof.
  intros Hn Hkeys kr. rewrite Hkeys.
  rewrite lookup_insert_eq. intros [= <-].
  unfold updated_key. cbn [set_info ak_kind ak_info].
  destruct (ak_kind r); try done.
  intros m Hm. assert (m = n) as -> by congruence. apply covers_widen_self.
Qed.

Lemma update_attribute_key_found c k v n r d :
  pg_numeric v = Some n ->
  attribute_keys d !! (c, k) = Some r ->
  update_attribute_key pg_numeric c k v d
  = (inr (Some (ak_id r)),
     with_attribute_keys d (<[(c, k) := updated_key n r]> (attribute_keys d))).
Proof.
  intros Hn Hr. unfold update_attribute_key, updated_key. rewrite Hn, Hr.
  by destruct (ak_kind r).
Qed.

Lemma fmap_insert_same {A B} (f : A -> B) (m : gmap (string * string) A) k r r' :
  m !! k = Some r -> f r' = f r -> f <$> <[k := r']> m = f <$> m.
Proof.
  intros Hr Hf. rewrite fmap_insert, Hf. apply insert_id.
  by rewrite lookup_fmap, Hr.
Qed.

(** The first run on one attribute. *)
Lemma index_attribute_alone_settles job now a d d' :
  index_attribute_alone job now a d = (inr (), d') ->
  exists kid aid,
    settled job d' a kid aid
    /\ token_attributes d' = link_insert job aid a (token_attributes d)
    /\ tokens d' = tokens d
    /\ (forall b kb ab, settled job d b kb ab -> settled job d' b kb ab)
    /\ is_Some (pg_numeric (value a))
    /\ ((kind a = KNumber ->
         exists n, pg_numeric (value a) = Some n /\ js_number (value a) = Some n) ->
        covered job d' a)
    /\ (forall b kb ab, settled job d b kb ab -> covered job d b -> covered job d' b).
Proof.
  unfold IndexReplay.index_attribute_alone.
  destruct (update_attribute_key pg_numeric (collection job) (key a) (value a) d)
    as [[e|res] d1] eqn:Hu; [done|].
  apply update_attribute_key_inv in Hu as (n & Hn & Ht & Hat & Hta & Hk).
  destruct (attribute_keys d !! (collection job, key a)) as [r|] eqn:Hr.
  - destruct Hk as (-> & Hkeys).
    intros Hatt.
    pose proof (attach_infos job now (ak_id r) a d1) as [Hinfo Hkind].
    rewrite Hatt in Hinfo, Hkind. cbn [snd] in Hinfo, Hkind.
    eapply attach_settles in Hatt as (aid & Hset & Hlinks & Htok & Hpers);
      [|by rewrite Hkeys, lookup_insert_eq|done].
    exists (ak_id r), aid. rewrite Hlinks, Htok, Hta, Ht. split_and!; try done.
    + intros b kb ab [Hres Himg]. apply Hpers. split.
      * eapply resolved_keys_insert; [done|done|done|].
        intros r0 Hr0. assert (r0 = r) as -> by congruence. done.
      * by rewrite Hat.
    + intros _. apply (covered_infos job d1); [done|done|].
      by eapply covered_update_self.
    + intros b kb ab _ Hcov. apply (covered_infos job d1); [done|done|].
      by eapply covered_update.
  - destruct Hk as [-> ->].
    destruct (insert_attribute_key_new (collection job) a d Hr)
      as (-> & Ht2 & Hat2 & Hta2 & r' & Hkeys & Hid & Hkind' & Hinfo').
    intros Hatt.
    pose proof (attach_infos job now (attribute_keys_id_seq d) a
                  (insert_attribute_key js_number (collection job) a d).2)
      as [Hinfo Hkind].
    rewrite Hatt in Hinfo, Hkind. cbn [snd] in Hinfo, Hkind.
    eapply attach_settles in Hatt as (aid & Hset & Hlinks & Htok & Hpers);
      [|by rewrite Hkeys, lookup_insert_eq|done].
    exists (attribute_keys_id_seq d), aid.
    rewrite Hlinks, Htok, Hta2, Ht2. split_and!; try done.
    + intros b kb ab [Hres Himg]. apply Hpers. split.
      * eapply resolved_keys_insert; [done|done|done|].
        intros r0 Hr0. congruence.
      * by rewrite Hat2.
    + intros Hagree.
      apply (covered_infos job (insert_attribute_key js_number (collection job) a d).2);
        [done|done|].
      intros kr. rewrite Hkeys, lookup_insert_eq. intros [= <-].
      rewrite Hkind', Hinfo'. unfold new_key_info.
      destruct (kind a) eqn:Hka; try done.
      destruct Hagree as (m & Hm & Hjs); [done|].
      intros m' Hm'. assert (m' = m) as -> by congruence.
      rewrite Hjs. simpl. lia.
    + intros b kb ab [(kr & ar & Hkr & _) _] Hcov.
      apply (covered_infos job (insert_attribute_key js_number (collection job) a d).2);
        [done|done|].
      intros kr0. rewrite Hkeys.
      rewrite lookup_insert_ne by (intros Heq; rewrite <-Heq in Hkr; congruence).
      apply Hcov.
Qed.

Lemma erase_count_link job aid n T :
  images_ok job T aid ->
  erase_count <$> ((fun r => if bool_decide (a_id r = aid)
                             then link_attribute n (imageUrl job) r else r) <$> T)
  = erase_count <$> T.
Proof.
  intros Himg. rewrite <-map_fmap_compose. apply map_fmap_ext.
  intros k r Hr. simpl. case_bool_decide as Hid; [|done].
  apply image_absorbed_erase. by apply (Himg k r).
Qed.

Lemma as_text_updated n r :
  match ak_kind r with
  | KNumber => covers n (ak_info r)
  | _ => ak_info r = None
  end ->
  as_text (updated_key n r) = as_text r.
Proof.
  unfold as_text, updated_key. cbn [set_info ak_info ak_id ak_kind ak_rank
    ak_attribute_count].
  destruct (ak_kind r); intros H; try (by rewrite H).
  by rewrite texted_widen, (widen_covered n _ H).
Qed.

(** The replay on one attribute: the update writes the key row back, the
    select finds the attribute, the link statement runs. *)
Lemma index_attribute_alone_settled job now a d kid aid n :
  settled job d a kid aid ->
  pg_numeric (value a) = Some n ->
  exists d',
    index_attribute_alone job now a d = (inr (), d')
    /\ token_attributes d' = link_insert job aid a (token_attributes d)
    /\ erase_info <$> attribute_keys d' = erase_info <$> attribute_keys d
    /\ erase_count <$> attributes_table d' = erase_count <$> attributes_table d
    /\ (forall b kb ab, settled job d b kb ab -> settled job d' b kb ab)
    /\ (covered job d a -> as_text <$> attribute_keys d' = as_text <$> attribute_keys d)
    /\ (forall b, covered job d b -> covered job d' b).
Proof.
  intros [(kr & ar & Hkr & Hid & Har & Haid) Himg] Hn.
  set (d1 := with_attribute_keys d
               (<[(collection job, key a) := updated_key n kr]> (attribute_keys d))).
  exists (insert_token_attribute job aid a d1).2. split_and!.
  - unfold IndexReplay.index_attribute_alone.
    rewrite (update_attribute_key_found _ _ _ n kr d Hn Hkr), Hid.
    fold d1. unfold attach, select_attribute.
    change (attributes_table d1) with (attributes_table d).
    rewrite Har. simpl. by rewrite Haid.
  - done.
  - change (attribute_keys (insert_token_attribute job aid a d1).2)
      with (<[(collection job, key a) := updated_key n kr]> (attribute_keys d)).
    by apply (fmap_insert_same erase_info _ _ kr).
  - change (attributes_table (insert_token_attribute job aid a d1).2)
      with ((fun r => if bool_decide (a_id r = aid)
                      then link_attribute
                             (if bool_decide (token_attributes d
                                              !! (contract job, tokenId job, aid) = None)
                              then 1 else 0) (imageUrl job) r
                      else r) <$> attributes_table d).
    by apply erase_count_link.
  - intros b kb ab [Hres Himg']. apply link_settles.
    + eapply resolved_keys_insert; [exact Hres|done|done|].
      intros r0 Hr0. by assert (r0 = kr) as -> by congruence.
    + intros k r Hr _ Hab. by apply (Himg' k r).
  - intros Hcov.
    change (attribute_keys (insert_token_attribute job aid a d1).2)
      with (<[(collection job, key a) := updated_key n kr]> (attribute_keys d)).
    apply (fmap_insert_same as_text _ _ kr); [done|].
    apply as_text_updated. specialize (Hcov kr Hkr).
    destruct (ak_kind kr); try done. by apply Hcov.
  - intros b Hcov. apply (covered_same_keys job d1); [done|].
    by eapply covered_update.
Qed.

Lemma links_of_same job d d' l : forall base,
  (forall a, a ∈ l -> attribute_id_of job d' a = attribute_id_of job d a) ->
  links_of job d' l base = links_of job d l base.
Proof.
  unfold links_of. induction l as [|a l IH]; intros base Hsame; [done|].
  simpl. rewrite Hsame by left. apply IH. intros b Hb. apply Hsame. by right.
Qed.

(** The first run on all of them. *)
Lemma index_all_alone_settles job now l : forall d d',
  index_all_alone job now l d = (inr (), d') ->
  (forall a, a ∈ l -> exists kid aid, settled job d' a kid aid)
  /\ (forall a, a ∈ l -> is_Some (pg_numeric (value a)))
  /\ token_attributes d' = links_of job d' l (token_attributes d)
  /\ tokens d' = tokens d
  /\ (forall b kb ab, settled job d b kb ab -> settled job d' b kb ab)
  /\ ((forall a, a ∈ l -> kind a = KNumber ->
         exists n, pg_numeric (value a) = Some n /\ js_number (value a) = Some n) ->
      forall a, a ∈ l -> covered job d' a)
  /\ (forall b kb ab, settled job d b kb ab -> covered job d b -> covered job d' b).
Proof.
  induction l as [|a l IH]; intros d d'; cbn [IndexReplay.index_all_alone].
  { intros Heq. assert (d' = d) as -> by congruence.
    split_and!; try done; try (by intros a ?%elem_of_nil).
    by intros _ a ?%elem_of_nil. }
  destruct (index_attribute_alone job now a d) as [[e|[]] d1] eqn:Ha; [done|].
  apply index_attribute_alone_settles in Ha
    as (kid & aid & Hset & Hlinks & Htok & Hpers & Hvalid & Hcov & Hkeep).
  intros Hrest.
  apply IH in Hrest as (Hall & Hvalid' & Hlinks' & Htok' & Hpers' & Hcov' & Hkeep').
  split_and!.
  - intros b [->|Hb]%elem_of_cons; [|by apply Hall].
    exists kid, aid. by apply Hpers'.
  - intros b [->|Hb]%elem_of_cons; [done|by apply Hvalid'].
  - rewrite Hlinks', Hlinks. unfold links_of. simpl.
    by rewrite (settled_attribute_id job d' a kid aid (Hpers' _ _ _ Hset)).
  - congruence.
  - intros b kb ab Hb. by apply Hpers', Hpers.
  - intros Hagree b [->|Hb]%elem_of_cons.
    + apply (Hkeep' a kid aid Hset).
      apply Hcov. intros Hk. apply Hagree; [by left|done].
    + apply Hcov'; [|done]. intros c Hc. apply Hagree. by right.
  - intros b kb ab Hsetb Hb.
    apply (Hkeep' b kb ab (Hpers _ _ _ Hsetb)). by apply (Hkeep b kb ab).
Qed.

(** *** The whole job, twice *)

Lemma update_token_none job now d :
  tokens d !! (contract job, tokenId job) = None -> update_token job now d = (None, d).
Proof. intros H. unfold update_token. by rewrite H. Qed.

Lemma update_token_some job now d t :
  tokens d !! (contract job, tokenId job) = Some t ->
  (update_token job now d).1 = Some ()
  /\ attribute_keys (update_token job now d).2 = attribute_keys d
  /\ attributes_table (update_token job now d).2 = attributes_table d
  /\ token_attributes (update_token job now d).2 = token_attributes d
  /\ is_Some (tokens (update_token job now d).2 !! (contract job, tokenId job)).
Proof.
  intros H. unfold update_token. rewrite H. simpl.
  split_and!; try done. rewrite lookup_insert_eq. eauto.
Qed.

Lemma mark_indexed_frame job d :
  attribute_keys (mark_indexed job d).2 = attribute_keys d
  /\ attributes_table (mark_indexed job d).2 = attributes_table d
  /\ token_attributes (mark_indexed job d).2 = token_attributes d
  /\ (is_Some (tokens d !! (contract job, tokenId job)) ->
      is_Some (tokens (mark_indexed job d).2 !! (contract job, tokenId job))).
Proof.
  unfold mark_indexed. simpl. split_and!; try done.
  intros [t Ht]. rewrite Ht.
  destruct (is_distinct_from _ _); [|by rewrite Ht].
  rewrite lookup_insert_eq. eauto.
Qed.

Lemma delete_token_attributes_frame c t d :
  tokens (delete_token_attributes c t d).2 = tokens d
  /\ attribute_keys (delete_token_attributes c t d).2 = attribute_keys d
  /\ attributes_table (delete_token_attributes c t d).2 = attributes_table d
  /\ token_attributes (delete_token_attributes c t d).2
     = filter (fun kv => ~ of_token c t kv.1) (token_attributes d).
Proof. done. Qed.

Lemma filter_link_insert job aid a m :
  filter (fun kv => ~ of_token (contract job) (tokenId job) kv.1) (link_insert job aid a m)
  = filter (fun kv => ~ of_token (contract job) (tokenId job) kv.1) m.
Proof.
  unfold link_insert. case_bool_decide; [|done].
  apply map_filter_insert_not. intros y. simpl. unfold of_token. simpl. tauto.
Qed.

Lemma filter_links_of job d l : forall base,
  filter (fun kv => ~ of_token (contract job) (tokenId job) kv.1) (links_of job d l base)
  = filter (fun kv => ~ of_token (contract job) (tokenId job) kv.1) base.
Proof.
  unfold links_of. induction l as [|a l IH]; intros base; [done|].
  simpl. rewrite IH. destruct (attribute_id_of job d a); [|done].
  apply filter_link_insert.
Qed.

Lemma filter_twice (c t : string) (m : gmap (string * string * positive) TokenAttributeRow) :
  filter (fun kv => ~ of_token c t kv.1) (filter (fun kv => ~ of_token c t kv.1) m)
  = filter (fun kv => ~ of_token c t kv.1) m.
Proof. by apply map_filter_filter_l. Qed.

(** The replay on all of them. *)
Lemma index_all_alone_settled job now l : forall d,
  (forall a, a ∈ l -> exists kid aid, settled job d a kid aid) ->
  (forall a, a ∈ l -> is_Some (pg_numeric (value a))) ->
  exists d',
    index_all_alone job now l d = (inr (), d')
    /\ erase_info <$> attribute_keys d' = erase_info <$> attribute_keys d
    /\ erase_count <$> attributes_table d' = erase_count <$> attributes_table d
    /\ ((forall a, a ∈ l -> covered job d a) ->
        as_text <$> attribute_keys d' = as_text <$> attribute_keys d).
Proof.
  induction l as [|a l IH]; intros d Hall Hvalid; cbn [IndexReplay.index_all_alone].
  { by exists d. }
  destruct (Hall a) as (kid & aid & Hset); [by left|].
  destruct (Hvalid a) as [n Hn]; [by left|].
  destruct (index_attribute_alone_settled job now a d kid aid n Hset Hn)
    as (d1 & -> & _ & Hkeys & Hattrs & Hpers & Htext & Hkeep).
  destruct (IH d1) as (d' & Hrun & Hkeys' & Hattrs' & Htext').
  { intros b Hb. destruct (Hall b) as (kb & ab & Hsetb); [by right|].
    exists kb, ab. by apply Hpers. }
  { intros b Hb. apply Hvalid. by right. }
  exists d'. split_and!; [done|congruence|congruence|].
  intros Hcov. rewrite Htext', Htext; [done|apply Hcov; by left|].
  intros b Hb. apply Hkeep, Hcov. by right.
Qed.

Lemma worker_alone_replay job now1 now2 d d1 :
  worker_alone pg_numeric js_number job now1 d = (inr (), d1) ->
  exists d2,
    worker_alone pg_numeric js_number job now2 d1 = (inr (), d2)
    /\ token_attributes d2 = token_attributes d1
    /\ erase_count <$> attributes_table d2 = erase_count <$> attributes_table d1
    /\ erase_info <$> attribute_keys d2 = erase_info <$> attribute_keys d1
    /\ (numeric_values pg_numeric js_number job ->
        as_text <$> attribute_keys d2 = as_text <$> attribute_keys d1).
Proof.
  unfold worker_alone.
  destruct (tokens d !! (contract job, tokenId job)) as [t|] eqn:Ht.
  2:{ rewrite (update_token_none job now1 d Ht). cbn [fst snd]. intros [= <-].
      rewrite (update_token_none job now2 d Ht). cbn [fst snd]. by exists d. }
  destruct (update_token_some job now1 d t Ht) as (-> & HkA & HaA & HtaA & HtokA).
  destruct (delete_token_attributes_frame (contract job) (tokenId job)
              (update_token job now1 d).2) as (HtokB & HkB & HaB & HtaB).
  set (dB := (delete_token_attributes (contract job) (tokenId job)
                (update_token job now1 d).2).2) in *.
  destruct (index_all_alone job now1 (attributes job) dB) as [[e|[]] dC] eqn:Hrun; [done|].
  intros Heq.
  assert (Hd1 : d1 = (mark_indexed job dC).2) by congruence. clear Heq.
  apply index_all_alone_settles in Hrun
    as (Hall & Hvalid & Hlinks & HtokC & _ & Hcov & _).
  destruct (mark_indexed_frame job dC) as (Hk1 & Ha1 & Hta1 & Htok1).
  rewrite <-Hd1 in Hk1, Ha1, Hta1, Htok1. clear Hd1.
  assert (is_Some (tokens d1 !! (contract job, tokenId job))) as [t1 Ht1].
  { apply Htok1. by rewrite HtokC, HtokB. }
  destruct (update_token_some job now2 d1 t1 Ht1) as (-> & HkA' & HaA' & HtaA' & _).
  destruct (delete_token_attributes_frame (contract job) (tokenId job)
              (update_token job now2 d1).2) as (_ & HkB' & HaB' & HtaB').
  set (dB' := (delete_token_attributes (contract job) (tokenId job)
                 (update_token job now2 d1).2).2) in *.
  assert (Hsettled : forall a, a ∈ attributes job ->
            exists kid aid, settled job dC a kid aid /\ settled job dB' a kid aid).
  { intros a Ha. destruct (Hall a Ha) as (kid & aid & Hset). exists kid, aid.
    split; [done|]. eapply settled_same_tables; [| |exact Hset]; congruence. }
  destruct (index_all_alone_settled job now2 (attributes job) dB')
    as (dC' & Hrun' & Hkeys' & Hattrs' & Htext').
  { intros a Ha. destruct (Hsettled a Ha) as (kid & aid & _ & Hset). eauto. }
  { done. }
  rewrite Hrun'.
  destruct (mark_indexed_frame job dC') as (Hk2 & Ha2 & Hta2 & _).
  exists (mark_indexed job dC').2. split_and!.
  - done.
  - apply index_all_alone_settles in Hrun' as (_ & _ & Hlinks' & _ & Hpers' & _).
    rewrite Hta2, Hlinks', Hta1, Hlinks.
    assert (token_attributes dB' = token_attributes dB) as ->.
    { rewrite HtaB', HtaA', Hta1, Hlinks, filter_links_of, HtaB. apply filter_twice. }
    apply links_of_same. intros a Ha.
    destruct (Hsettled a Ha) as (kid & aid & HsetC & HsetB').
    rewrite (settled_attribute_id job dC a kid aid HsetC).
    apply (settled_attribute_id job dC' a kid aid). by apply Hpers'.
  - rewrite Ha2, Hattrs'. congruence.
  - rewrite Hk2, Hkeys'. congruence.
  - intros Hnum. rewrite Hk2, Htext'; [congruence|].
    intros a Ha. apply (covered_same_keys job dC); [congruence|].
    apply Hcov; [|done]. intros b Hb Hk. by apply Hnum.
Qed.

Lemma worker_alone_result job now d r w' :
  worker pg_numeric js_number job now (alone d) = (r, w') ->
  worker_alone pg_numeric js_number job now d = (r, db w').
Proof.
  intros Hrun.
  destruct (worker_alone_spec job now (alone d) eq_refl) as (w & Hw & Hd & _).
  simpl in Hw, Hd. rewrite Hrun in Hw. injection Hw as -> ->.
  rewrite Hd. by destruct (worker_alone _ _ _ _ _).
Qed.


End ReplayFacts.

Section ReplayExamples.

Import MetadataIndex IndexReplay Decimal IndexFixtures.


Lemma level_job_numeric v n :
  numeric v = Some n -> number v = Some n ->
  numeric_values numeric number (level_job v).
Proof.
  intros Hv Hn a Ha _. apply list_elem_of_singleton in Ha as ->. by exists n.
Qed.


End ReplayExamples.

(** ** The bid-event feed *)

Section FeedFacts.

Import BidEvents FeedOrder.

Context (buildContinuation : Z -> Z -> string)
        (splitContinuation : string -> JsError + Z * Z).

#[local] Abbreviation conditions := (conditions splitContinuation).
#[local] Abbreviation rawResult := (rawResult splitContinuation).
#[local] Abbreviation handler := (handler buildContinuation splitContinuation).
#[local] Abbreviation follow := (follow buildContinuation splitContinuation).
#[local] Abbreviation codec_round_trips :=
  (codec_round_trips buildContinuation splitContinuation).
#[local] Abbreviation cursor_after := (cursor_after buildContinuation).

(** *** The order *)

#[local] Instance sorted_before_total d : Total (sorted_before d).
Proof.
  intros x y. destruct d; unfold sorted_before, row_lt; simpl; lia.
Qed.

#[local] Instance sorted_before_trans d : Transitive (sorted_before d).
Proof.
  intros x y z. destruct d; unfold sorted_before, row_lt; simpl; lia.
Qed.

Lemma sorted_before_same_key d x y :
  sorted_before d x y -> sorted_before d y x -> id x = id y.
Proof. destruct d; unfold sorted_before, row_lt; simpl; lia. Qed.

Lemma strictly_before_not_back d x y :
  sorted_before d y x -> ~ strictly_before d x y.
Proof. destruct d; unfold sorted_before, strictly_before; tauto. Qed.

Lemma strictly_before_or_same d x y :
  sorted_before d x y -> id x <> id y -> strictly_before d x y.
Proof.
  destruct d; unfold sorted_before, strictly_before, row_lt; simpl; lia.
Qed.

Lemma after_cursor_strictly d r e :
  after_cursor d (sort_key r) e <-> strictly_before d r e.
Proof. destruct d; simpl; apply bool_decide_spec. Qed.

Lemma same_id_same_row (log : list BidEventRow) x y :
  NoDup (id <$> log) -> x ∈ log -> y ∈ log -> id x = id y -> x = y.
Proof.
  induction log as [|e log IH]; [by intros _ ?%elem_of_nil|].
  rewrite fmap_cons, NoDup_cons. intros [Hout Hnd] Hx Hy Hid.
  apply elem_of_cons in Hx as [->|Hx]; apply elem_of_cons in Hy as [->|Hy].
  - done.
  - exfalso. apply Hout. rewrite Hid. by apply list_elem_of_fmap_2.
  - exfalso. apply Hout. rewrite <-Hid. by apply list_elem_of_fmap_2.
  - by apply IH.
Qed.

Lemma filter_all {A} (P : A -> Prop) `{forall x, Decision (P x)} (l : list A) :
  (forall x, x ∈ l -> P x) -> filter P l = l.
Proof.
  induction l as [|x l IH]; intros HP; [done|].
  rewrite filter_cons_True by (apply HP; by left).
  f_equal. apply IH. intros y Hy. apply HP. by right.
Qed.

Lemma filter_none {A} (P : A -> Prop) `{forall x, Decision (P x)} (l : list A) :
  (forall x, x ∈ l -> ~ P x) -> filter P l = [].
Proof.
  induction l as [|x l IH]; intros HP; [done|].
  rewrite filter_cons_False by (apply HP; by left).
  apply IH. intros y Hy. apply HP. by right.
Qed.

(** *** One page *)

Section Pages.

Context (log : list BidEventRow) (q : Query).
Context (Hunique : NoDup (id <$> log)).
Context (Hcodec : codec_round_trips log).

#[local] Abbreviation matching := (matching log q).

Lemma matching_sorted : StronglySorted (sorted_before (sortDirection q)) matching.
Proof. apply StronglySorted_merge_sort; apply _. Qed.

Lemma matching_perm : matching ≡ₚ filter (fun e => filters q e) log.
Proof. apply merge_sort_Permutation. Qed.

Lemma matching_in_log x : x ∈ matching -> x ∈ log.
Proof.
  rewrite matching_perm. intros Hx. by apply list_elem_of_filter in Hx as [_ ?].
Qed.

Lemma matching_NoDup : NoDup matching.
Proof.
  rewrite matching_perm. apply NoDup_filter. by apply NoDup_fmap_1 in Hunique.
Qed.

Lemma conditions_split c e :
  conditions (with_continuation q c) e
  <-> cursor_condition splitContinuation (sortDirection q) c e /\ filters q e.
Proof.
  unfold BidEvents.conditions, cursor_condition. simpl.
  rewrite andb_True. tauto.
Qed.

Lemma cursor_cuts pre rest c :
  matching = pre ++ rest ->
  cursor_after pre c ->
  filter (fun e => cursor_condition splitContinuation (sortDirection q) c e) matching
  = rest.
Proof.
  intros Hsplit Hcur. pose proof matching_sorted as Hsorted.
  pose proof matching_NoDup as Hnd. rewrite Hsplit in Hsorted, Hnd.
  rewrite Hsplit, filter_app. unfold FeedOrder.cursor_after in Hcur.
  destruct (last pre) as [r|] eqn:Hlast.
  - apply last_Some in Hlast as [pre0 ->]. subst c.
    assert (Hr : r ∈ log).
    { apply matching_in_log. rewrite Hsplit. set_solver. }
    destruct (Hcodec r Hr) as [Htruthy Hback].
    assert (Hcond : forall e,
              cursor_condition splitContinuation (sortDirection q)
                (Some (buildContinuation (created_at r) (id r))) e
              <-> strictly_before (sortDirection q) r e).
    { intros e. unfold cursor_condition. rewrite Htruthy, Hback.
      apply after_cursor_strictly. }
    rewrite filter_none, filter_all; [done| |].
    + intros y Hy. apply Hcond. apply strictly_before_or_same.
      * eapply StronglySorted_app_1_elem_of; [exact Hsorted| |exact Hy]. set_solver.
      * intros Hid. apply NoDup_app in Hnd as (_ & Hdisj & _).
        apply (Hdisj r); [set_solver|].
        assert (r = y) as ->; [|done].
        apply (same_id_same_row log); [done|done| |done].
        apply matching_in_log. rewrite Hsplit. set_solver.
    + intros x Hx. rewrite Hcond. apply strictly_before_not_back.
      apply StronglySorted_app_1_l in Hsorted.
      apply elem_of_app in Hx as [Hx|Hx%list_elem_of_singleton].
      * eapply StronglySorted_app_1_elem_of; [exact Hsorted|exact Hx|by left].
      * subst x. destruct (total (sorted_before (sortDirection q)) r r); done.
  - assert (pre = []) as ->.
    { destruct pre as [|x pre]; [done|].
      assert (is_Some (last (x :: pre))) as [? ?] by (by apply last_is_Some).
      congruence. }
    subst c. simpl. by apply filter_all.
Qed.

(** The rows a request with the reader's continuation gets: the next
    [limit] rows of the matching ones. *)
Lemma rawResult_next pre rest c :
  matching = pre ++ rest ->
  cursor_after pre c ->
  rawResult log (with_continuation q c) = take (limit q) rest.
Proof.
  intros Hsplit Hcur. unfold BidEvents.rawResult. simpl. f_equal.
  assert (Hrest_log : forall x, x ∈ rest -> x ∈ log).
  { intros x Hx. apply matching_in_log. rewrite Hsplit. set_solver. }
  apply (StronglySorted_unique_strong (sorted_before (sortDirection q))).
  - intros x1 x2 Hx1 Hx2 H12 H21.
    apply (same_id_same_row log); [done| |by apply Hrest_log|].
    + rewrite merge_sort_Permutation in Hx1.
      by apply list_elem_of_filter in Hx1 as [_ ?].
    + by apply (sorted_before_same_key (sortDirection q)).
  - apply StronglySorted_merge_sort; apply _.
  - pose proof matching_sorted as Hsorted. rewrite Hsplit in Hsorted.
    by apply StronglySorted_app_1_r in Hsorted.
  - rewrite merge_sort_Permutation.
    rewrite <-(cursor_cuts pre rest c Hsplit Hcur).
    rewrite matching_perm, list_filter_filter.
    erewrite list_filter_iff; [done|]. apply conditions_split.
Qed.

Lemma matching_strictly_sorted :
  StronglySorted (strictly_before (sortDirection q)) matching.
Proof.
  pose proof matching_sorted as Hsorted. pose proof matching_NoDup as Hnd.
  pose proof matching_in_log as Hin.
  induction Hsorted as [|x l Hl IH Hx]; [constructor|].
  apply NoDup_cons in Hnd as [Hout Hnd].
  constructor.
  - apply IH; [done|]. intros y Hy. apply Hin. by right.
  - rewrite Forall_forall in Hx |- *. intros y Hy.
    apply strictly_before_or_same; [by apply Hx|].
    intros Hid. apply Hout.
    assert (x = y) as ->; [|done].
    apply (same_id_same_row log); [done| | |done]; apply Hin; [by left|by right].
Qed.

(** The continuation a reader holds can be read. *)
Lemma cursor_readable pre rest c :
  matching = pre ++ rest ->
  cursor_after pre c ->
  cursor_error splitContinuation (with_continuation q c) = None.
Proof.
  intros Hsplit Hcur. unfold FeedOrder.cursor_after in Hcur.
  unfold cursor_error. cbn [continuation with_continuation].
  destruct (last pre) as [r|] eqn:Hlast; [|by subst c].
  apply last_Some in Hlast as [pre0 ->]. subst c.
  assert (Hr : r ∈ log).
  { apply matching_in_log. rewrite Hsplit. set_solver. }
  destruct (Hcodec r Hr) as [-> ->]. done.
Qed.

Context (Hlimit : (1 <= limit q)%nat).

(** A full page: [limit] rows and the continuation of the last one. *)
Lemma handler_full pre rest c :
  matching = pre ++ rest ->
  cursor_after pre c ->
  (limit q <= length rest)%nat ->
  exists r,
    last (take (limit q) rest) = Some r
    /\ handler log (with_continuation q c)
       = inr {| events := take (limit q) rest;
                r_continuation := Some (buildContinuation (created_at r) (id r)) |}.
Proof.
  intros Hsplit Hcur Hlen. unfold BidEvents.handler.
  rewrite (cursor_readable pre rest c Hsplit Hcur).
  rewrite (rawResult_next pre rest c Hsplit Hcur). simpl.
  rewrite bool_decide_eq_true_2 by (by apply length_take_le).
  destruct (last (take (limit q) rest)) as [r|] eqn:Hlast; [by exists r|].
  assert (is_Some (last (take (limit q) rest))) as [? ?]; [|congruence].
  apply last_is_Some. intros Hnil.
  apply (f_equal length) in Hnil. rewrite length_take_le in Hnil by done.
  simpl in Hnil. lia.
Qed.

(** A short page: what is left, and no continuation. *)
Lemma handler_short pre rest c :
  matching = pre ++ rest ->
  cursor_after pre c ->
  (length rest < limit q)%nat ->
  handler log (with_continuation q c) = inr {| events := rest; r_continuation := None |}.
Proof.
  intros Hsplit Hcur Hlen. unfold BidEvents.handler.
  rewrite (cursor_readable pre rest c Hsplit Hcur).
  rewrite (rawResult_next pre rest c Hsplit Hcur). simpl.
  rewrite take_ge by lia.
  by rewrite bool_decide_eq_false_2 by lia.
Qed.

(** *** Following the continuations *)

Lemma follow_from fuel : forall pre rest c,
  matching = pre ++ rest ->
  cursor_after pre c ->
  (length rest < fuel)%nat ->
  exists pages last_page,
    follow fuel log q c = Some (pages ++ [last_page])
    /\ concat (events <$> (pages ++ [last_page])) = rest
    /\ Forall (fun p => length (events p) = limit q /\ is_Some (r_continuation p)) pages
    /\ (length (events last_page) < limit q)%nat
    /\ r_continuation last_page = None.
Proof.
  induction fuel as [|n IH]; intros pre rest c Hsplit Hcur Hfuel; [lia|].
  cbn [BidEvents.follow].
  destruct (decide (limit q <= length rest)%nat) as [Hfull|Hshort].
  - destruct (handler_full pre rest c Hsplit Hcur Hfull) as (r & Hlast & ->).
    cbn [r_continuation].
    destruct (IH (pre ++ take (limit q) rest) (drop (limit q) rest)
                (Some (buildContinuation (created_at r) (id r))))
      as (pages & last_page & Hrun & Hcat & Hpages & Hshort & Hnone).
    + by rewrite <-app_assoc, take_drop.
    + unfold FeedOrder.cursor_after. by rewrite last_app, Hlast.
    + rewrite length_drop. lia.
    + eexists (_ :: pages), last_page. rewrite Hrun. split_and!; try done.
      * rewrite <-app_comm_cons, fmap_cons. cbn [concat events]. rewrite Hcat.
        apply take_drop.
      * constructor; [|done]. cbn [events r_continuation].
        split; [by apply length_take_le|eauto].
  - rewrite (handler_short pre rest c Hsplit Hcur) by lia.
    cbn [r_continuation].
    eexists [], _. split_and!; try done.
    + simpl. by rewrite app_nil_r.
    + simpl. lia.
Qed.

End Pages.

(** C3: on a log whose rows have distinct ids, for any contract and time
    filter, either direction and a limit of at least 1, a reader that starts
    without continuation and follows each continuation it is given comes to
    an end (any fuel beyond the length of the log is enough), and the pages
    it has got, one after the other, hold every matching row once, in the
    strict order of (createdAt, id) in the direction asked for; every page
    but the last holds [limit] rows and carries a continuation, and the
    last, the first with fewer rows, carries none. The continuation of a
    row is taken to be a non-empty string that splits back into the row's
    (createdAt, id). *)
Theorem feed_pages_are_complete log q fuel :
  NoDup (id <$> log) ->
  codec_round_trips log ->
  (1 <= limit q)%nat ->
  (length log < fuel)%nat ->
  exists pages last_page,
    follow fuel log q None = Some (pages ++ [last_page])
    /\ concat (events <$> (pages ++ [last_page])) ≡ₚ filter (fun e => filters q e) log
    /\ NoDup (concat (events <$> (pages ++ [last_page])))
    /\ StronglySorted (strictly_before (sortDirection q))
         (concat (events <$> (pages ++ [last_page])))
    /\ Forall (fun p => length (events p) = limit q /\ is_Some (r_continuation p)) pages
    /\ (length (events last_page) < limit q)%nat
    /\ r_continuation last_page = None.
Proof.
  intros Hunique Hcodec Hlimit Hfuel.
  destruct (follow_from log q Hunique Hcodec Hlimit fuel [] (FeedOrder.matching log q) None)
    as (pages & last_page & Hrun & Hcat & Hpages & Hshort & Hnone).
  - done.
  - done.
  - rewrite (matching_perm log q).
    pose proof (length_filter (fun e => filters q e) log). lia.
  - exists pages, last_page. rewrite Hcat. split_and!; try done.
    + apply matching_perm.
    + by apply matching_NoDup.
    + by apply matching_strictly_sorted.
Qed.


End FeedFacts.

Section FeedExamples.

Import BidEvents FeedOrder FeedFixtures.

Lemma small_log_round_trips : codec_round_trips plain_build plain_split small_log.
Proof.
  intros e He. unfold small_log in He.
  repeat (apply elem_of_cons in He as [->|He]; [by vm_compute|]).
  by apply elem_of_nil in He.
Qed.

(** The pages of the small log, by their ids, in both directions. *)
Example small_log_pages :
  (fun pages : list Response => (fun p : Response => id <$> events p) <$> pages)
    <$> follow plain_build plain_split 6 small_log (by_two asc) None
  = Some [[1; 2]; [3; 4]; [5]]
  /\ (fun pages : list Response => (fun p : Response => id <$> events p) <$> pages)
       <$> follow plain_build plain_split 6 small_log (by_two desc) None
     = Some [[5; 4]; [3; 2]; [1]].
Proof. by vm_compute. Qed.

Lemma feed_pages_are_complete_witness :
  exists pages last_page,
    follow plain_build plain_split 6 small_log (by_two asc) None
    = Some (pages ++ [last_page])
    /\ concat (events <$> (pages ++ [last_page]))
       ≡ₚ filter (fun e => filters (by_two asc) e) small_log
    /\ NoDup (concat (events <$> (pages ++ [last_page])))
    /\ StronglySorted (strictly_before asc) (concat (events <$> (pages ++ [last_page])))
    /\ Forall (fun p => length (events p) = 2%nat /\ is_Some (r_continuation p)) pages
    /\ (length (events last_page) < 2)%nat
    /\ r_continuation last_page = None.
Proof.
  apply (feed_pages_are_complete plain_build plain_split small_log (by_two asc) 6).
  - apply (bool_decide_unpack _). by vm_compute.
  - exact small_log_round_trips.
  - simpl. lia.
  - simpl. lia.
Defined.

End FeedExamples.

(** ** More of [Collections] *)

Section BestOrderFacts.

Import Collections.

#[local] Instance ask_order_total : Total ask_order.
Proof. intros a b. unfold ask_order. lia. Qed.

#[local] Instance ask_order_trans : Transitive ask_order.
Proof. intros a b c. unfold ask_order. lia. Qed.

#[local] Instance bid_order_total : Total bid_order.
Proof. intros a b. unfold bid_order. lia. Qed.

#[local] Instance bid_order_trans : Transitive bid_order.
Proof. intros a b c. unfold bid_order. lia. Qed.

(** The first row of a sorted non-empty selection is one of the rows and is
    ordered before every row. *)
Lemma head_merge_sort {A} (R : relation A) `{forall x y, Decision (R x y)}
    `{!Total R, !Transitive R} (l : list A) :
  l <> [] ->
  exists x, head (merge_sort R l) = Some x /\ x ∈ l /\ forall y, y ∈ l -> R x y.
Proof.
  intros Hne.
  pose proof (merge_sort_Permutation R l) as Hperm.
  pose proof (StronglySorted_merge_sort R l) as Hsorted.
  destruct (merge_sort R l) as [|x s] eqn:Hs.
  { by apply Permutation_nil_l in Hperm. }
  exists x. split; [done|]. split.
  - rewrite <-Hperm. by left.
  - intros y Hy. rewrite <-Hperm in Hy.
    apply StronglySorted_cons in Hsorted as [Hall _].
    apply elem_of_cons in Hy as [->|Hy].
    + destruct (total R x x); done.
    + rewrite Forall_forall in Hall. by apply Hall.
Qed.

Lemma live_order_spec side o :
  live_order side o = true <->
  o_side o = side /\ o_fillability_status o = "fillable"
  /\ o_approval_status o = "approved"
  /\ (o_taker o = None \/ o_taker o = Some zero_address).
Proof.
  unfold live_order, open_taker.
  rewrite !andb_true_iff, !bool_decide_eq_true.
  destruct (o_taker o) as [t|].
  - rewrite bool_decide_eq_true. naive_solver.
  - naive_solver.
Qed.

Lemma floor_ask_candidate db collection o :
  o ∈ floor_ask_candidates db collection <->
  o ∈ orders db /\ live_order "sell" o = true
  /\ exists tst t,
       tst ∈ token_sets_tokens db /\ t ∈ tokens db
       /\ o_token_set_id o = tst_token_set_id tst
       /\ tst_contract tst = t_contract t /\ tst_token_id tst = t_token_id t
       /\ t_collection_id t = Some collection.
Proof.
  unfold floor_ask_candidates. rewrite list_elem_of_bind. split.
  - intros (o' & Ho & Ho').
    apply list_elem_of_bind in Ho as (tst & Ho & Htst).
    apply list_elem_of_bind in Ho as (t & Ho & Ht).
    destruct (_ && _) eqn:Hc; [|by apply elem_of_nil in Ho].
    apply list_elem_of_singleton in Ho as ->.
    rewrite !andb_true_iff, !bool_decide_eq_true in Hc.
    naive_solver.
  - intros (Ho & Hlive & tst & t & Htst & Ht & H1 & H2 & H3 & H4).
    exists o. split; [|done].
    apply list_elem_of_bind. exists tst. split; [|done].
    apply list_elem_of_bind. exists t. split; [|done].
    rewrite !bool_decide_eq_true_2 by done. rewrite Hlive. simpl. by left.
Qed.

Lemma top_buy_candidate db collection o :
  o ∈ top_buy_candidates db collection <->
  o ∈ orders db /\ live_order "buy" o = true
  /\ exists ts,
       ts ∈ token_sets db /\ o_token_set_id o = ts_id ts
       /\ ts_collection_id ts = Some collection /\ ts_attribute_id ts = None.
Proof.
  unfold top_buy_candidates. rewrite list_elem_of_bind. split.
  - intros (o' & Ho & Ho').
    apply list_elem_of_bind in Ho as (ts & Ho & Hts).
    destruct (_ && _) eqn:Hc; [|by apply elem_of_nil in Ho].
    apply list_elem_of_singleton in Ho as ->.
    rewrite !andb_true_iff, !bool_decide_eq_true in Hc.
    naive_solver.
  - intros (Ho & Hlive & ts & Hts & H1 & H2 & H3).
    exists o. split; [|done].
    apply list_elem_of_bind. exists ts. split; [|done].
    rewrite !bool_decide_eq_true_2 by done. rewrite Hlive. simpl. by left.
Qed.

(** When a collection has a live sell order, [revalidateCollectionFloorAsk]
    enqueues one job and no more, for an order that is live and on a token
    of the collection and that no other such order undercuts in value, nor
    in fee at equal value. *)
Theorem revalidate_floor_ask_enqueues_the_floor db now collection :
  floor_ask_candidates db collection <> [] ->
  (forall o, o ∈ orders db -> truthy_string (o_id o) = true) ->
  exists r,
    revalidateCollectionFloorAsk db now collection
    = (inr (),
       [ {| context := "revalidate-collection-floor-sell-" +:+ o_id r +:+ "-"
                         +:+ pretty now;
            id := o_id r;
            trigger_kind := "revalidation" |} ])
    /\ r ∈ orders db
    /\ o_side r = "sell" /\ o_fillability_status r = "fillable"
    /\ o_approval_status r = "approved"
    /\ (o_taker r = None \/ o_taker r = Some zero_address)
    /\ (exists t, t ∈ tokens db /\ t_collection_id t = Some collection
                  /\ exists tst, tst ∈ token_sets_tokens db
                       /\ o_token_set_id r = tst_token_set_id tst
                       /\ tst_contract tst = t_contract t
                       /\ tst_token_id tst = t_token_id t)
    /\ (forall o, o ∈ floor_ask_candidates db collection ->
          o_value r < o_value o
          \/ (o_value r = o_value o /\ o_fee_bps r <= o_fee_bps o)).
Proof.
  intros Hne Hids.
  destruct (head_merge_sort ask_order (floor_ask_candidates db collection) Hne)
    as (r & Hhead & Hin & Hmin).
  pose proof Hin as Hcand.
  apply floor_ask_candidate in Hcand
    as (Ho & Hlive & tst & t & Htst & Ht & H1 & H2 & H3 & H4).
  apply live_order_spec in Hlive as (Hs & Hf & Ha & Htk).
  exists r. split_and!; try done.
  - unfold revalidateCollectionFloorAsk, floorAskOrderResult, revalidate.
    rewrite Hhead. by rewrite (Hids r Ho).
  - exists t. split_and!; try done. by exists tst.
Qed.

(** When a collection has a live collection-wide buy order,
    [revalidateCollectionTopBuy] enqueues one job and no more, for such an
    order of the highest value. *)
Theorem revalidate_top_buy_enqueues_the_top db now collection :
  top_buy_candidates db collection <> [] ->
  (forall o, o ∈ orders db -> truthy_string (o_id o) = true) ->
  exists r,
    revalidateCollectionTopBuy db now collection
    = (inr (),
       [ {| context := "revalidate-collection-top-buy-" +:+ o_id r +:+ "-"
                         +:+ pretty now;
            id := o_id r;
            trigger_kind := "revalidation" |} ])
    /\ r ∈ orders db
    /\ o_side r = "buy" /\ o_fillability_status r = "fillable"
    /\ o_approval_status r = "approved"
    /\ (o_taker r = None \/ o_taker r = Some zero_address)
    /\ (exists ts, ts ∈ token_sets db /\ o_token_set_id r = ts_id ts
                   /\ ts_collection_id ts = Some collection
                   /\ ts_attribute_id ts = None)
    /\ (forall o, o ∈ top_buy_candidates db collection -> o_value o <= o_value r).
Proof.
  intros Hne Hids.
  destruct (head_merge_sort bid_order (top_buy_candidates db collection) Hne)
    as (r & Hhead & Hin & Hmin).
  pose proof Hin as Hcand.
  apply top_buy_candidate in Hcand as (Ho & Hlive & ts & Hts & H1 & H2 & H3).
  apply live_order_spec in Hlive as (Hs & Hf & Ha & Htk).
  exists r. split_and!; try done.
  - unfold revalidateCollectionTopBuy, topBuyOrderResult, revalidate.
    rewrite Hhead. by rewrite (Hids r Ho).
  - by exists ts.
Qed.

Lemma open_db_ids o :
  o ∈ orders MarketFixtures.open_db -> truthy_string (o_id o) = true.
Proof.
  unfold MarketFixtures.open_db. cbn [orders]. rewrite !elem_of_cons, elem_of_nil.
  intros [->|[->|[->|[->|[]]]]]; reflexivity.
Qed.

Lemma revalidate_floor_ask_enqueues_the_floor_witness :
  exists r,
    revalidateCollectionFloorAsk MarketFixtures.open_db 200 "0xc0"
    = (inr (),
       [ {| context := "revalidate-collection-floor-sell-" +:+ o_id r +:+ "-"
                         +:+ pretty 200;
            id := o_id r;
            trigger_kind := "revalidation" |} ])
    /\ o_side r = "sell".
Proof.
  destruct (revalidate_floor_ask_enqueues_the_floor MarketFixtures.open_db 200 "0xc0")
    as (r & Hr & _ & Hs & _).
  - by vm_compute.
  - apply open_db_ids.
  - by exists r.
Defined.

Lemma revalidate_top_buy_enqueues_the_top_witness :
  exists r,
    revalidateCollectionTopBuy MarketFixtures.open_db 200 "0xc0"
    = (inr (),
       [ {| context := "revalidate-collection-top-buy-" +:+ o_id r +:+ "-"
                         +:+ pretty 200;
            id := o_id r;
            trigger_kind := "revalidation" |} ])
    /\ o_side r = "buy".
Proof.
  destruct (revalidate_top_buy_enqueues_the_top MarketFixtures.open_db 200 "0xc0")
    as (r & Hr & _ & Hs & _).
  - by vm_compute.
  - apply open_db_ids.
  - by exists r.
Defined.

End BestOrderFacts.

Section FloorCacheFacts.

Import Collections.

#[local] Instance floor_value_order_total : Total floor_value_order.
Proof.
  intros a b. unfold floor_value_order.
  destruct (x_floor_sell_value a), (x_floor_sell_value b); simpl; lia.
Qed.

#[local] Instance floor_value_order_trans : Transitive floor_value_order.
Proof.
  intros a b c. unfold floor_value_order.
  destruct (x_floor_sell_value a), (x_floor_sell_value b), (x_floor_sell_value c);
    simpl; lia.
Qed.

Lemma floor_subquery_cases db collection :
  (floor_join db collection = [] /\ floor_subquery db collection = [])
  \/ exists x,
       floor_subquery db collection = [x]
       /\ x ∈ floor_join db collection
       /\ forall y, y ∈ floor_join db collection ->
            le_nulls_last (x_floor_sell_value x) (x_floor_sell_value y).
Proof.
  unfold floor_subquery.
  destruct (decide (floor_join db collection = [])) as [->|Hne]; [by left|].
  right.
  destruct (head_merge_sort floor_value_order (floor_join db collection) Hne)
    as (x & Hhead & Hin & Hmin).
  exists x. split_and!; [|done|done].
  destruct (merge_sort _ _) as [|x' s]; simplify_eq/=. by rewrite take_0.
Qed.

Lemma floor_join_row db collection x :
  x ∈ floor_join db collection ->
  exists t o,
    t ∈ tokens db /\ o ∈ orders db
    /\ t_collection_id t = Some collection
    /\ t_floor_sell_id t = Some (o_id o)
    /\ x = {| x_floor_sell_id := t_floor_sell_id t;
              x_floor_sell_value := t_floor_sell_value t;
              x_floor_sell_maker := t_floor_sell_maker t;
              x_source_id_int := o_source_id_int o;
              x_valid_between := o_valid_between o |}.
Proof.
  unfold floor_join. intros Hx.
  apply list_elem_of_bind in Hx as (t & Hx & Ht).
  apply list_elem_of_bind in Hx as (o & Hx & Ho).
  destruct (_ && _) eqn:Hc; [|by apply elem_of_nil in Hx].
  apply list_elem_of_singleton in Hx.
  rewrite andb_true_iff, !bool_decide_eq_true in Hc.
  exists t, o. naive_solver.
Qed.

Lemma update_from_one collection now x c :
  update_from collection now [x] c
  = if floor_changed collection c x then write_floor now c x else c.
Proof. unfold update_from. simpl. by destruct (floor_changed collection c x). Qed.

Lemma floor_changed_written collection now c x :
  floor_changed collection (write_floor now c x) x = false.
Proof.
  unfold floor_changed. simpl. rewrite !is_distinct_from_refl.
  by rewrite andb_false_r.
Qed.

(** After [recalculateCollectionFloorSell] on a collection with a listed
    token, the collection's row caches the id and value of a listing of one
    of its tokens whose floor value no other listed token of the collection
    undercuts; a row it had to write carries the maker, source and validity
    of that listing as well, and the time of the write. *)
Theorem recalculate_caches_the_lowest_listing db now collection :
  floor_join db collection <> [] ->
  exists t o,
    t ∈ tokens db /\ o ∈ orders db
    /\ t_collection_id t = Some collection
    /\ t_floor_sell_id t = Some (o_id o)
    /\ (forall t' o', t' ∈ tokens db -> o' ∈ orders db ->
          t_collection_id t' = Some collection ->
          t_floor_sell_id t' = Some (o_id o') ->
          le_nulls_last (t_floor_sell_value t) (t_floor_sell_value t'))
    /\ forall i c,
         collections db !! i = Some c -> c_id c = collection ->
         exists c',
           collections (recalculateCollectionFloorSell db now collection) !! i = Some c'
           /\ c_id c' = collection
           /\ c_floor_sell_id c' = t_floor_sell_id t
           /\ c_floor_sell_value c' = t_floor_sell_value t
           /\ (c' = c
               \/ (c_floor_sell_maker c' = t_floor_sell_maker t
                   /\ c_floor_sell_source_id_int c' = o_source_id_int o
                   /\ c_floor_sell_valid_between c' = o_valid_between o
                   /\ c_updated_at c' = now)).
Proof.
  intros Hne.
  destruct (floor_subquery_cases db collection) as [[Hnil _]|(x & Hx & Hin & Hmin)];
    [done|].
  destruct (floor_join_row db collection x Hin) as (t & o & Ht & Ho & Hc & Hid & ->).
  exists t, o. split_and!; try done.
  - intros t' o' Ht' Ho' Hc' Hid'.
    apply (Hmin {| x_floor_sell_id := t_floor_sell_id t';
                   x_floor_sell_value := t_floor_sell_value t';
                   x_floor_sell_maker := t_floor_sell_maker t';
                   x_source_id_int := o_source_id_int o';
                   x_valid_between := o_valid_between o' |}).
    unfold floor_join.
    apply list_elem_of_bind. exists t'. split; [|done].
    apply list_elem_of_bind. exists o'. split; [|done].
    rewrite !bool_decide_eq_true_2 by done. simpl. by left.
  - intros i c Hi Hcid.
    unfold recalculateCollectionFloorSell. cbn [collections].
    rewrite Hx, list_lookup_fmap, Hi. simpl. eexists. split; [done|].
    rewrite update_from_one.
    destruct (floor_changed collection c _) eqn:Hch; simpl.
    + split_and!; try done. by right.
    + unfold floor_changed in Hch. rewrite bool_decide_eq_true_2 in Hch by done.
      simpl in Hch. apply orb_false_iff in Hch as [H1 H2].
      unfold is_distinct_from in H1, H2.
      apply negb_false_iff, bool_decide_eq_true in H1, H2. simpl in H1, H2.
      split_and!; try done. by left.
Qed.

Lemma recalculate_caches_the_lowest_listing_witness :
  exists t,
    t ∈ tokens MarketFixtures.open_db
    /\ forall i c,
         collections MarketFixtures.open_db !! i = Some c -> c_id c = "0xc0" ->
         exists c',
           collections (recalculateCollectionFloorSell MarketFixtures.open_db 200 "0xc0")
             !! i = Some c'
           /\ c_floor_sell_id c' = t_floor_sell_id t
           /\ c_floor_sell_value c' = t_floor_sell_value t.
Proof.
  destruct (recalculate_caches_the_lowest_listing MarketFixtures.open_db 200 "0xc0")
    as (t & o & Ht & _ & _ & _ & _ & Hrows).
  - by vm_compute.
  - exists t. split; [done|]. intros i c Hi Hc.
    destruct (Hrows i c Hi Hc) as (c' & H1 & _ & H2 & H3 & _). by exists c'.
Defined.

(** [recalculateCollectionFloorSell] leaves the rows of every other
    collection as they are, keeps the number and the ids of the rows, and
    reads the orders and tokens without writing them. *)
Theorem recalculate_touches_one_collection db now collection :
  length (collections (recalculateCollectionFloorSell db now collection))
  = length (collections db)
  /\ (forall i c,
        collections db !! i = Some c ->
        exists c',
          collections (recalculateCollectionFloorSell db now collection) !! i = Some c'
          /\ c_id c' = c_id c
          /\ (c_id c <> collection -> c' = c))
  /\ orders (recalculateCollectionFloorSell db now collection) = orders db
  /\ tokens (recalculateCollectionFloorSell db now collection) = tokens db
  /\ token_sets (recalculateCollectionFloorSell db now collection) = token_sets db
  /\ token_sets_tokens (recalculateCollectionFloorSell db now collection)
     = token_sets_tokens db.
Proof.
  unfold recalculateCollectionFloorSell. cbn. split_and!; try done.
  - by rewrite length_map.
  - intros i c Hi. rewrite list_lookup_fmap, Hi. simpl. eexists. split; [done|].
    unfold update_from.
    destruct (List.find _ _) as [x|] eqn:Hf; [|done]. split; [done|].
    intros Hne. apply find_some in Hf as [_ Hf].
    unfold floor_changed in Hf. by rewrite bool_decide_eq_false_2 in Hf.
Qed.

(** A second [recalculateCollectionFloorSell] right after the first finds
    nothing to write: the database, [updated_at] included, stays as the
    first run left it. The listings of the collection are taken not to tie
    at the same value under different ids, since [LIMIT 1] leaves the
    choice among ties to the database. *)
Theorem recalculate_twice_is_once db now1 now2 collection :
  (forall x y, x ∈ floor_join db collection -> y ∈ floor_join db collection ->
     x_floor_sell_value x = x_floor_sell_value y ->
     x_floor_sell_id x = x_floor_sell_id y) ->
  recalculate_writes (recalculateCollectionFloorSell db now1 collection) collection
  = 0%nat
  /\ recalculateCollectionFloorSell
       (recalculateCollectionFloorSell db now1 collection) now2 collection
     = recalculateCollectionFloorSell db now1 collection.
Proof.
  intros _.
  apply recalculate_frame.
  intros c x Hc Hx.
  change (floor_subquery (recalculateCollectionFloorSell db now1 collection) collection)
    with (floor_subquery db collection) in Hx.
  unfold recalculateCollectionFloorSell in Hc. cbn [collections] in Hc.
  apply list_elem_of_fmap in Hc as (c0 & -> & Hc0).
  destruct (floor_subquery_cases db collection) as [[_ Hnil]|(x' & Hx' & _)].
  { rewrite Hnil in Hx. by apply elem_of_nil in Hx. }
  rewrite Hx' in Hx |- *. apply list_elem_of_singleton in Hx as ->.
  rewrite update_from_one.
  destruct (floor_changed collection c0 x') eqn:Hch; [|done].
  apply floor_changed_written.
Qed.

Lemma recalculate_twice_is_once_witness :
  recalculateCollectionFloorSell
    (recalculateCollectionFloorSell MarketFixtures.open_db 200 "0xc0") 300 "0xc0"
  = recalculateCollectionFloorSell MarketFixtures.open_db 200 "0xc0".
Proof.
  destruct (recalculate_twice_is_once MarketFixtures.open_db 200 300 "0xc0")
    as [_ H]; [|exact H].
  intros x y Hx Hy.
  set (l := floor_join MarketFixtures.open_db "0xc0") in *. vm_compute in l. subst l.
  rewrite !elem_of_cons, elem_of_nil in Hx, Hy.
  destruct Hx as [->|[->|[]]], Hy as [->|[->|[]]]; simpl; congruence.
Defined.

End FloorCacheFacts.

Section ContractJobsFacts.

Import Collections ContractRevalidation.

Context (toBuffer : string -> string).

#[local] Abbreviation contract_token_ids := (contract_token_ids toBuffer).
#[local] Abbreviation recalculateContractFloorSell :=
  (recalculateContractFloorSell toBuffer).
#[local] Abbreviation recalculateContractTopBuy := (recalculateContractTopBuy toBuffer).

Lemma string_length_app (s x : string) :
  String.length (s +:+ x) = (String.length s + String.length x)%nat.
Proof. induction s as [|ch s IH]; simpl; [done|]. by rewrite IH. Qed.

Lemma string_app_inj_r (x s1 s2 : string) : s1 +:+ x = s2 +:+ x -> s1 = s2.
Proof.
  revert s2. induction s1 as [|ch s1 IH]; intros [|ch2 s2] Heq; simpl in *.
  - done.
  - apply (f_equal String.length) in Heq.
    rewrite !string_length_app in Heq. simpl in Heq. lia.
  - apply (f_equal String.length) in Heq.
    rewrite !string_length_app in Heq. simpl in Heq. lia.
  - injection Heq as -> Heq. f_equal. by apply IH.
Qed.

Lemma token_jobs_elem side_ contract now ids j :
  j ∈ token_jobs side_ contract now ids <->
  exists token_id,
    token_id ∈ ids
    /\ j = {| job_context :=
                "revalidate-" +:+ side_ +:+ "-"
                  +:+ ("token:" +:+ contract +:+ ":" +:+ token_id)
                  +:+ "-" +:+ pretty now;
              tokenSetId := "token:" +:+ contract +:+ ":" +:+ token_id;
              side := side_;
              job_trigger_kind := "revalidation" |}.
Proof. unfold token_jobs. rewrite list_elem_of_fmap. naive_solver. Qed.

Lemma contract_token_ids_elem db contract token_id :
  token_id ∈ contract_token_ids db contract ->
  exists t, t ∈ tokens db /\ t_contract t = toBuffer contract /\ t_token_id t = token_id.
Proof.
  unfold ContractRevalidation.contract_token_ids. intros Hin.
  apply elem_of_take in Hin as (i & Hin & _).
  apply list_elem_of_lookup_2, list_elem_of_fmap in Hin as (t & -> & Ht).
  apply list_elem_of_filter in Ht as [Hc Ht]. eauto.
Qed.

Lemma token_jobs_context_inj side_ contract now ids j1 j2 :
  j1 ∈ token_jobs side_ contract now ids ->
  j2 ∈ token_jobs side_ contract now ids ->
  job_context j1 = job_context j2 -> j1 = j2.
Proof.
  rewrite !token_jobs_elem. intros (i1 & _ & ->) (i2 & _ & ->). simpl.
  intros Heq. do 3 apply (inj (String.app _)) in Heq.
  apply string_app_inj_r in Heq. by rewrite Heq.
Qed.

Lemma contract_token_ids_all db contract t :
  Z.of_nat (length (filter (fun t => t_contract t = toBuffer contract) (tokens db))) <= 10000 ->
  t ∈ tokens db -> t_contract t = toBuffer contract ->
  t_token_id t ∈ contract_token_ids db contract.
Proof.
  intros Hcap Ht Hc. unfold ContractRevalidation.contract_token_ids, token_cap.
  rewrite take_ge by (rewrite length_fmap; lia).
  apply list_elem_of_fmap_2. by apply list_elem_of_filter.
Qed.

(** [recalculateContractFloorSell] and [recalculateContractTopBuy] enqueue
    one revalidation job per token row the query returns, up to 10000 of
    them and never more. The rows are those whose contract is the bytes of
    the argument; a job names the token set [token:<contract>:<token id>]
    with the argument as it was spelled and the id of such a row, and
    within one pass two jobs with the same context are the same job. A
    contract of at most 10000 tokens has every token covered, on both
    sides; for a larger one no more than 10000 jobs are enqueued on either
    side. *)
Theorem contract_recalculation_jobs db now contract :
  let sell := recalculateContractFloorSell db now contract in
  let buy := recalculateContractTopBuy db now contract in
  let owned := filter (fun t => t_contract t = toBuffer contract) (tokens db) in
  Z.of_nat (length sell) = Z.min 10000 (Z.of_nat (length owned))
  /\ Z.of_nat (length buy) = Z.min 10000 (Z.of_nat (length owned))
  /\ (forall j, j ∈ sell ->
        side j = "sell" /\ job_trigger_kind j = "revalidation"
        /\ job_context j = "revalidate-sell-" +:+ tokenSetId j +:+ "-" +:+ pretty now
        /\ exists t, t ∈ tokens db /\ t_contract t = toBuffer contract
             /\ tokenSetId j = "token:" +:+ contract +:+ ":" +:+ t_token_id t)
  /\ (forall j, j ∈ buy ->
        side j = "buy" /\ job_trigger_kind j = "revalidation"
        /\ job_context j = "revalidate-buy-" +:+ tokenSetId j +:+ "-" +:+ pretty now
        /\ exists t, t ∈ tokens db /\ t_contract t = toBuffer contract
             /\ tokenSetId j = "token:" +:+ contract +:+ ":" +:+ t_token_id t)
  /\ (Z.of_nat (length owned) <= 10000 ->
      forall t, t ∈ tokens db -> t_contract t = toBuffer contract ->
        (exists j, j ∈ sell
           /\ tokenSetId j = "token:" +:+ contract +:+ ":" +:+ t_token_id t)
        /\ (exists j, j ∈ buy
              /\ tokenSetId j = "token:" +:+ contract +:+ ":" +:+ t_token_id t))
  /\ (forall j1 j2, j1 ∈ sell -> j2 ∈ sell -> job_context j1 = job_context j2 -> j1 = j2)
  /\ (forall j1 j2, j1 ∈ buy -> j2 ∈ buy -> job_context j1 = job_context j2 -> j1 = j2).
Proof.
  intros sell buy owned. subst sell buy owned.
  unfold ContractRevalidation.recalculateContractFloorSell,
    ContractRevalidation.recalculateContractTopBuy.
  split_and!.
  - unfold token_jobs, ContractRevalidation.contract_token_ids, token_cap.
    rewrite !length_fmap, length_take, length_fmap. lia.
  - unfold token_jobs, ContractRevalidation.contract_token_ids, token_cap.
    rewrite !length_fmap, length_take, length_fmap. lia.
  - intros j (i & Hi & ->)%token_jobs_elem. simpl. split_and!; try done.
    destruct (contract_token_ids_elem db contract i Hi) as (t & Ht & Hc & <-). eauto.
  - intros j (i & Hi & ->)%token_jobs_elem. simpl. split_and!; try done.
    destruct (contract_token_ids_elem db contract i Hi) as (t & Ht & Hc & <-). eauto.
  - intros Hcap t Ht Hc.
    pose proof (contract_token_ids_all db contract t Hcap Ht Hc) as Hin.
    split; eexists; (split; [apply token_jobs_elem; by eexists|done]).
  - apply token_jobs_context_inj.
  - apply token_jobs_context_inj.
Qed.

End ContractJobsFacts.

Section ContractJobsExamples.

Import Collections ContractRevalidation MarketFixtures.

(** The address in upper case selects the same two tokens, and the jobs
    carry it as it was spelled. *)
Example contract_jobs_keep_the_spelling :
  tokenSetId <$> recalculateContractTopBuy hex_bytes open_db 200 "0xC0"
  = ["token:0xC0:1"; "token:0xC0:2"]
  /\ tokenSetId <$> recalculateContractFloorSell hex_bytes open_db 200 "0xc0"
     = ["token:0xc0:1"; "token:0xc0:2"].
Proof. by vm_compute. Qed.

End ContractJobsExamples.

Section ListingFacts.

Import CollectionListings.

#[local] Instance minted_order_total : Total minted_order.
Proof.
  intros a b. unfold minted_order.
  destruct (minted_timestamp a), (minted_timestamp b); simpl; lia.
Qed.

#[local] Instance minted_order_trans : Transitive minted_order.
Proof.
  intros a b c. unfold minted_order.
  destruct (minted_timestamp a), (minted_timestamp b), (minted_timestamp c); simpl; lia.
Qed.

#[local] Instance volume_order_total : Total volume_order.
Proof.
  intros a b. unfold volume_order.
  destruct (day1_volume a), (day1_volume b); simpl; lia.
Qed.

#[local] Instance volume_order_trans : Transitive volume_order.
Proof.
  intros a b c. unfold volume_order.
  destruct (day1_volume a), (day1_volume b), (day1_volume c); simpl; lia.
Qed.

(** The first [n] rows of a sorted selection: sorted, at most [n], and what
    is left out comes after every row that is in. *)
Lemma take_merge_sort {A} (R : relation A) `{forall x y, Decision (R x y)}
    `{!Total R, !Transitive R} (n : nat) (l : list A) :
  StronglySorted R (take n (merge_sort R l))
  /\ length (take n (merge_sort R l)) = Nat.min n (length l)
  /\ exists rest,
       take n (merge_sort R l) ++ rest ≡ₚ l
       /\ ((n < length l)%nat -> rest <> [])
       /\ forall x y, x ∈ take n (merge_sort R l) -> y ∈ rest -> R x y.
Proof.
  pose proof (merge_sort_Permutation R l) as Hperm.
  pose proof (StronglySorted_merge_sort R l) as Hsorted.
  rewrite <-(take_drop n (merge_sort R l)) in Hsorted.
  split_and!.
  - by apply StronglySorted_app_1_l in Hsorted.
  - by rewrite length_take, Hperm.
  - exists (drop n (merge_sort R l)). split_and!.
    + by rewrite take_drop.
    + intros Hlt Hnil. apply (f_equal length) in Hnil.
      rewrite length_drop, Hperm in Hnil. simpl in Hnil. lia.
    + intros x y Hx Hy. by eapply StronglySorted_app_1_elem_of.
Qed.

(** [getCollectionsMintedBetween] returns collections minted strictly
    after [from] and strictly before [to], earliest first, at most [limit]
    of them, and the ones it leaves out for the limit were minted no
    earlier than any it returns. *)
Theorem minted_between_lists_the_earliest collections from to limit :
  let result := getCollectionsMintedBetween collections from to limit in
  (forall c, c ∈ result ->
     c ∈ collections /\ exists t, minted_timestamp c = Some t /\ from < t < to)
  /\ StronglySorted minted_order result
  /\ length result
     = Nat.min limit (length (filter (fun c => minted_between from to c) collections))
  /\ exists rest,
       result ++ rest ≡ₚ filter (fun c => minted_between from to c) collections
       /\ forall c c', c ∈ result -> c' ∈ rest -> minted_order c c'.
Proof.
  intros result. subst result. unfold getCollectionsMintedBetween.
  destruct (take_merge_sort minted_order limit
              (filter (fun c => minted_between from to c) collections))
    as (Hsorted & Hlen & rest & Hperm & _ & Hrest).
  split_and!; try done.
  - intros c Hc.
    assert (c ∈ filter (fun c => minted_between from to c) collections) as Hf.
    { rewrite <-Hperm. apply elem_of_app. by left. }
    apply list_elem_of_filter in Hf as [Hb Hin]. split; [done|].
    unfold minted_between in Hb. destruct (minted_timestamp c) as [t|]; [|done].
    exists t. split; [done|].
    apply andb_True in Hb as [H1%bool_decide_spec H2%bool_decide_spec]. lia.
  - by exists rest.
Qed.

(** [getTopCollectionsByVolume] returns at most [limit] collections in
    descending order of [day1_volume], collections without a volume before
    all others, and none it leaves out ranks before one it returns. *)
Theorem top_by_volume_lists_the_highest collections limit :
  let result := getTopCollectionsByVolume collections limit in
  StronglySorted volume_order result
  /\ length result = Nat.min limit (length collections)
  /\ exists rest,
       result ++ rest ≡ₚ collections
       /\ forall c c', c ∈ result -> c' ∈ rest ->
            match day1_volume c, day1_volume c' with
            | Some v, Some v' => v' <= v
            | Some _, None => False
            | None, _ => True
            end.
Proof.
  intros result. subst result. unfold getTopCollectionsByVolume.
  destruct (take_merge_sort volume_order limit collections)
    as (Hsorted & Hlen & rest & Hperm & _ & Hrest).
  split_and!; try done.
  exists rest. split; [done|]. intros c c' Hc Hc'.
  specialize (Hrest c c' Hc Hc'). unfold volume_order in Hrest.
  by destruct (day1_volume c), (day1_volume c').
Qed.

End ListingFacts.

(** ** What a job keeps true, whatever runs in between *)

Section SizeFacts.

Context `{Countable K} {A : Type}.
Context (P : K * A -> Prop) `{forall x, Decision (P x)}.

Lemma size_filter_insert (m : gmap K A) k v :
  m !! k = None ->
  size (filter P (<[k := v]> m))
  = if decide (P (k, v)) then S (size (filter P m)) else size (filter P m).
Proof.
  intros Hk. rewrite map_filter_insert. case_decide.
  - rewrite map_size_insert_None; [done|].
    apply map_lookup_filter_None. by left.
  - by rewrite delete_id.
Qed.

Lemma size_filter_none (m : gmap K A) :
  (forall k v, m !! k = Some v -> ~ P (k, v)) -> size (filter P m) = 0%nat.
Proof.
  intros Hno. apply map_size_empty_iff. apply map_eq. intros k.
  rewrite lookup_empty. apply map_lookup_filter_None. right. intros v Hv. by apply Hno.
Qed.

Lemma size_filter_filter (Q : K * A -> Prop) `{forall x, Decision (Q x)} (m : gmap K A) :
  (size (filter P (filter Q m)) <= size (filter P m))%nat.
Proof. apply map_subseteq_size, map_filter_subseteq_mono, map_filter_subseteq. Qed.

End SizeFacts.

Section ConsistencyFacts.

Import MetadataIndex IndexConsistency.

Lemma attributes_of_fmap kid (f : AttributeRow -> AttributeRow) m :
  attributes_of kid (f <$> m) = attributes_of kid m.
Proof.
  unfold attributes_of.
  rewrite (map_filter_fmap (fun kv : positive * string * AttributeRow => kv.1.1 = kid)).
  rewrite map_size_fmap. f_equal.
Qed.

Lemma advances_refl d : advances d d.
Proof. split; lia. Qed.

Lemma advances_trans d1 d2 d3 : advances d1 d2 -> advances d2 d3 -> advances d1 d3.
Proof. intros [] []. split; lia. Qed.

(** *** Statement by statement *)

Lemma consistent_same_tables d d' :
  attribute_keys d' = attribute_keys d ->
  attributes_table d' = attributes_table d ->
  token_attributes d' = token_attributes d ->
  attribute_keys_id_seq d' = attribute_keys_id_seq d ->
  attributes_id_seq d' = attributes_id_seq d ->
  consistent d -> consistent d' /\ advances d d'.
Proof.
  intros Hk Ha Hl Hsk Hsa [H1 H2 H3 H4 H5 H6 H7]. split.
  - constructor; rewrite ?Hk, ?Ha, ?Hl, ?Hsk, ?Hsa; done.
  - unfold advances. rewrite Hsk, Hsa. lia.
Qed.

Lemma update_token_consistent job now d :
  consistent d ->
  consistent (update_token job now d).2 /\ advances d (update_token job now d).2.
Proof.
  apply consistent_same_tables; unfold update_token;
    by destruct (tokens d !! _).
Qed.

Lemma mark_indexed_consistent job d :
  consistent d ->
  consistent (mark_indexed job d).2 /\ advances d (mark_indexed job d).2.
Proof. by apply consistent_same_tables. Qed.

Lemma delete_token_attributes_consistent c t d :
  consistent d ->
  consistent (delete_token_attributes c t d).2
  /\ advances d (delete_token_attributes c t d).2.
Proof.
  intros [H1 H2 H3 H4 H5 H6 H7]. split; [|split; simpl; lia].
  constructor; simpl; try done.
  - intros k r [Hr _]%map_lookup_filter_Some. by apply (H3 k r).
  - intros k r Hr. etrans; [|by apply (H5 k r)].
    apply inj_le. unfold links_to. apply size_filter_filter.
Qed.

Lemma widen_ordered n info lo hi :
  (forall lo0 hi0, info = Some (Some lo0, Some hi0) ->
     bound_numeric lo0 <= bound_numeric hi0) ->
  widen n info = Some (Some lo, Some hi) -> bound_numeric lo <= bound_numeric hi.
Proof.
  destruct info as [[[lo0|] [hi0|]]|]; try done. simpl.
  intros Hord. specialize (Hord lo0 hi0 eq_refl).
  destruct (Z.gtb_spec (bound_numeric lo0) n), (Z.ltb_spec (bound_numeric hi0) n);
    intros [= <- <-]; simpl; lia.
Qed.

Lemma update_attribute_key_consistent pg_numeric c k v d :
  consistent d ->
  consistent (update_attribute_key pg_numeric c k v d).2
  /\ advances d (update_attribute_key pg_numeric c k v d).2
  /\ forall kid, (update_attribute_key pg_numeric c k v d).1 = inr (Some kid) ->
       (kid < attribute_keys_id_seq d)%positive.
Proof.
  intros Hc. pose proof Hc as [H1 H2 H3 H4 H5 H6 H7].
  unfold update_attribute_key.
  destruct (pg_numeric v) as [n|]; [|by split_and!; [|split; simpl; lia|]].
  destruct (attribute_keys d !! (c, k)) as [r|] eqn:Hr;
    [|by split_and!; [|split; simpl; lia|]].
  assert (Hset : forall info,
            (forall lo hi, info = Some (Some lo, Some hi) ->
               bound_numeric lo <= bound_numeric hi) ->
            consistent
              (with_attribute_keys d (<[(c, k) := set_info r info]> (attribute_keys d)))).
  { intros info Hinfo. constructor; simpl; try done.
    - intros k' r' [[_ <-]|[_ Hr']]%lookup_insert_Some; [by apply (H1 (c, k) r)|].
      by apply (H1 k').
    - intros k' r' [[_ <-]|[_ Hr']]%lookup_insert_Some; [by apply (H4 (c, k) r)|].
      by apply (H4 k').
    - intros k' r' lo hi [[_ <-]|[_ Hr']]%lookup_insert_Some; [by apply Hinfo|].
      by apply (H7 k'). }
  assert (Hid : forall kid, @inr JsError _ (Some (ak_id r)) = inr (Some kid) ->
                  (kid < attribute_keys_id_seq d)%positive).
  { intros kid [= <-]. by apply (H1 (c, k)). }
  destruct (ak_kind r).
  2:{ split_and!; [|split; simpl; lia|done].
      apply Hset. intros lo hi. apply widen_ordered. intros lo0 hi0. by apply (H7 (c, k)). }
  all: split_and!; [by apply Hset|split; simpl; lia|done].
Qed.

Lemma insert_attribute_key_consistent js_number c a d :
  consistent d ->
  consistent (insert_attribute_key js_number c a d).2
  /\ advances d (insert_attribute_key js_number c a d).2
  /\ forall kid, (insert_attribute_key js_number c a d).1 = Some kid ->
       (kid < attribute_keys_id_seq (insert_attribute_key js_number c a d).2)%positive.
Proof.
  intros [H1 H2 H3 H4 H5 H6 H7]. unfold insert_attribute_key.
  destruct (attribute_keys d !! (c, key a)) as [r|] eqn:Hr; simpl.
  - split_and!; [|split; simpl; lia|done].
    constructor; simpl; try done.
    + intros k r' Hr'. specialize (H1 k r' Hr'). lia.
    + intros k r' Hr'. destruct (H2 k r' Hr'). split; [lia|done].
  - split_and!; [|split; simpl; lia|intros kid [= <-]; lia].
    constructor; simpl; try done.
    + intros k r' [[_ <-]|[_ Hr']]%lookup_insert_Some; simpl; [lia|].
      specialize (H1 k r' Hr'). lia.
    + intros k r' Hr'. destruct (H2 k r' Hr'). split; [lia|done].
    + intros k r' [[_ <-]|[_ Hr']]%lookup_insert_Some; simpl; [|by apply (H4 k)].
      unfold attributes_of. rewrite size_filter_none; [done|].
      intros k' v' Hv'. simpl. destruct (H2 k' v' Hv'). lia.
    + intros k r' lo hi [[_ <-]|[_ Hr']]%lookup_insert_Some; simpl; [|by apply (H7 k)].
      unfold new_key_info. destruct (kind a); try done.
      destruct (js_number (value a)); [|done]. intros [= <- <-]. simpl. lia.
Qed.

Lemma select_attribute_issued kid v d aid :
  consistent d -> select_attribute kid v d = Some aid ->
  (aid < attributes_id_seq d)%positive.
Proof.
  intros [_ H2 _ _ _ _ _]. unfold select_attribute.
  destruct (attributes_table d !! (kid, v)) as [r|] eqn:Hr; [|done].
  intros [= <-]. by destruct (H2 _ _ Hr).
Qed.

Lemma insert_attribute_consistent kid c a now d :
  consistent d ->
  (kid < attribute_keys_id_seq d)%positive ->
  consistent (insert_attribute kid c a now d).2
  /\ advances d (insert_attribute kid c a now d).2
  /\ forall aid, (insert_attribute kid c a now d).1 = Some aid ->
       (aid < attributes_id_seq (insert_attribute kid c a now d).2)%positive.
Proof.
  intros [H1 H2 H3 H4 H5 H6 H7] Hkid. unfold insert_attribute.
  split_and!; [|split; simpl; lia|].
  2:{ cbn [fst snd attributes_id_seq]. intros aid.
      case_bool_decide; [|done].
      destruct (attributes_table d !! (kid, value a)); [done|].
      intros [= <-]. lia. }
  cbn [snd].
  destruct (attributes_table d !! (kid, value a)) as [r0|] eqn:Hr0.
  - constructor; cbn [attribute_keys attributes_table token_attributes
                       attribute_keys_id_seq attributes_id_seq]; try done.
    + intros k r' (r & <- & Hr)%lookup_fmap_Some.
      specialize (H1 k r Hr). by case_bool_decide.
    + intros k r Hr. destruct (H2 k r Hr). split; [done|lia].
    + intros k r Hr. specialize (H3 k r Hr). lia.
    + intros k r' (r & <- & Hr)%lookup_fmap_Some.
      specialize (H4 k r Hr). case_bool_decide; simpl; lia.
    + intros k r' lo hi (r & <- & Hr)%lookup_fmap_Some.
      specialize (H7 k r lo hi Hr). by case_bool_decide.
  - constructor; cbn [attribute_keys attributes_table token_attributes
                       attribute_keys_id_seq attributes_id_seq]; try done.
    + intros k r' (r & <- & Hr)%lookup_fmap_Some.
      specialize (H1 k r Hr). by case_bool_decide.
    + intros k r [[<- <-]|[_ Hr]]%lookup_insert_Some; simpl; [split; [done|lia]|].
      destruct (H2 k r Hr). split; [done|lia].
    + intros k r Hr. specialize (H3 k r Hr). lia.
    + intros k r' (r & <- & Hr)%lookup_fmap_Some.
      specialize (H4 k r Hr). unfold attributes_of in *.
      rewrite size_filter_insert by done. cbn [fst].
      case_bool_decide as Hid; simpl.
      * rewrite decide_True by done. lia.
      * rewrite decide_False by done. lia.
    + intros k r [[<- <-]|[_ Hr]]%lookup_insert_Some; simpl; [|by apply (H5 k)].
      unfold links_to. rewrite size_filter_none; [done|].
      intros k' v' Hv'. simpl. specialize (H3 k' v' Hv'). lia.
    + intros k r [[<- <-]|[_ Hr]]%lookup_insert_Some; simpl; [|by apply (H6 k)].
      split; [lia|constructor].
    + intros k r' lo hi (r & <- & Hr)%lookup_fmap_Some.
      specialize (H7 k r lo hi Hr). by case_bool_decide.
Qed.

Lemma link_attribute_bounded n image r :
  (length (default [] (a_sample_images r)) <= 4)%nat
  /\ NoDup (default [] (a_sample_images r)) ->
  (length (default [] (a_sample_images (link_attribute n image r))) <= 4)%nat
  /\ NoDup (default [] (a_sample_images (link_attribute n image r))).
Proof.
  intros [Hlen Hnd].
  destruct (link_attribute_images_cases n image r) as [->|[img ->]]; [done|].
  split; [by apply sample_images_bound|by apply sample_images_NoDup].
Qed.

Lemma insert_token_attribute_consistent job aid a d :
  consistent d ->
  (aid < attributes_id_seq d)%positive ->
  consistent (insert_token_attribute job aid a d).2
  /\ advances d (insert_token_attribute job aid a d).2.
Proof.
  intros [H1 H2 H3 H4 H5 H6 H7] Haid. unfold insert_token_attribute.
  split; [|split; simpl; lia]. cbn [snd].
  constructor; cbn [attribute_keys attributes_table token_attributes
                     attribute_keys_id_seq attributes_id_seq]; try done.
  - intros k r' (r & <- & Hr)%lookup_fmap_Some.
    destruct (H2 k r Hr). split; [done|]. by case_bool_decide.
  - destruct (bool_decide (token_attributes d !! (contract job, tokenId job, aid) = None));
      [|done].
    intros k r [[<- <-]|[_ Hr]]%lookup_insert_Some; simpl; [done|]. by apply (H3 k r).
  - intros k r Hr. rewrite attributes_of_fmap. by apply (H4 k).
  - intros k r' (r & <- & Hr)%lookup_fmap_Some.
    specialize (H5 k r Hr). unfold links_to in *.
    destruct (decide (token_attributes d !! (contract job, tokenId job, aid) = None))
      as [Hins|Hins];
      destruct (decide (a_id r = aid)) as [Hid|Hid];
      rewrite ?(bool_decide_eq_true_2 _ Hins), ?(bool_decide_eq_false_2 _ Hins),
        ?(bool_decide_eq_true_2 _ Hid), ?(bool_decide_eq_false_2 _ Hid);
      rewrite ?size_filter_insert by done; cbn [fst snd]; simpl.
    + rewrite decide_True by done. lia.
    + rewrite decide_False by done. lia.
    + lia.
    + lia.
  - intros k r' (r & <- & Hr)%lookup_fmap_Some.
    specialize (H6 k r Hr). destruct (bool_decide (a_id r = aid)); [|done].
    by apply link_attribute_bounded.
Qed.

(** *** The rules for composing statements *)

Lemma keeps_exec {A} s (f : DB -> (JsError + A) * DB) (P : DB -> Prop) Q :
  lasting P ->
  (forall d, consistent d -> P d ->
     consistent (f d).2 /\ advances d (f d).2 /\ Q (f d).1 (f d).2) ->
  keeps P (exec s f) Q.
Proof.
  intros Hlast Hf w [Hc Hothers] HP. unfold exec, arrive. cbn [fst snd db].
  destruct (concurrent w) as [|g gs] eqn:Hg.
  - destruct (Hf (db w) Hc HP) as (Hc' & Hadv & HQ).
    split; [split; [exact Hc'|constructor]|]. by split.
  - apply Forall_cons in Hothers as [Hg1 Hgs].
    destruct (Hg1 (db w) Hc) as [Hc1 Hadv1].
    destruct (Hf (g (db w)) Hc1 (Hlast _ _ Hadv1 HP)) as (Hc' & Hadv & HQ).
    split; [split; [exact Hc'|exact Hgs]|].
    split; [by eapply advances_trans|exact HQ].
Qed.

Lemma keeps_query {A} s (f : DB -> A * DB) (P : DB -> Prop) Q :
  lasting P ->
  (forall d, consistent d -> P d ->
     consistent (f d).2 /\ advances d (f d).2 /\ Q (inr (f d).1) (f d).2) ->
  keeps P (query s f) Q.
Proof. intros Hlast Hf. unfold query. by apply keeps_exec. Qed.

Lemma keeps_ret {A} (x : A) (P : DB -> Prop) :
  keeps P (mret x) (fun r d => r = inr x /\ P d).
Proof.
  intros w Hs HP. unfold mret, M_ret. simpl. split_and!; try done; apply advances_refl.
Qed.

Lemma keeps_throw {A} e (P : DB -> Prop) :
  keeps P (@throw A e) (fun r d => r = inl e).
Proof.
  intros w Hs HP. unfold throw. simpl. split_and!; try done; apply advances_refl.
Qed.

Lemma keeps_bind {A B} (m : M A) (f : A -> M B) (P : DB -> Prop) Q R :
  keeps P m Q ->
  (forall x, keeps (Q (inr x)) (f x) R) ->
  (forall e d, Q (inl e) d -> R (inl e) d) ->
  keeps P (m ≫= f) R.
Proof.
  intros Hm Hf He w Hs HP. unfold mbind, M_bind.
  destruct (Hm w Hs HP) as (Hs1 & Hadv1 & HQ).
  destruct (m w) as [[e|x] w1]; cbn [fst snd] in *.
  - split_and!; try done. by apply He.
  - destruct (Hf x w1 Hs1 HQ) as (Hs2 & Hadv2 & HR).
    split_and!; try done. by eapply advances_trans.
Qed.

Lemma keeps_weaken {A} (m : M A) (P P' : DB -> Prop) (Q Q' : JsError + A -> DB -> Prop) :
  keeps P m Q ->
  (forall d, P' d -> P d) ->
  (forall r d, Q r d -> Q' r d) ->
  keeps P' m Q'.
Proof.
  intros Hm HP HQ w Hs HP'. destruct (Hm w Hs (HP _ HP')) as (? & ? & ?).
  split_and!; try done. by apply HQ.
Qed.

Lemma keeps_ret_plain {A} (x : A) :
  keeps (fun _ => True) (mret x) (fun _ _ => True).
Proof. eapply keeps_weaken; [apply (keeps_ret x (fun _ => True))|done|done]. Qed.

Lemma keeps_throw_plain {A} e (P : DB -> Prop) :
  keeps P (@throw A e) (fun _ _ => True).
Proof. eapply keeps_weaken; [apply (keeps_throw e P)|done|done]. Qed.

Lemma keeps_schedule c l :
  keeps (fun _ => True) (schedule c l) (fun r _ => r = inr ()).
Proof.
  intros w Hs _. unfold schedule. simpl. split_and!; try done; apply advances_refl.
Qed.

Lemma keeps_for_each {A} (f : A -> M unit) (l : list A) :
  (forall x, keeps (fun _ => True) (f x) (fun _ _ => True)) ->
  keeps (fun _ => True) (for_each f l) (fun _ _ => True).
Proof.
  intros Hf. induction l as [|x l IH]; simpl.
  - apply keeps_ret_plain.
  - eapply keeps_bind; [apply Hf| |done]. intros []. apply IH.
Qed.

Lemma lasting_true : lasting (fun _ => True).
Proof. done. Qed.

Lemma lasting_key_issued kid :
  lasting (fun d => (kid < attribute_keys_id_seq d)%positive).
Proof. intros d d' [? ?] ?. lia. Qed.

Lemma lasting_attribute_issued aid :
  lasting (fun d => (aid < attributes_id_seq d)%positive).
Proof. intros d d' [? ?] ?. lia. Qed.

(** *** The worker *)

Section Worker.

Context (pg_numeric js_number : string -> option Z).

Lemma keeps_resolve_attribute_key job a :
  keeps (fun _ => True) (resolve_attribute_key pg_numeric js_number job a)
    (fun r d => forall kid, r = inr (Some kid) ->
                  (kid < attribute_keys_id_seq d)%positive).
Proof.
  unfold resolve_attribute_key.
  eapply (keeps_bind _ _ _
            (fun r d => forall kid, r = inr (Some kid) ->
                          (kid < attribute_keys_id_seq d)%positive)).
  - apply keeps_exec; [apply lasting_true|]. intros d Hc _.
    destruct (update_attribute_key_consistent pg_numeric (collection job) (key a)
                (value a) d Hc) as (Hc' & Hadv & Hid).
    split_and!; try done. intros kid Hk. specialize (Hid kid Hk).
    destruct Hadv. lia.
  - intros [kid|].
    + eapply keeps_weaken; [apply keeps_ret|intros d Hd; exact Hd|].
      intros r d [-> Hk]. done.
    + apply keeps_query; [done|]. intros d Hc _.
      destruct (insert_attribute_key_consistent js_number (collection job) a d Hc)
        as (Hc' & Hadv & Hid).
      split_and!; try done. intros kid [= Hk]. by apply Hid.
  - done.
Qed.

Lemma keeps_resolve_attribute job now kid a :
  keeps (fun d => (kid < attribute_keys_id_seq d)%positive)
    (resolve_attribute job now kid a)
    (fun r d => forall aid, r = inr (Some aid) ->
                  (aid < attributes_id_seq d)%positive).
Proof.
  unfold resolve_attribute.
  eapply (keeps_bind _ _ _
            (fun r d => (kid < attribute_keys_id_seq d)%positive
                        /\ forall aid, r = inr (Some aid) ->
                             (aid < attributes_id_seq d)%positive)).
  - apply keeps_query; [apply lasting_key_issued|]. intros d Hc Hk. simpl.
    split; [done|]. split; [apply advances_refl|]. split; [done|].
    intros aid [= Ha]. by eapply select_attribute_issued.
  - intros [aid|].
    + eapply keeps_weaken; [apply keeps_ret|intros d Hd; exact Hd|].
      intros r d [-> [_ Ha]]. done.
    + apply keeps_query.
      { intros d d' Hadv [Hk _]. split; [by eapply lasting_key_issued|done]. }
      intros d Hc [Hk _].
      destruct (insert_attribute_consistent kid (collection job) a now d Hc Hk)
        as (Hc' & Hadv & Hid).
      split_and!; try done. intros aid [= Ha]. by apply Hid.
  - done.
Qed.

Lemma keeps_index_attribute job now a :
  keeps (fun _ => True) (index_attribute pg_numeric js_number job now a)
    (fun _ _ => True).
Proof.
  unfold index_attribute.
  eapply keeps_bind; [apply keeps_resolve_attribute_key| |done].
  intros [kid|].
  2:{ apply keeps_throw_plain. }
  eapply keeps_bind.
  - eapply keeps_weaken; [apply (keeps_resolve_attribute job now kid a)| |].
    + intros d Hk. by apply Hk.
    + intros r d Hr. exact Hr.
  - intros [aid|].
    2:{ apply keeps_throw_plain. }
    apply keeps_query.
    { intros d d' Hadv Ha aid' Heq. eapply lasting_attribute_issued; [done|].
      by apply Ha. }
    intros d Hc Ha.
    destruct (insert_token_attribute_consistent job aid a d Hc (Ha aid eq_refl)).
    done.
  - done.
Qed.

Lemma keeps_worker job now :
  keeps (fun _ => True) (worker pg_numeric js_number job now) (fun _ _ => True).
Proof.
  unfold worker.
  eapply (keeps_bind _ _ _ (fun _ _ => True)); [| |done].
  { apply keeps_query; [done|]. intros d Hc _.
    destruct (update_token_consistent job now d Hc). done. }
  intros [[]|]; [|apply keeps_ret_plain].
  eapply (keeps_bind _ _ _ (fun _ _ => True)); [| |done].
  { apply keeps_query; [done|]. intros d Hc _.
    destruct (delete_token_attributes_consistent (contract job) (tokenId job) d Hc).
    done. }
  intros removed.
  eapply (keeps_bind _ _ _ (fun _ _ => True)); [| |done].
  { eapply keeps_weaken; [apply keeps_schedule|done|done]. }
  intros [].
  eapply (keeps_bind _ _ _ (fun _ _ => True)); [| |done].
  { apply keeps_for_each. intros a. apply keeps_index_attribute. }
  intros [].
  apply keeps_query; [done|]. intros d Hc _.
  destruct (mark_indexed_consistent job d Hc). done.
Qed.

Lemma theirs_well_behaved g : theirs pg_numeric js_number g -> well_behaved g.
Proof.
  intros Hg d Hc. destruct Hg.
  - split; [done|apply advances_refl].
  - by apply update_token_consistent.
  - by apply delete_token_attributes_consistent.
  - by destruct (update_attribute_key_consistent pg_numeric c k v d Hc) as (? & ? & _).
  - by destruct (insert_attribute_key_consistent js_number c a d Hc) as (? & ? & _).
  - unfold their_insert_attribute.
    destruct (attribute_keys d !! (c, key a)) as [kr|] eqn:Hkr;
      [|split; [done|apply advances_refl]].
    destruct (insert_attribute_consistent (ak_id kr) c a now d Hc) as (? & ? & _);
      [|done].
    destruct Hc as [H1 _ _ _ _ _ _]. by apply (H1 (c, key a) kr).
  - unfold their_link, IndexReplay.attribute_id_of.
    destruct (attribute_keys d !! (collection job, key a)) as [kr|];
      [|split; [done|apply advances_refl]].
    simpl.
    destruct (attributes_table d !! (ak_id kr, value a)) as [ar|] eqn:Har;
      [|split; [done|apply advances_refl]].
    simpl. apply insert_token_attribute_consistent; [done|].
    destruct Hc as [_ H2 _ _ _ _ _]. by destruct (H2 _ _ Har).
  - by apply mark_indexed_consistent.
Qed.


End Worker.

Lemma one_token_db_consistent : consistent IndexFixtures.one_token_db.
Proof. by split; simpl; intros k r; intros; simplify_map_eq. Qed.

Lemma two_token_db_consistent : consistent MoreIndexFixtures.two_token_db.
Proof. by split; simpl; intros k r; intros; simplify_map_eq. Qed.

Lemma leveled_two_db_consistent : consistent MoreIndexFixtures.leveled_two_db.
Proof.
  destruct (keeps_worker Decimal.numeric Decimal.number (IndexFixtures.level_job "7") 5
              (alone MoreIndexFixtures.two_token_db)) as ([Hc _] & _).
  - split; [apply two_token_db_consistent|constructor].
  - done.
  - exact Hc.
Qed.


(** The run of the witness meets every statement of the others, the key
    and the attribute they add included. *)
Example busy_world_run :
  let run := worker Decimal.numeric Decimal.number (IndexFixtures.level_job "3") 7
               BusyFixtures.busy_world in
  run.1 = inr ()
  /\ concurrent run.2 = []
  /\ size (attribute_keys (db run.2)) = 1%nat
  /\ size (attributes_table (db run.2)) = 3%nat
  /\ size (token_attributes (db run.2)) = 2%nat
  /\ ak_attribute_count <$> attribute_keys (db run.2) !! ("0xc0", "Level") = Some 3.
Proof. by vm_compute. Qed.

(** The worlds of the two create-races are made of such statements. *)
Example race_worlds_are_theirs :
  Forall (theirs Decimal.numeric Decimal.number) (concurrent IndexFixtures.race_world)
  /\ Forall (theirs Decimal.numeric Decimal.number)
       (concurrent IndexFixtures.race_world_job)
  /\ Forall (theirs Decimal.numeric Decimal.number)
       (concurrent IndexFixtures.attribute_race_world).
Proof.
  unfold IndexFixtures.race_world, IndexFixtures.race_world_job,
    IndexFixtures.attribute_race_world. cbn [concurrent].
  split_and!; repeat (apply Forall_cons; split); try apply Forall_nil_2; constructor.
Qed.

End ConsistencyFacts.

(** * One run of the worker: statements, recounts, the token row, the links *)

Section TraceFacts.

Import MetadataIndex IndexRun.

Lemma emits_exec {A} s (f : DB -> (JsError + A) * DB) :
  emits (exec s f) (fun _ l => l = [s]).
Proof. intros w. by exists [s]. Qed.

Lemma emits_query {A} s (f : DB -> A * DB) :
  emits (query s f) (fun r l => (exists x, r = inr x) /\ l = [s]).
Proof. intros w. exists [s]. split; [done|]. split; [|done]. by eexists. Qed.

Lemma emits_ret {A} (x : A) :
  emits (mret x) (fun r l => r = inr x /\ l = []).
Proof. intros w. exists []. by rewrite app_nil_r. Qed.

Lemma emits_throw {A} e :
  emits (@throw A e) (fun r l => r = inl e /\ l = []).
Proof. intros w. exists []. by rewrite app_nil_r. Qed.

Lemma emits_schedule c removed :
  emits (schedule c removed) (fun r l => r = inr () /\ l = []).
Proof. intros w. exists []. by rewrite app_nil_r. Qed.

Lemma emits_bind {A B} (m : M A) (f : A -> M B) P (Q : A -> _) (R : _ -> _ -> Prop) :
  emits m P ->
  (forall x, emits (f x) (Q x)) ->
  (forall e l, P (inl e) l -> R (inl e) l) ->
  (forall x l1 r l2, P (inr x) l1 -> Q x r l2 -> R r (l1 ++ l2)) ->
  emits (m ≫= f) R.
Proof.
  intros Hm Hf He Hx w. unfold mbind, M_bind.
  destruct (Hm w) as (l1 & Ht1 & HP).
  destruct (m w) as [[e|x] w1]; cbn [fst snd] in *.
  - exists l1. split; [done|]. by apply He.
  - destruct (Hf x w1) as (l2 & Ht2 & HQ).
    exists (l1 ++ l2). split; [by rewrite Ht2, Ht1, (assoc_L (++))|].
    by eapply Hx.
Qed.

Section Worker.

Context (pg_numeric js_number : string -> option Z).

Lemma emits_resolve_attribute_key job a :
  emits (resolve_attribute_key pg_numeric js_number job a)
    (fun r l =>
       match r with
       | inl _ => l = [UpdateAttributeKey]
       | inr (Some _) =>
           l = [UpdateAttributeKey] \/ l = [UpdateAttributeKey; InsertAttributeKey]
       | inr None => l = [UpdateAttributeKey; InsertAttributeKey]
       end).
Proof.
  unfold resolve_attribute_key.
  eapply (emits_bind _ _ _
            (fun x r l => match x with
                          | Some _ => r = inr x /\ l = []
                          | None => (exists y, r = inr y) /\ l = [InsertAttributeKey]
                          end)).
  - apply emits_exec.
  - intros [kid|]; [apply emits_ret|apply emits_query].
  - by intros e l ->.
  - intros [kid|] l1 r l2 -> H.
    + destruct H as [-> ->]. by left.
    + destruct H as [[[y|] ->] ->]; [by right|done].
Qed.

Lemma emits_resolve_attribute job now kid a :
  emits (resolve_attribute job now kid a)
    (fun r l =>
       match r with
       | inl _ => False
       | inr (Some _) => l = [SelectAttribute] \/ l = [SelectAttribute; InsertAttribute]
       | inr None => l = [SelectAttribute; InsertAttribute]
       end).
Proof.
  unfold resolve_attribute.
  eapply (emits_bind _ _ _
            (fun x r l => match x with
                          | Some _ => r = inr x /\ l = []
                          | None => (exists y, r = inr y) /\ l = [InsertAttribute]
                          end)).
  - apply emits_query.
  - intros [aid|]; [apply emits_ret|apply emits_query].
  - by intros e l [[x [=]] _].
  - intros [aid|] l1 r l2 [_ ->] H.
    + destruct H as [-> ->]. by left.
    + destruct H as [[[y|] ->] ->]; [by right|done].
Qed.

Lemma emits_index_attribute job now a :
  emits (index_attribute pg_numeric js_number job now a)
    (fun r l =>
       match r with
       | inr _ => l ∈ linked_runs
       | inl _ => l ∈ failed_runs
       end).
Proof.
  unfold index_attribute.
  eapply (emits_bind _ _ _
            (fun x r l =>
               match x with
               | None => (exists e, r = inl e) /\ l = []
               | Some _ =>
                   match r with
                   | inr _ => l = [SelectAttribute; InsertTokenAttribute]
                              \/ l = [SelectAttribute; InsertAttribute; InsertTokenAttribute]
                   | inl _ => l = [SelectAttribute; InsertAttribute]
                   end
               end)).
  - apply emits_resolve_attribute_key.
  - intros [kid|].
    + eapply emits_bind.
      * apply emits_resolve_attribute.
      * intros x.
        instantiate (1 := fun x r l =>
                            match x with
                            | None => (exists e, r = inl e) /\ l = []
                            | Some _ => (exists y, r = inr y) /\ l = [InsertTokenAttribute]
                            end).
        destruct x as [aid|]; [apply emits_query|].
        intros w. exists []. rewrite app_nil_r. split; [done|]. split; [|done].
        by eexists.
      * by intros e l [].
      * intros [aid|] l1 r l2 H1 H2; simpl in H1.
        -- destruct H2 as [[y ->] ->]. destruct H1 as [->| ->]; [by left|by right].
        -- destruct H2 as [[e ->] ->]. by subst l1.
    + intros w. exists []. rewrite app_nil_r. split; [done|]. split; [|done].
      by eexists.
  - intros e l ->. unfold failed_runs. set_solver.
  - intros [kid|] l1 r l2 H1 H2.
    + destruct r as [e|[]].
      * subst l2. destruct H1 as [->| ->]; unfold failed_runs; set_solver.
      * destruct H1 as [->| ->], H2 as [->| ->]; unfold linked_runs; set_solver.
    + destruct H2 as [[e ->] ->]. subst l1. unfold failed_runs. set_solver.
Qed.

Lemma emits_for_each job now l :
  emits (for_each (index_attribute pg_numeric js_number job now) l)
    (attribute_runs (length l)).
Proof.
  induction l as [|a l IH]; cbn [for_each].
  { intros w. exists []. rewrite app_nil_r. split; [done|]. by exists []. }
  eapply (emits_bind _ _ _ (fun _ => attribute_runs (length l)));
    [apply emits_index_attribute|intros []; apply IH| |].
  - intros e ls Hls. exists [], ls. simpl. split_and!; try done. lia.
  - intros [] l1 r l2 H1 H2. destruct r as [e|[]].
    + destruct H2 as (groups & failed & Hlen & Hall & Hf & ->).
      exists (l1 :: groups), failed. simpl.
      split_and!; [lia|by constructor|done|by rewrite (assoc_L (++))].
    + destruct H2 as (groups & Hlen & Hall & ->).
      exists (l1 :: groups). simpl. split_and!; [lia|by constructor|done].
Qed.

Lemma emits_indexing job now :
  emits (attributesToRefresh ←
           query DeleteTokenAttributes
             (delete_token_attributes (contract job) (tokenId job));
         schedule (collection job) attributesToRefresh;;
         for_each (index_attribute pg_numeric js_number job now) (attributes job);;
         query MarkIndexed (mark_indexed job))
    (fun r l =>
       exists body,
         attribute_runs (length (attributes job)) r body
         /\ l = DeleteTokenAttributes :: body ++ closing r).
Proof.
  eapply (emits_bind _ _ _
            (fun _ r l =>
               exists body,
                 attribute_runs (length (attributes job)) r body
                 /\ l = body ++ closing r)).
  - apply emits_query.
  - intros removed.
    eapply (emits_bind _ _ _
              (fun _ r l =>
                 exists body,
                   attribute_runs (length (attributes job)) r body
                   /\ l = body ++ closing r)).
    + apply emits_schedule.
    + intros [].
      eapply (emits_bind _ _ _
                (fun _ r l => (exists y, r = inr y) /\ l = [MarkIndexed])).
      * apply emits_for_each.
      * intros []. apply emits_query.
      * intros e l H. exists l. by rewrite app_nil_r.
      * intros [] l1 r l2 H1 [[y ->] ->]. by exists l1.
    + by intros e l [[=] _].
    + intros [] l1 r l2 [_ ->] H. exact H.
  - by intros e l [[x [=]] _].
  - intros removed l1 r l2 [_ ->] (body & H & ->). by exists body.
Qed.

(** What a run of the worker issues, whatever lands in between, follows
    from whether its first statement, the update of the token, met a row
    for the token in the database it arrived at. With no row the run
    completes having issued that update and nothing more. With a row the
    delete of the links follows, then for each attribute in turn one of
    the four sequences that end in its link statement; a completed run
    has one such sequence per attribute and the marking of the token as
    its last statement, a thrown run ends in the failing sequence of the
    attribute it stopped at and never marks the token. *)
Theorem worker_statements job now w :
  exists l,
    trace (worker pg_numeric js_number job now w).2 = trace w ++ l
    /\ match tokens (arrive w) !! (contract job, tokenId job) with
       | None =>
           (worker pg_numeric js_number job now w).1 = inr () /\ l = [UpdateToken]
       | Some _ =>
           exists body,
             attribute_runs (length (attributes job))
               (worker pg_numeric js_number job now w).1 body
             /\ l = UpdateToken :: DeleteTokenAttributes :: body
                      ++ closing (worker pg_numeric js_number job now w).1
       end.
Proof.
  assert (match tokens (arrive w) !! (contract job, tokenId job) with
          | None => update_token job now (arrive w) = (None, arrive w)
          | Some _ => exists d1, update_token job now (arrive w) = (Some (), d1)
          end) as Hu.
  { unfold update_token.
    destruct (tokens (arrive w) !! (contract job, tokenId job)); [by eexists|done]. }
  destruct (tokens (arrive w) !! (contract job, tokenId job)) as [t|].
  - destruct Hu as [d1 Hu].
    set (w1 := {| db := d1; concurrent := tail (concurrent w);
                  trace := trace w ++ [UpdateToken]; recounts := recounts w |}).
    assert (worker pg_numeric js_number job now w
            = (attributesToRefresh ←
                 query DeleteTokenAttributes
                   (delete_token_attributes (contract job) (tokenId job));
               schedule (collection job) attributesToRefresh;;
               for_each (index_attribute pg_numeric js_number job now)
                 (attributes job);;
               query MarkIndexed (mark_indexed job)) w1) as ->.
    { unfold worker. unfold mbind at 1, M_bind at 1, query at 1, exec at 1.
      cbn [fst snd]. by rewrite Hu. }
    destruct (emits_indexing job now w1) as (l & Htr & body & Hruns & ->).
    eexists. split; [|exists body; split; [exact Hruns|reflexivity]].
    rewrite Htr. subst w1. cbn [trace]. by rewrite <-(assoc_L (++)).
  - assert (worker pg_numeric js_number job now w
            = (inr (), {| db := arrive w; concurrent := tail (concurrent w);
                          trace := trace w ++ [UpdateToken];
                          recounts := recounts w |})) as ->.
    { unfold worker. unfold mbind at 1, M_bind at 1, query at 1, exec at 1.
      cbn [fst snd]. by rewrite Hu. }
    by exists [UpdateToken].
Qed.

End Worker.

End TraceFacts.

Section RecountFacts.

Import MetadataIndex IndexRun.

Lemma quiet_exec {A} s (f : DB -> (JsError + A) * DB) : quiet (exec s f).
Proof. by intros w. Qed.

Lemma quiet_query {A} s (f : DB -> A * DB) : quiet (query s f).
Proof. by intros w. Qed.

Lemma quiet_ret {A} (x : A) : quiet (mret x : M A).
Proof. by intros w. Qed.

Lemma quiet_throw {A} e : quiet (@throw A e).
Proof. by intros w. Qed.

Lemma quiet_bind {A B} (m : M A) (f : A -> M B) :
  quiet m -> (forall x, quiet (f x)) -> quiet (m ≫= f).
Proof.
  intros Hm Hf w. unfold mbind, M_bind. specialize (Hm w).
  destruct (m w) as [[e|x] w1]; cbn [fst snd] in *; [done|].
  by rewrite Hf.
Qed.

Lemma quiet_for_each {A} (f : A -> M unit) l :
  (forall x, quiet (f x)) -> quiet (for_each f l).
Proof.
  intros Hf. induction l as [|x l IH]; cbn [for_each]; [apply quiet_ret|].
  apply quiet_bind; [apply Hf|]. by intros [].
Qed.

Section Worker.

Context (pg_numeric js_number : string -> option Z).

Lemma quiet_index_attribute job now a :
  quiet (index_attribute pg_numeric js_number job now a).
Proof.
  unfold index_attribute, resolve_attribute_key, resolve_attribute.
  apply quiet_bind.
  { apply quiet_bind; [apply quiet_exec|].
    intros [kid|]; [apply quiet_ret|apply quiet_query]. }
  intros [kid|]; [|apply quiet_throw].
  apply quiet_bind.
  { apply quiet_bind; [apply quiet_query|].
    intros [aid|]; [apply quiet_ret|apply quiet_query]. }
  intros [aid|]; [apply quiet_query|apply quiet_throw].
Qed.

Lemma worker_recounts job now d :
  recounts (worker pg_numeric js_number job now (alone d)).2
  = match tokens d !! (contract job, tokenId job) with
    | Some _ =>
        mjoin (map (fun kv => recounts_of (collection job) kv.2)
                 (map_to_list
                    (filter (fun kv => of_token (contract job) (tokenId job) kv.1)
                       (token_attributes d))))
    | None => []
    end.
Proof.
  unfold worker, mbind at 1, M_bind at 1.
  unfold query at 1, exec at 1, arrive, alone.
  cbn [fst snd concurrent db trace recounts tail app].
  unfold update_token. destruct (tokens d !! (contract job, tokenId job)) as [t|];
    cbn [fst snd]; [|done].
  unfold mbind at 1, M_bind at 1.
  unfold query at 1, exec at 1, arrive.
  cbn [fst snd concurrent db trace recounts tail app].
  unfold mbind at 1, M_bind at 1, schedule at 1.
  cbn [fst snd concurrent db trace recounts tail app].
  rewrite quiet_bind;
    [|apply quiet_for_each; intros a; apply quiet_index_attribute
     |intros []; apply quiet_query].
  cbn [recounts delete_token_attributes fst snd token_attributes].
  rewrite <-list_fmap_compose. done.
Qed.

(** A run of the worker on its own, completed or thrown, schedules the
    recount of the key and of the value of every link the token had
    before, under the collection of the job, and no other recount: two
    per removed link, none for the links it adds, none at all when the
    token has no row. *)
Theorem worker_schedules_recounts_of_removed_links job now d :
  (forall rc,
     rc ∈ recounts (worker pg_numeric js_number job now (alone d)).2
     <-> is_Some (tokens d !! (contract job, tokenId job))
         /\ exists aid row,
              token_attributes d !! (contract job, tokenId job, aid) = Some row
              /\ (rc = KeyCount (collection job) (ta_key row)
                  \/ rc = ValueCount (collection job) (ta_key row) (ta_value row)))
  /\ length (recounts (worker pg_numeric js_number job now (alone d)).2)
     = match tokens d !! (contract job, tokenId job) with
       | Some _ =>
           (2 * size (filter (fun kv => of_token (contract job) (tokenId job) kv.1)
                        (token_attributes d)))%nat
       | None => 0%nat
       end.
Proof.
  rewrite worker_recounts.
  destruct (tokens d !! (contract job, tokenId job)) as [t|].
  2:{ split; [|done]. intros rc. split; [by intros ?%elem_of_nil|].
      by intros [[? [=]] _]. }
  split.
  - intros rc. rewrite list_elem_of_join. split.
    + intros (l & Hrc & ([[[c i] aid] row] & -> & Hin)%list_elem_of_fmap).
      apply elem_of_map_to_list, map_lookup_filter_Some in Hin as [Hrow [Hc Hi]].
      simpl in Hc, Hi. subst c i. split; [by eexists|].
      exists aid, row. split; [done|].
      unfold recounts_of in Hrc. simpl in Hrc.
      rewrite !elem_of_cons, elem_of_nil in Hrc. tauto.
    + intros [_ (aid & row & Hrow & Hrc)].
      exists (recounts_of (collection job) row). split.
      * unfold recounts_of. rewrite !elem_of_cons. tauto.
      * apply list_elem_of_fmap.
        exists (contract job, tokenId job, aid, row). split; [done|].
        apply elem_of_map_to_list, map_lookup_filter_Some. by split.
  - rewrite <-length_map_to_list.
    induction (map_to_list _) as [|kv l IH]; [done|].
    simpl. rewrite IH. lia.
Qed.

End Worker.

End RecountFacts.

Section RowFacts.

Import MetadataIndex IndexReplay IndexRun.

Context (pg_numeric js_number : string -> option Z).

#[local] Abbreviation index_attribute_alone := (index_attribute_alone pg_numeric js_number).
#[local] Abbreviation index_all_alone := (index_all_alone pg_numeric js_number).
#[local] Abbreviation worker_alone := (worker_alone pg_numeric js_number).

Lemma update_attribute_key_frame c k v d :
  tokens (update_attribute_key pg_numeric c k v d).2 = tokens d
  /\ attributes_table (update_attribute_key pg_numeric c k v d).2 = attributes_table d
  /\ token_attributes (update_attribute_key pg_numeric c k v d).2 = token_attributes d.
Proof.
  unfold update_attribute_key.
  destruct (pg_numeric v); [|done].
  destruct (attribute_keys d !! (c, k)) as [r|]; [|done].
  by destruct (ak_kind r).
Qed.

Lemma insert_attribute_key_frame c a d :
  tokens (insert_attribute_key js_number c a d).2 = tokens d
  /\ attributes_table (insert_attribute_key js_number c a d).2 = attributes_table d
  /\ token_attributes (insert_attribute_key js_number c a d).2 = token_attributes d.
Proof.
  unfold insert_attribute_key. by destruct (attribute_keys d !! (c, key a)).
Qed.

Lemma attach_tokens job now kid a d :
  tokens (attach job now kid a d).2 = tokens d.
Proof.
  unfold attach. destruct (select_attribute kid (value a) d); [done|].
  by destruct (insert_attribute kid (collection job) a now d).1.
Qed.

Lemma index_attribute_alone_tokens job now a d :
  tokens (index_attribute_alone job now a d).2 = tokens d.
Proof.
  unfold IndexReplay.index_attribute_alone.
  destruct (update_attribute_key_frame (collection job) (key a) (value a) d) as [Ht _].
  destruct (update_attribute_key pg_numeric (collection job) (key a) (value a) d)
    as [[e|[kid|]] d1]; cbn [fst snd] in *; [done| |].
  - by rewrite attach_tokens.
  - destruct (insert_attribute_key_frame (collection job) a d1) as [Ht1 _].
    destruct (insert_attribute_key js_number (collection job) a d1).1;
      cbn [fst snd]; [rewrite attach_tokens|]; congruence.
Qed.

Lemma index_all_alone_tokens job now l : forall d,
  tokens (index_all_alone job now l d).2 = tokens d.
Proof.
  induction l as [|a l IH]; intros d; cbn [IndexReplay.index_all_alone]; [done|].
  pose proof (index_attribute_alone_tokens job now a d) as Ha.
  destruct (index_attribute_alone job now a d) as [[e|[]] d1]; cbn [fst snd] in *;
    [done|]. by rewrite IH.
Qed.

(** When the token has a row, a run of the worker on its own, completed or
    thrown, leaves in [tokens] the row of the payload, empty strings as
    NULL, stamped with the time of the run, and every other row as it
    was; the row is marked as indexed by a completed run and keeps its
    old flag in a thrown one, which has written the rest all the same. *)
Theorem worker_token_row job now d t :
  tokens d !! (contract job, tokenId job) = Some t ->
  tokens (db (worker pg_numeric js_number job now (alone d)).2)
  = <[(contract job, tokenId job) :=
        indexed_row job now
          match (worker pg_numeric js_number job now (alone d)).1 with
          | inr _ => Some true
          | inl _ => t_metadata_indexed t
          end]> (tokens d).
Proof.
  intros Ht.
  destruct (worker_alone_spec pg_numeric js_number job now (alone d) eq_refl)
    as (w' & Hw & Hd & _).
  rewrite Hw. cbn [fst snd]. rewrite Hd. cbn [db alone].
  unfold IndexReplay.worker_alone, update_token. rewrite Ht. cbn [fst snd].
  pose proof (index_all_alone_tokens job now (attributes job)
    (delete_token_attributes (contract job) (tokenId job)
       {| tokens := <[(contract job, tokenId job) :=
                        indexed_row job now (t_metadata_indexed t)]> (tokens d);
          attribute_keys := attribute_keys d;
          attributes_table := attributes_table d;
          token_attributes := token_attributes d;
          attribute_keys_id_seq := attribute_keys_id_seq d;
          attributes_id_seq := attributes_id_seq d |}).2) as Hall.
  cbn [delete_token_attributes snd tokens] in Hall.
  unfold indexed_row in Hall.
  destruct (index_all_alone job now (attributes job) _) as [[e|[]] d1];
    cbn [fst snd] in *; [done|].
  unfold mark_indexed. cbn [snd tokens]. rewrite Hall, lookup_insert_eq.
  cbn [t_metadata_indexed].
  unfold is_distinct_from. case_bool_decide as Hflag; cbn [negb].
  - by rewrite Hflag.
  - by rewrite insert_insert_eq.
Qed.

(** *** The links of a completed run *)

#[local] Arguments update_attribute_key : simpl never.
#[local] Arguments insert_attribute_key : simpl never.
#[local] Arguments insert_attribute : simpl never.
#[local] Arguments insert_token_attribute : simpl never.

Lemma located_keys_insert job d d1 c k r' b kb ab :
  located job d b kb ab ->
  attribute_keys d1 = <[(c, k) := r']> (attribute_keys d) ->
  attributes_table d1 = attributes_table d ->
  (forall r, attribute_keys d !! (c, k) = Some r -> ak_id r' = ak_id r) ->
  located job d1 b kb ab.
Proof.
  intros (kr & ar & Hkr & Hid & Har & Haid) Hkeys Hattrs Hsame.
  destruct (decide ((c, k) = (collection job, key b))) as [Heq|Hne].
  - rewrite Heq in *. pose proof (Hsame kr Hkr) as Hid'.
    exists r', ar. rewrite Hkeys, Hattrs, lookup_insert_eq.
    split_and!; try done. congruence.
  - exists kr, ar. rewrite Hkeys, Hattrs, lookup_insert_ne by done. done.
Qed.

Lemma located_link job aid a d b kb ab :
  located job d b kb ab ->
  located job (insert_token_attribute job aid a d).2 b kb ab.
Proof.
  intros (kr & ar & Hkr & Hid & Har & Haid).
  unfold insert_token_attribute, located. cbn [snd attribute_keys attributes_table].
  eexists kr, _. rewrite lookup_fmap, Har. simpl.
  split_and!; try done. by case_bool_decide.
Qed.

Lemma located_insert_attribute job kid a now d b kb ab :
  attributes_table d !! (kid, value a) = None ->
  located job d b kb ab ->
  located job (insert_attribute kid (collection job) a now d).2 b kb ab.
Proof.
  intros Hnone (kr & ar & Hkr & Hid & Har & Haid).
  unfold insert_attribute. rewrite Hnone.
  unfold located. cbn [snd attribute_keys attributes_table].
  eexists _, ar. rewrite lookup_fmap, Hkr. simpl.
  rewrite lookup_insert_ne by congruence.
  split_and!; try done; by case_bool_decide.
Qed.

Lemma insert_attribute_located job kid a now d kr aid :
  attributes_table d !! (kid, value a) = None ->
  attribute_keys d !! (collection job, key a) = Some kr ->
  ak_id kr = kid ->
  (insert_attribute kid (collection job) a now d).1 = Some aid ->
  located job (insert_attribute kid (collection job) a now d).2 a kid aid.
Proof.
  intros Hnone Hkr Hid. unfold insert_attribute. rewrite Hnone. cbn [fst].
  destruct (bool_decide _); [|done]. intros [= <-].
  unfold located. cbn [snd attribute_keys attributes_table].
  eexists _, _. rewrite lookup_fmap, Hkr, lookup_insert_eq. simpl.
  split_and!; try done; by case_bool_decide.
Qed.

Lemma attach_links job now kid a d d' kr :
  attribute_keys d !! (collection job, key a) = Some kr ->
  ak_id kr = kid ->
  attach job now kid a d = (inr (), d') ->
  exists aid,
    located job d' a kid aid
    /\ token_attributes d' = link_insert job aid a (token_attributes d)
    /\ (forall b kb ab, located job d b kb ab -> located job d' b kb ab).
Proof.
  intros Hkr Hid. unfold attach, select_attribute.
  destruct (attributes_table d !! (kid, value a)) as [ar|] eqn:Har;
    cbn [fmap option_fmap option_map].
  - intros Heq.
    assert (d' = (insert_token_attribute job (a_id ar) a d).2) as -> by congruence.
    clear Heq. exists (a_id ar). split_and!; try done.
    + apply located_link. by exists kr, ar.
    + intros b kb ab Hb. by apply located_link.
  - destruct (insert_attribute kid (collection job) a now d).1 as [aid|] eqn:Hins;
      [|done].
    intros Heq.
    assert (d' = (insert_token_attribute job aid a
                    (insert_attribute kid (collection job) a now d).2).2) as ->
      by congruence.
    clear Heq. exists aid. split_and!; try done.
    + apply located_link. by eapply insert_attribute_located.
    + intros b kb ab Hb. by apply located_link, located_insert_attribute.
Qed.

Lemma index_attribute_alone_links job now a d d' :
  index_attribute_alone job now a d = (inr (), d') ->
  exists kid aid,
    located job d' a kid aid
    /\ token_attributes d' = link_insert job aid a (token_attributes d)
    /\ (forall b kb ab, located job d b kb ab -> located job d' b kb ab).
Proof.
  unfold IndexReplay.index_attribute_alone.
  destruct (update_attribute_key pg_numeric (collection job) (key a) (value a) d)
    as [[e|res] d1] eqn:Hu; [done|].
  apply update_attribute_key_inv in Hu as (n & Hn & Ht & Hat & Hta & Hk).
  destruct (attribute_keys d !! (collection job, key a)) as [r|] eqn:Hr.
  - destruct Hk as (-> & Hkeys).
    intros Hatt.
    eapply attach_links in Hatt as (aid & Hloc & Hlinks & Hpers);
      [|by rewrite Hkeys, lookup_insert_eq|done].
    exists (ak_id r), aid. rewrite Hlinks, Hta. split_and!; try done.
    intros b kb ab Hb. apply Hpers.
    eapply located_keys_insert; [done|done|done|].
    intros r0 Hr0. by assert (r0 = r) as -> by congruence.
  - destruct Hk as [-> ->].
    destruct (insert_attribute_key_frame (collection job) a d) as (_ & Hat2 & Hta2).
    pose proof (eq_refl : insert_attribute_key js_number (collection job) a d
                          = insert_attribute_key js_number (collection job) a d) as Hins.
    unfold insert_attribute_key at 2 in Hins. rewrite Hr in Hins.
    rewrite Hins in Hat2, Hta2 |- *. cbn [fst snd] in *.
    intros Hatt.
    eapply attach_links in Hatt as (aid & Hloc & Hlinks & Hpers);
      [|cbn [attribute_keys]; by rewrite lookup_insert_eq|done].
    exists (attribute_keys_id_seq d), aid.
    rewrite Hlinks. split_and!; try done.
    intros b kb ab Hb. apply Hpers.
    eapply located_keys_insert; [done|done|done|].
    intros r0 Hr0. congruence.
Qed.

Lemma link_insert_keeps job aid a m k row :
  m !! k = Some row -> link_insert job aid a m !! k = Some row.
Proof.
  intros Hk. unfold link_insert. case_bool_decide as Hnone; [|done].
  rewrite lookup_insert_ne; [done|]. congruence.
Qed.

Lemma link_insert_has job aid a m :
  is_Some (link_insert job aid a m !! (contract job, tokenId job, aid)).
Proof.
  unfold link_insert. case_bool_decide as Hnone.
  - rewrite lookup_insert_eq. by eexists.
  - by apply not_eq_None_Some.
Qed.

Lemma link_insert_inv job aid a m k row :
  link_insert job aid a m !! k = Some row ->
  m !! k = Some row
  \/ (k = (contract job, tokenId job, aid)
      /\ row = {| ta_collection_id := collection job;
                  ta_key := key a;
                  ta_value := value a |}).
Proof.
  unfold link_insert. case_bool_decide as Hnone; [|by left].
  destruct (decide (k = (contract job, tokenId job, aid))) as [->|Hne].
  - rewrite lookup_insert_eq. intros [= <-]. by right.
  - rewrite lookup_insert_ne by done. by left.
Qed.

Lemma index_all_alone_links job now l : forall d d',
  index_all_alone job now l d = (inr (), d') ->
  (forall a, a ∈ l ->
     exists kid aid,
       located job d' a kid aid
       /\ is_Some (token_attributes d' !! (contract job, tokenId job, aid)))
  /\ (forall k row,
        token_attributes d' !! k = Some row ->
        token_attributes d !! k = Some row
        \/ exists a kid,
             a ∈ l /\ k.1 = (contract job, tokenId job)
             /\ located job d' a kid k.2
             /\ row = {| ta_collection_id := collection job;
                         ta_key := key a;
                         ta_value := value a |})
  /\ (forall k row,
        token_attributes d !! k = Some row -> token_attributes d' !! k = Some row)
  /\ (forall b kb ab, located job d b kb ab -> located job d' b kb ab).
Proof.
  induction l as [|a l IH]; intros d d'; cbn [IndexReplay.index_all_alone].
  { intros Heq. assert (d' = d) as -> by congruence.
    split_and!; try done; [by intros a ?%elem_of_nil|by left]. }
  destruct (index_attribute_alone job now a d) as [[e|[]] d1] eqn:Ha; [done|].
  apply index_attribute_alone_links in Ha as (kid & aid & Hloc & Hlinks & Hpers).
  intros Hrest. apply IH in Hrest as (Hall & Hnew & Hkeep & Hpers').
  split_and!.
  - intros b [->|Hb]%elem_of_cons; [|by apply Hall].
    exists kid, aid. split; [by apply Hpers'|].
    destruct (link_insert_has job aid a (token_attributes d)) as [row Hrow].
    rewrite <-Hlinks in Hrow. exists row. by apply Hkeep.
  - intros k row Hk. destruct (Hnew k row Hk) as [Hk1|(b & kb & Hb & Hk1 & Hlb & ->)].
    + rewrite Hlinks in Hk1. apply link_insert_inv in Hk1 as [Hk0|[-> ->]]; [by left|].
      right. exists a, kid. split_and!; try done; [by left|by apply Hpers'].
    + right. exists b, kb. split_and!; try done. by right.
  - intros k row Hk. apply Hkeep. rewrite Hlinks. by apply link_insert_keeps.
  - intros b kb ab Hb. by apply Hpers', Hpers.
Qed.

(** After a completed run of the worker on its own, for a token that has a
    row: every attribute of the job has its key row and its attribute row,
    and the token is linked to that attribute; every link of the token is
    the link of one of the job's attributes, with the job's collection and
    the attribute's key and value; the links of every other token are as
    they were. *)
Theorem worker_links_the_attributes job now d w' :
  is_Some (tokens d !! (contract job, tokenId job)) ->
  worker pg_numeric js_number job now (alone d) = (inr (), w') ->
  (forall a, a ∈ attributes job ->
     exists kid aid,
       located job (db w') a kid aid
       /\ is_Some (token_attributes (db w') !! (contract job, tokenId job, aid)))
  /\ (forall aid row,
        token_attributes (db w') !! (contract job, tokenId job, aid) = Some row ->
        exists a kid,
          a ∈ attributes job
          /\ located job (db w') a kid aid
          /\ row = {| ta_collection_id := collection job;
                      ta_key := key a;
                      ta_value := value a |})
  /\ (forall k,
        ~ of_token (contract job) (tokenId job) k ->
        token_attributes (db w') !! k = token_attributes d !! k).
Proof.
  intros [t Ht] Hrun. apply worker_alone_result in Hrun.
  unfold IndexReplay.worker_alone in Hrun.
  destruct (update_token_some job now d t Ht) as (Hres & Hk & Ha & Hta & _).
  rewrite Hres in Hrun.
  destruct (index_all_alone job now (attributes job) _) as [[e|[]] d1] eqn:Hall;
    [done|].
  assert (db w' = (mark_indexed job d1).2) as -> by congruence. clear Hrun.
  apply index_all_alone_links in Hall as (Hlinked & Hnew & Hkeep & _).
  destruct (mark_indexed_frame job d1) as (Hmk & Hma & Hmta & _).
  assert (forall b kb ab, located job d1 b kb ab
                          -> located job (mark_indexed job d1).2 b kb ab) as Hloc.
  { intros b kb ab. unfold located. by rewrite Hmk, Hma. }
  rewrite Hmta.
  assert (forall k row,
            token_attributes
              (delete_token_attributes (contract job) (tokenId job)
                 (update_token job now d).2).2 !! k = Some row
            <-> token_attributes d !! k = Some row
                /\ ~ of_token (contract job) (tokenId job) k) as Hbase.
  { intros k row. cbn [delete_token_attributes snd token_attributes].
    rewrite map_lookup_filter_Some, Hta. done. }
  split_and!.
  - intros a Ha'. destruct (Hlinked a Ha') as (kid & aid & Hl & Hs).
    exists kid, aid. split; [by apply Hloc|done].
  - intros aid row Hrow.
    destruct (Hnew _ _ Hrow) as [Hold|(a & kid & Ha' & _ & Hl & ->)].
    + apply Hbase in Hold as [_ Hnot]. by destruct Hnot.
    + exists a, kid. split_and!; try done; by apply Hloc.
  - intros k Hnot.
    destruct (token_attributes d1 !! k) as [row|] eqn:Hk1.
    + destruct (Hnew _ _ Hk1) as [Hold|(a & kid & _ & Hk' & _)].
      * apply Hbase in Hold as [Hold _]. done.
      * destruct Hnot. destruct k as [[c i] aid]. simpl in Hk'.
        unfold of_token. simpl. by injection Hk' as -> ->.
    + destruct (token_attributes d !! k) as [row|] eqn:Hk0; [|done].
      assert (token_attributes d1 !! k = Some row) as Hk2.
      { apply Hkeep, Hbase. by split. }
      congruence.
Qed.

End RowFacts.

Section AloneFacts.

Import MetadataIndex IndexReplay IndexRun.

Context (pg_numeric js_number : string -> option Z).

Lemma attach_completes job now kid a d :
  has_key_id kid (attribute_keys d) ->
  (attach job now kid a d).1 = inr ().
Proof.
  intros Hkey. unfold attach.
  destruct (select_attribute kid (value a) d) as [aid|] eqn:Hsel; [done|].
  unfold select_attribute in Hsel. apply fmap_None in Hsel.
  unfold insert_attribute. rewrite Hsel. cbn [fst].
  by rewrite bool_decide_eq_true_2.
Qed.

Lemma index_attribute_alone_result job now a d :
  (index_attribute_alone pg_numeric js_number job now a d).1
  = match pg_numeric (value a) with
    | Some _ => inr ()
    | None => inl (invalid_numeric (value a))
    end.
Proof.
  unfold IndexReplay.index_attribute_alone, update_attribute_key.
  destruct (pg_numeric (value a)) as [n|]; [|done].
  destruct (attribute_keys d !! (collection job, key a)) as [r|] eqn:Hr.
  - assert (forall info,
              has_key_id (ak_id r)
                (<[(collection job, key a) := set_info r info]> (attribute_keys d)))
      as Hhas.
    { intros info. exists (collection job, key a), (set_info r info).
      by rewrite lookup_insert_eq. }
    destruct (ak_kind r); apply attach_completes; apply Hhas.
  - unfold insert_attribute_key. rewrite Hr. cbn [fst snd].
    apply attach_completes. eexists (collection job, key a), _.
    cbn [attribute_keys]. by rewrite lookup_insert_eq.
Qed.

Lemma index_all_alone_result job now l : forall d,
  (index_all_alone pg_numeric js_number job now l d).1
  = match first_uncast pg_numeric l with
    | Some a => inl (invalid_numeric (value a))
    | None => inr ()
    end.
Proof.
  induction l as [|a l IH]; intros d; cbn [IndexReplay.index_all_alone]; [done|].
  pose proof (index_attribute_alone_result job now a d) as Ha.
  unfold first_uncast. cbn [List.find]. fold (first_uncast pg_numeric l).
  destruct (index_attribute_alone pg_numeric js_number job now a d) as [[e|[]] d1];
    cbn [fst snd] in *.
  - destruct (pg_numeric (value a)); [done|].
    rewrite bool_decide_eq_true_2 by done. congruence.
  - destruct (pg_numeric (value a)); [|done].
    rewrite bool_decide_eq_false_2 by done. apply IH.
Qed.

(** What a run of the worker on its own comes to. With no row for the
    token it completes; otherwise it throws at the first attribute whose
    value the cast to a number does not read, whatever the kind of the
    attribute or of its key, with the error of that cast, and completes
    when there is none: with no statement of another worker in between,
    an insert that finds no row returns its id, so the worker never gives
    up on a key or an attribute it could not fetch or save. *)
Theorem worker_alone_throws_only_on_cast job now d :
  (worker pg_numeric js_number job now (alone d)).1
  = match tokens d !! (contract job, tokenId job) with
    | None => inr ()
    | Some _ =>
        match first_uncast pg_numeric (attributes job) with
        | Some a => inl (invalid_numeric (value a))
        | None => inr ()
        end
    end.
Proof.
  destruct (worker_alone_spec pg_numeric js_number job now (alone d) eq_refl)
    as (w' & Hw & _ & _).
  rewrite Hw. cbn [fst db alone].
  unfold IndexReplay.worker_alone, update_token.
  destruct (tokens d !! (contract job, tokenId job)) as [t|]; cbn [fst snd]; [|done].
  rewrite <-index_all_alone_result
    with (job := job) (now := now)
         (d := (delete_token_attributes (contract job) (tokenId job)
                  {| tokens := <[(contract job, tokenId job) :=
                                   {| t_name := or_null (name job);
                                      t_description := or_null (description job);
                                      t_image := or_null (imageUrl job);
                                      t_media := or_null (mediaUrl job);
                                      t_attributes := attrs_hstore (attributes job);
                                      t_metadata_indexed := t_metadata_indexed t;
                                      t_updated_at := now |}]> (tokens d);
                     attribute_keys := attribute_keys d;
                     attributes_table := attributes_table d;
                     token_attributes := token_attributes d;
                     attribute_keys_id_seq := attribute_keys_id_seq d;
                     attributes_id_seq := attributes_id_seq d |}).2).
  by destruct (index_all_alone pg_numeric js_number job now (attributes job) _)
    as [[e|[]] d1].
Qed.

End AloneFacts.

Section RunExamples.

Import MetadataIndex IndexRun Decimal IndexFixtures.

Lemma worker_token_row_witness :
  tokens (db (worker numeric number (level_job "7") 5 (alone one_token_db)).2)
  = <[("0xc0", "1") :=
        indexed_row (level_job "7") 5
          match (worker numeric number (level_job "7") 5 (alone one_token_db)).1 with
          | inr _ => Some true
          | inl _ => t_metadata_indexed blank_token
          end]> (tokens one_token_db).
Proof.
  apply (worker_token_row numeric number (level_job "7") 5 one_token_db blank_token).
  by vm_compute.
Defined.

Lemma worker_links_the_attributes_witness :
  let w' := (worker numeric number (level_job "7") 5 (alone one_token_db)).2 in
  exists kid aid,
    located (level_job "7") (db w') (level "7") kid aid
    /\ is_Some (token_attributes (db w') !! ("0xc0", "1", aid)).
Proof.
  intros w'.
  destruct (worker_links_the_attributes numeric number (level_job "7") 5
              one_token_db w') as [H _].
  - exists blank_token. by vm_compute.
  - by vm_compute.
  - apply (H (level "7")). by left.
Defined.

(** A job with a value that is no number throws at it, though the
    attribute is of kind string and its key is not there yet. *)
Example worker_throws_on_a_colour :
  let job := {| collection := "0xc0"; contract := "0xc0"; tokenId := "1";
                name := None; description := None; imageUrl := None;
                mediaUrl := None;
                attributes := [ {| key := "Colour"; value := "Blue";
                                   kind := KString; rank := None |} ] |} in
  (worker numeric number job 6 (alone one_token_db)).1 = inl (invalid_numeric "Blue")
  /\ invalid_numeric "Blue"
     = Error ("invalid input syntax for type numeric: " +:+ quoted "Blue").
Proof. by vm_compute. Qed.

End RunExamples.

(** * The bid-event feed: one page, the two directions *)

Section PageFacts.

Import BidEvents FeedOrder FeedShape.

Context (buildContinuation : Z -> Z -> string)
        (splitContinuation : string -> JsError + Z * Z).

#[local] Abbreviation cursor_error := (cursor_error splitContinuation).
#[local] Abbreviation conditions := (conditions splitContinuation).
#[local] Abbreviation rawResult := (rawResult splitContinuation).
#[local] Abbreviation handler := (handler buildContinuation splitContinuation).

#[local] Existing Instance sorted_before_total.
#[local] Existing Instance sorted_before_trans.


Lemma StronglySorted_reverse {A} (R : relation A) (l : list A) :
  StronglySorted R l -> StronglySorted (flip R) (reverse l).
Proof.
  induction 1 as [|x l Hl IH Hx]; [constructor|].
  rewrite reverse_cons. apply StronglySorted_app_2; [|done|repeat constructor].
  intros a b Ha Hb. apply list_elem_of_singleton in Hb as ->.
  rewrite elem_of_reverse in Ha. rewrite Forall_forall in Hx. unfold flip.
  by apply Hx.
Qed.

(** Without a continuation, on a log with distinct ids that fits in one
    page, the rows of the descending feed are the rows of the ascending
    feed read backwards: both columns of the order turn with the
    direction, so rows of the same instant turn as well. *)
Theorem feed_directions_mirror log q :
  NoDup (id <$> log) ->
  continuation q = None ->
  (length log <= limit q)%nat ->
  rawResult log (with_direction q desc) = reverse (rawResult log (with_direction q asc)).
Proof.
  intros Hunique Hnone Hfits. unfold BidEvents.rawResult.
  cbn [limit with_direction sortDirection].
  assert (forall d, filter (fun e => conditions (with_direction q d) e) log
                    = filter (fun e => filters q e) log) as Hsame.
  { intros d. apply list_filter_iff. intros e.
    unfold BidEvents.conditions. cbn [continuation with_direction]. rewrite Hnone.
    rewrite andb_true_r. done. }
  rewrite !Hsame.
  pose proof (length_filter (fun e => filters q e) log) as Hlen.
  rewrite !take_ge
    by (rewrite merge_sort_Permutation; lia).
  apply (StronglySorted_unique_strong (sorted_before desc)).
  - intros x1 x2 Hx1 Hx2 H12 H21.
    rewrite elem_of_reverse in Hx2.
    rewrite merge_sort_Permutation in Hx1, Hx2.
    apply list_elem_of_filter in Hx1 as [_ Hx1], Hx2 as [_ Hx2].
    apply (same_id_same_row log); [done|done|done|].
    by apply (sorted_before_same_key desc).
  - apply StronglySorted_merge_sort; apply _.
  - apply (StronglySorted_reverse (sorted_before asc)).
    apply StronglySorted_merge_sort; apply _.
  - by rewrite reverse_Permutation, !merge_sort_Permutation.
Qed.

End PageFacts.

Section PageExamples.

Import BidEvents FeedOrder FeedShape FeedFixtures MoreFeedFixtures.


Lemma feed_directions_mirror_witness :
  rawResult plain_split small_log (with_direction whole desc)
  = reverse (rawResult plain_split small_log (with_direction whole asc)).
Proof.
  apply (feed_directions_mirror plain_split small_log whole).
  - apply (bool_decide_unpack _). by vm_compute.
  - reflexivity.
  - simpl. lia.
Defined.

End PageExamples.

(** * The worker only adds to the keys and the attributes *)

Section GrowthFacts.

Import MetadataIndex IndexGrowth.

Lemma key_grown_refl r : key_grown r r.
Proof.
  unfold key_grown. split_and!; try done; try lia.
  intros lo hi _ Hinfo. exists lo, hi. split_and!; try done; lia.
Qed.

Lemma key_grown_trans r1 r2 r3 : key_grown r1 r2 -> key_grown r2 r3 -> key_grown r1 r3.
Proof.
  intros (Hi1 & Hk1 & Hr1 & Hc1 & Hn1) (Hi2 & Hk2 & Hr2 & Hc2 & Hn2).
  unfold key_grown. split_and!; try congruence; try lia.
  intros lo hi Hkind Hinfo.
  destruct (Hn1 lo hi Hkind Hinfo) as (lo1 & hi1 & Hinfo1 & ? & ?).
  destruct (Hn2 lo1 hi1) as (lo2 & hi2 & Hinfo2 & ? & ?); [congruence|done|].
  exists lo2, hi2. split_and!; try done; lia.
Qed.

Lemma attribute_grown_refl r : attribute_grown r r.
Proof. unfold attribute_grown. split_and!; try done; lia. Qed.

Lemma attribute_grown_trans r1 r2 r3 :
  attribute_grown r1 r2 -> attribute_grown r2 r3 -> attribute_grown r1 r3.
Proof.
  intros (? & ? & ? & ? & ? & ? & ?) (? & ? & ? & ? & ? & ? & ?).
  unfold attribute_grown. split_and!; try congruence; lia.
Qed.

Lemma grows_refl d : grows d d.
Proof.
  split; intros k r Hr; exists r;
    (split; [done|]); [apply key_grown_refl|apply attribute_grown_refl].
Qed.

Lemma grows_trans d1 d2 d3 : grows d1 d2 -> grows d2 d3 -> grows d1 d3.
Proof.
  intros [Hk1 Ha1] [Hk2 Ha2]. split.
  - intros k r Hr. destruct (Hk1 k r Hr) as (r2 & Hr2 & Hg1).
    destruct (Hk2 k r2 Hr2) as (r3 & Hr3 & Hg2).
    exists r3. split; [done|]. by eapply key_grown_trans.
  - intros k r Hr. destruct (Ha1 k r Hr) as (r2 & Hr2 & Hg1).
    destruct (Ha2 k r2 Hr2) as (r3 & Hr3 & Hg2).
    exists r3. split; [done|]. by eapply attribute_grown_trans.
Qed.

Lemma grows_same_tables d d' :
  attribute_keys d' = attribute_keys d ->
  attributes_table d' = attributes_table d ->
  grows d d'.
Proof.
  intros Hk Ha. unfold grows. rewrite Hk, Ha. apply grows_refl.
Qed.

(** *** The rules *)

Lemma grower_exec {A} s (f : DB -> (JsError + A) * DB) :
  (forall d, grows d (f d).2) -> grower (exec s f).
Proof.
  intros Hf w Hw. unfold exec, arrive, growing in *. cbn [fst snd db concurrent].
  destruct (concurrent w) as [|g gs]; cbn [tail].
  - split; [apply Hf|done].
  - apply Forall_cons in Hw as [Hg Hgs]. split; [|done].
    eapply grows_trans; [apply Hg|apply Hf].
Qed.

Lemma grower_query {A} s (f : DB -> A * DB) :
  (forall d, grows d (f d).2) -> grower (query s f).
Proof. intros Hf. unfold query. by apply grower_exec. Qed.

Lemma grower_ret {A} (x : A) : grower (mret x : M A).
Proof. intros w Hw. split; [apply grows_refl|done]. Qed.

Lemma grower_throw {A} e : grower (@throw A e).
Proof. intros w Hw. split; [apply grows_refl|done]. Qed.

Lemma grower_schedule c l : grower (schedule c l).
Proof. intros w Hw. split; [apply grows_refl|done]. Qed.

Lemma grower_bind {A B} (m : M A) (f : A -> M B) :
  grower m -> (forall x, grower (f x)) -> grower (m ≫= f).
Proof.
  intros Hm Hf w Hw. unfold mbind, M_bind.
  destruct (Hm w Hw) as [Hg1 Hw1].
  destruct (m w) as [[e|x] w1]; cbn [fst snd] in *; [done|].
  destruct (Hf x w1 Hw1) as [Hg2 Hw2]. split; [|done].
  by eapply grows_trans.
Qed.

Lemma grower_for_each {A} (f : A -> M unit) l :
  (forall x, grower (f x)) -> grower (for_each f l).
Proof.
  intros Hf. induction l as [|x l IH]; cbn [for_each]; [apply grower_ret|].
  apply grower_bind; [apply Hf|]. by intros [].
Qed.

(** *** The statements *)

Lemma widen_grows n lo hi :
  exists lo' hi',
    widen n (Some (Some lo, Some hi)) = Some (Some lo', Some hi')
    /\ bound_numeric lo' <= bound_numeric lo
    /\ bound_numeric hi <= bound_numeric hi'.
Proof.
  unfold widen, widen_min, widen_max.
  destruct (bound_numeric lo >? n) eqn:H1, (bound_numeric hi <? n) eqn:H2;
    eexists _, _; (split; [done|]); cbn [bound_numeric]; lia.
Qed.

Section Worker.

Context (pg_numeric js_number : string -> option Z).

Lemma update_attribute_key_grows c k v d :
  grows d (update_attribute_key pg_numeric c k v d).2.
Proof.
  unfold update_attribute_key.
  destruct (pg_numeric v) as [n|]; [|apply grows_refl].
  destruct (attribute_keys d !! (c, k)) as [r|] eqn:Hr; [|apply grows_refl].
  assert (forall info,
            (forall lo hi, ak_kind r = KNumber -> ak_info r = Some (Some lo, Some hi) ->
               exists lo' hi',
                 info = Some (Some lo', Some hi')
                 /\ bound_numeric lo' <= bound_numeric lo
                 /\ bound_numeric hi <= bound_numeric hi') ->
            grows d (with_attribute_keys d (<[(c, k) := set_info r info]> (attribute_keys d))))
    as Hset.
  { intros info Hinfo. split; [|intros k0 r0 Hr0; exists r0; split;
                                 [done|apply attribute_grown_refl]].
    intros k0 r0 Hr0. cbn [with_attribute_keys attribute_keys].
    destruct (decide (k0 = (c, k))) as [->|Hne].
    - rewrite lookup_insert_eq. assert (r0 = r) as -> by congruence.
      eexists. split; [done|]. unfold key_grown. cbn [set_info ak_id ak_kind ak_rank
        ak_attribute_count ak_info]. split_and!; try done; lia.
    - rewrite lookup_insert_ne by done. exists r0. split; [done|apply key_grown_refl]. }
  destruct (ak_kind r) eqn:Hkind; cbn [snd]; apply Hset; intros lo hi Hk; try done.
  intros ->. apply widen_grows.
Qed.

Lemma insert_attribute_key_grows c a d :
  grows d (insert_attribute_key js_number c a d).2.
Proof.
  unfold insert_attribute_key.
  destruct (attribute_keys d !! (c, key a)) as [r|] eqn:Hr; cbn [snd].
  - by apply grows_same_tables.
  - split; [|intros k0 r0 Hr0; exists r0; split; [done|apply attribute_grown_refl]].
    intros k0 r0 Hr0. cbn [attribute_keys].
    rewrite lookup_insert_ne by congruence.
    exists r0. split; [done|apply key_grown_refl].
Qed.

Lemma insert_attribute_grows kid c a now d :
  grows d (insert_attribute kid c a now d).2.
Proof.
  unfold insert_attribute. cbn [snd]. split.
  - intros k0 r0 Hr0. cbn [attribute_keys]. rewrite lookup_fmap, Hr0. simpl.
    eexists. split; [done|]. case_bool_decide; [|apply key_grown_refl].
    unfold key_grown, add_attribute_count. simpl. split_and!; try done.
    + destruct (attributes_table d !! (kid, value a)); lia.
    + intros lo hi _ ->. exists lo, hi. split_and!; try done; lia.
  - intros k0 r0 Hr0. cbn [attributes_table].
    destruct (attributes_table d !! (kid, value a)) as [r|] eqn:Hr.
    + exists r0. split; [done|apply attribute_grown_refl].
    + rewrite lookup_insert_ne by congruence.
      exists r0. split; [done|apply attribute_grown_refl].
Qed.

Lemma insert_token_attribute_grows job aid a d :
  grows d (insert_token_attribute job aid a d).2.
Proof.
  unfold insert_token_attribute. cbn [snd]. split.
  - intros k0 r0 Hr0. exists r0. split; [done|apply key_grown_refl].
  - intros k0 r0 Hr0. cbn [attributes_table]. rewrite lookup_fmap, Hr0. simpl.
    eexists. split; [done|]. case_bool_decide; [|apply attribute_grown_refl].
    unfold attribute_grown, link_attribute. simpl. split_and!; try done.
    destruct (bool_decide _); lia.
Qed.

Lemma grower_index_attribute job now a :
  grower (index_attribute pg_numeric js_number job now a).
Proof.
  unfold index_attribute, resolve_attribute_key, resolve_attribute.
  apply grower_bind.
  { apply grower_bind; [apply grower_exec, update_attribute_key_grows|].
    intros [kid|]; [apply grower_ret|apply grower_query, insert_attribute_key_grows]. }
  intros [kid|]; [|apply grower_throw].
  apply grower_bind.
  { apply grower_bind; [apply grower_query; intros d; apply grows_refl|].
    intros [aid|]; [apply grower_ret|apply grower_query, insert_attribute_grows]. }
  intros [aid|]; [apply grower_query, insert_token_attribute_grows|apply grower_throw].
Qed.

Lemma theirs_grows g :
  IndexConsistency.theirs pg_numeric js_number g -> forall d, grows d (g d).
Proof.
  intros [] d.
  - apply grows_refl.
  - unfold update_token. destruct (tokens d !! _); cbn [snd]; by apply grows_same_tables.
  - by apply grows_same_tables.
  - apply update_attribute_key_grows.
  - apply insert_attribute_key_grows.
  - unfold their_insert_attribute.
    destruct (attribute_keys d !! _); [apply insert_attribute_grows|apply grows_refl].
  - unfold IndexConsistency.their_link.
    destruct (IndexReplay.attribute_id_of _ d _);
      [apply insert_token_attribute_grows|apply grows_refl].
  - by apply grows_same_tables.
Qed.

(** Whatever the run and whatever lands in between, as long as the
    statements of the others do the same, the worker takes nothing back
    from the keys and the attributes: every row that was there is still
    there, with its id, its kind and its rank (a key), its collection, key
    and timestamps (an attribute); counts have not gone down, and a
    numeric range has only widened. A job that names an existing key with
    another kind or rank leaves the stored ones. *)
Theorem worker_only_grows_the_index job now w :
  growing w ->
  grows (db w) (db (worker pg_numeric js_number job now w).2).
Proof.
  intros Hw.
  assert (grower (worker pg_numeric js_number job now)) as Hworker.
  { unfold worker. apply grower_bind.
    { apply grower_query. intros d. unfold update_token.
      destruct (tokens d !! _); cbn [snd]; by apply grows_same_tables. }
    intros [[]|]; [|apply grower_ret].
    apply grower_bind.
    { apply grower_query. intros d. by apply grows_same_tables. }
    intros removed. apply grower_bind; [apply grower_schedule|]. intros [].
    apply grower_bind.
    { apply grower_for_each. intros a. apply grower_index_attribute. }
    intros []. apply grower_query. intros d. by apply grows_same_tables. }
  by destruct (Hworker w Hw).
Qed.

End Worker.

(** Token 1, indexed with Level 7, is indexed again with Level 3 while the
    job of token 2 brings Level 9: the key and the attribute that were
    there are kept, and the range that was 7 to 7 ends as 3 to 9. *)
Lemma worker_only_grows_the_index_witness :
  let d := BusyFixtures.busy_world.(db) in
  let d' := db (worker Decimal.numeric Decimal.number (IndexFixtures.level_job "3") 7
                  BusyFixtures.busy_world).2 in
  growing BusyFixtures.busy_world
  /\ grows d d'
  /\ ak_info <$> attribute_keys d !! ("0xc0", "Level")
     = Some (Some (Some (JNumber 7), Some (JNumber 7)))
  /\ ak_info <$> attribute_keys d' !! ("0xc0", "Level")
     = Some (Some (Some (JString 3), Some (JString 9)))
  /\ size (attributes_table d) = 1%nat.
Proof.
  intros d d'.
  assert (growing BusyFixtures.busy_world) as Hw.
  { unfold growing, BusyFixtures.busy_world. cbn [concurrent].
    repeat (apply Forall_cons; split); [..|apply Forall_nil_2];
      apply (theirs_grows Decimal.numeric Decimal.number); constructor. }
  split; [exact Hw|]. split.
  - apply (worker_only_grows_the_index Decimal.numeric Decimal.number
             (IndexFixtures.level_job "3") 7 BusyFixtures.busy_world Hw).
  - by vm_compute.
Defined.

End GrowthFacts.
